(** * BitwardenDecrypt: a shallow embedding of [BitwardenDecrypt.py]

    The script decrypts a Bitwarden desktop [data.json].  This development
    embeds its five decryption routines and the vault walker of
    [decryptBitwardenJSON] as Rocq functions over

    - a small model of the Python runtime (exceptions, [exit], [print],
      truthiness, [str.split], [str.replace], [int], [re.findall], the
      [json] module), and
    - an interface [Primitives] for the [cryptography], [base64] and codec
      calls, which the script only ever uses as black boxes.

    Reading the input file, [getpass] and the final pretty-printing are
    outside the embedding: [decryptBitwardenJSON] below starts from the
    parsed [datafile] and the password bytes and returns [decryptedEntries]. *)

From Stdlib Require Import ZArith List String Ascii Bool Lia Arith.
From Stdlib.Strings Require Import Byte.
From Stdlib Require Import DecimalString DecimalZ DecimalPos DecimalFacts.
Import ListNotations.

Local Open Scope list_scope.
Local Open Scope string_scope.

Definition bytes := list byte.

(* ================================================================== *)
(** * The Python runtime *)
(* ================================================================== *)

Module Py.

(** Why a [ValueError] was raised; Python tells them apart by message. *)
Inductive value_error : Type :=
| InvalidLiteralForInt      (* int("x"), or more digits than int converts *)
| NonAsciiString            (* base64.b64decode of a str outside ASCII *)
| InvalidPaddingBytes       (* PKCS7 unpadder.finalize() *)
| InvalidCipherInput        (* AES key size, IV size, data not a block multiple *)
| InvalidKeyDerivation      (* PBKDF2HMAC rejected its parameters *)
| InvalidPrivateKey         (* load_der_private_key could not parse the DER *)
| DecryptionFailed.         (* RSA-OAEP *)

Inductive exn : Type :=
| AttributeError
| IndexError
| KeyError
| TypeError
| UnboundLocalError
| ValueError (why : value_error)
| BinasciiError
| UnicodeDecodeError
| JSONDecodeError.

(** The three values that end up under [BitwardenSecrets['RSAPrivateKey']]. *)
Inductive pyobj : Type :=
| PyNone
| PyStr (s : string)
| PyBytes (b : bytes).

(** What a run can be observed to do besides returning. *)
Inductive event : Type :=
| Print (line : string)
| Getpass                   (* getpass.getpass(): prompt on the terminal, one line read *)
| HmacSha256 (key msg : bytes)
| AesCbcDecrypt (key iv ciphertext : bytes)
| Pkcs7Unpad (data : bytes)
| LoadDerPrivateKey (key : pyobj)
| RsaOaepDecrypt (ciphertext : bytes).

Inductive result (A : Type) : Type :=
| Ret (a : A)
| Raise (e : exn)
| Exit (code : Z).
Arguments Ret {A} a.
Arguments Raise {A} e.
Arguments Exit {A} code.

(** A computation: the events it performed, in order, and how it ended. *)
Definition M (A : Type) : Type := (list event * result A)%type.

Definition ret {A} (a : A) : M A := ([], Ret a).
Definition raise {A} (e : exn) : M A := ([], Raise e).
Definition exit {A} (code : Z) : M A := ([], Exit code).
Definition emit (ev : event) : M unit := ([ev], Ret tt).
Definition print (line : string) : M unit := emit (Print line).

Definition bind {A B} (m : M A) (f : A -> M B) : M B :=
  match m with
  | (t, Ret a) => let (t', r) := f a in ((t ++ t')%list, r)
  | (t, Raise e) => (t, Raise e)
  | (t, Exit c) => (t, Exit c)
  end.

(** [try: m  except Exception: h] -- [SystemExit] is not an [Exception]. *)
Definition try_except {A} (m : M A) (h : M A) : M A :=
  match m with
  | (t, Raise _) => let (t', r) := h in ((t ++ t')%list, r)
  | _ => m
  end.

(** [try: m  except: h] -- a bare [except] also catches [SystemExit]. *)
Definition try_bare {A} (m : M A) (h : M A) : M A :=
  match m with
  | (t, Ret a) => (t, Ret a)
  | (t, _) => let (t', r) := h in ((t ++ t')%list, r)
  end.

(** A library call that either returns or raises [e]. *)
Definition lift {A} (e : exn) (o : option A) : M A :=
  match o with
  | Some a => ret a
  | None => raise e
  end.

Definition trace {A} (m : M A) : list event := fst m.
Definition outcome {A} (m : M A) : result A := snd m.

(** The lines written to standard output. *)
Fixpoint stdout (t : list event) : list string :=
  match t with
  | [] => []
  | Print l :: t' => l :: stdout t'
  | _ :: t' => stdout t'
  end.

(** [for x in xs: acc = body(acc, x)] *)
Fixpoint for_each {A S} (xs : list A) (body : S -> A -> M S) (acc : S) : M S :=
  match xs with
  | [] => ret acc
  | x :: xs' => bind (body acc x) (for_each xs' body)
  end.

End Py.
Import Py.

Declare Scope py_scope.
Delimit Scope py_scope with py.
Notation "x <- m ;; k" := (bind m (fun x => k))
  (at level 61, m at next level, right associativity) : py_scope.
Notation "' p <- m ;; k" := (bind m (fun p => k))
  (at level 61, p pattern, m at next level, right associativity) : py_scope.
Notation "m ;;; k" := (bind m (fun _ => k))
  (at level 61, right associativity) : py_scope.
Local Open Scope py_scope.

(* ================================================================== *)
(** * [str] methods and [int] *)
(* ================================================================== *)

Module Str.

(** [s.split(sep)] for a one-character separator: never the empty list. *)
Fixpoint split (sep : ascii) (s : string) : list string :=
  match s with
  | EmptyString => [EmptyString]
  | String c s' =>
      if Ascii.eqb c sep then EmptyString :: split sep s'
      else match split sep s' with
           | [] => [String c EmptyString]
           | h :: t => String c h :: t
           end
  end.

(** [p] is a prefix of [s]. *)
Fixpoint has_prefix (p s : string) : bool :=
  match p with
  | EmptyString => true
  | String a p' =>
      match s with
      | String b s' => Ascii.eqb a b && has_prefix p' s'
      | EmptyString => false
      end
  end.

(** [s.startswith(p)] *)
Definition startswith (s p : string) : bool := has_prefix p s.

Fixpoint drop (n : nat) (s : string) : string :=
  match n, s with
  | O, _ => s
  | S _, EmptyString => EmptyString
  | S k, String _ s' => drop k s'
  end.

Fixpoint take (n : nat) (s : string) : string :=
  match n, s with
  | O, _ => EmptyString
  | S _, EmptyString => EmptyString
  | S k, String c s' => String c (take k s')
  end.

(** Left-to-right, non-overlapping replacement; [skip] counts the
    characters of an occurrence that are still to be passed over. *)
Fixpoint replace_from (old new : string) (skip : nat) (s : string) : string :=
  match s with
  | EmptyString => EmptyString
  | String c s' =>
      match skip with
      | S k => replace_from old new k s'
      | O =>
          if has_prefix old s
          then new ++ replace_from old new (String.length old - 1) s'
          else String c (replace_from old new 0 s')
      end
  end.

Fixpoint intersperse (new : string) (s : string) : string :=
  match s with
  | EmptyString => new
  | String c s' => new ++ String c (intersperse new s')
  end.

(** [s.replace(old, new)]. *)
Definition replace (s old new : string) : string :=
  match old with
  | EmptyString => intersperse new s
  | _ => replace_from old new 0 s
  end.

(** [s.find(sub)]: where [sub] first occurs in [s], if it does. *)
Fixpoint find (sub s : string) : option nat :=
  if has_prefix sub s then Some O
  else match s with
       | EmptyString => None
       | String _ s' => option_map S (find sub s')
       end.

Definition is_digit (c : ascii) : bool :=
  (48 <=? nat_of_ascii c)%nat && (nat_of_ascii c <=? 57)%nat.

(** Every character of [s] is in the class. *)
Fixpoint all_chars (cls : ascii -> bool) (s : string) : bool :=
  match s with
  | EmptyString => true
  | String c s' => cls c && all_chars cls s'
  end.

(** [s] is empty or starts outside the class. *)
Definition stops (cls : ascii -> bool) (s : string) : bool :=
  match s with
  | EmptyString => true
  | String c _ => negb (cls c)
  end.

(** Whitespace that [int] strips: tab to carriage return and the blank
    and, in the Latin-1 range, NEL and NBSP.  The separators U+001C to
    U+001F are not stripped. *)
Definition is_space (c : ascii) : bool :=
  let n := nat_of_ascii c in
  ((9 <=? n) && (n <=? 13) || (n =? 32) || (n =? 133) || (n =? 160))%nat.

Fixpoint lstrip (s : list ascii) : list ascii :=
  match s with
  | c :: s' => if is_space c then lstrip s' else s
  | [] => []
  end.

Definition strip (s : list ascii) : list ascii :=
  rev (lstrip (rev (lstrip s))).

(** Digits with single underscores between them, most significant first. *)
Fixpoint digits_value (acc : Z) (after_digit : bool) (s : list ascii) : option Z :=
  match s with
  | [] => if after_digit then Some acc else None
  | c :: s' =>
      if is_digit c
      then digits_value (10 * acc + Z.of_nat (nat_of_ascii c - 48)) true s'
      else if Ascii.eqb c "_" && after_digit
      then match s' with
           | d :: _ => if is_digit d then digits_value acc false s' else None
           | [] => None
           end
      else None
  end.

(** The number of digits that [int] converts at most, by default. *)
Definition max_str_digits : N := 4300.

(** [int(s)] in base ten; [None] stands for [ValueError]: the text is
    not an integer literal, or it has more digits than the limit. *)
Definition int (s : string) : option Z :=
  if (max_str_digits
      <? N.of_nat (List.length (filter is_digit (list_ascii_of_string s))))%N
  then None
  else
    match strip (list_ascii_of_string s) with
    | [] => None
    | c :: s' =>
        if Ascii.eqb c "-" then option_map Z.opp (digits_value 0 false s')
        else if Ascii.eqb c "+" then digits_value 0 false s'
        else digits_value 0 false (c :: s')
    end.

End Str.

(* ================================================================== *)
(** * [re]: the fragment the script's pattern needs *)
(* ================================================================== *)

Module Re.

(** One character of a class, or a greedy [+] over a class. *)
Inductive atom : Type :=
| One (cls : ascii -> bool)
| Many1 (cls : ascii -> bool).

Fixpoint run_length (cls : ascii -> bool) (s : string) : nat :=
  match s with
  | String c s' => if cls c then S (run_length cls s') else O
  | EmptyString => O
  end.

(** Greedy choice with backtracking: the longest count first. *)
Fixpoint longest_first (k : nat -> option nat) (n : nat) : option nat :=
  match n with
  | O => None
  | S n' =>
      match k (S n') with
      | Some len => Some len
      | None => longest_first k n'
      end
  end.

(** Length of the match of [r] anchored at the start of [s]. *)
Fixpoint match_here (r : list atom) (s : string) : option nat :=
  match r with
  | [] => Some O
  | One cls :: r' =>
      match s with
      | String c s' => if cls c then option_map S (match_here r' s') else None
      | EmptyString => None
      end
  | Many1 cls :: r' =>
      longest_first
        (fun n => option_map (Nat.add n) (match_here r' (Str.drop n s)))
        (run_length cls s)
  end.

Fixpoint findall_from (r : list atom) (skip : nat) (s : string) : list string :=
  match s with
  | EmptyString =>
      match skip, match_here r EmptyString with
      | O, Some _ => [EmptyString]
      | _, _ => []
      end
  | String _ s' =>
      match skip with
      | S k => findall_from r k s'
      | O =>
          match match_here r s with
          | Some (S n) => Str.take (S n) s :: findall_from r n s'
          | Some O => EmptyString :: findall_from r 0 s'
          | None => findall_from r 0 s'
          end
      end
  end.

(** [re.compile(r).findall(s)] for a pattern without groups. *)
Definition findall (r : list atom) (s : string) : list string :=
  findall_from r 0 s.

End Re.


(* ================================================================== *)
(** * The [json] module *)
(* ================================================================== *)

Module Json.

(** What [json.load] yields.  Numbers are the integers; text is a string
    of characters below U+0100.  An object keeps its members in insertion
    order, as a Python [dict] does. *)
#[warnings="-register-all"]
Inductive json : Type :=
| JNull
| JBool (b : bool)
| JNum (n : Z)
| JStr (s : string)
| JArr (items : list json)
| JObj (members : list (string * json)).

(** ** Serialising: [json.dumps] with its default arguments *)

(** The double quote. *)
Definition dq : ascii := "034"%char.

Definition hex_digit (n : nat) : ascii :=
  nth n (list_ascii_of_string "0123456789abcdef") "0"%char.

(** [ensure_ascii]: everything outside [' '..'~'], and the quote and the
    backslash, is escaped. *)
Definition escape_char (c : ascii) : string :=
  let n := nat_of_ascii c in
  if Ascii.eqb c dq then String "\" (String dq EmptyString)
  else if Ascii.eqb c "\" then "\\"
  else if (n =? 10)%nat then "\n"
  else if (n =? 13)%nat then "\r"
  else if (n =? 9)%nat then "\t"
  else if (n =? 8)%nat then "\b"
  else if (n =? 12)%nat then "\f"
  else if ((n <? 32) || (126 <? n))%nat
  then "\u00" ++ String (hex_digit (n / 16)) (String (hex_digit (n mod 16)) EmptyString)
  else String c EmptyString.

Fixpoint escape (s : string) : string :=
  match s with
  | EmptyString => EmptyString
  | String c s' => escape_char c ++ escape s'
  end.

(** [json.JSONEncoder().encode(s)] for a [str]. *)
Definition encode_str (s : string) : string :=
  String dq (escape s ++ String dq EmptyString).

Definition dumps_int (n : Z) : string := NilZero.string_of_int (Z.to_int n).

Fixpoint join (sep : string) (parts : list string) : string :=
  match parts with
  | [] => EmptyString
  | [p] => p
  | p :: rest => p ++ sep ++ join sep rest
  end.

Fixpoint dumps (v : json) : string :=
  match v with
  | JNull => "null"
  | JBool true => "true"
  | JBool false => "false"
  | JNum n => dumps_int n
  | JStr s => encode_str s
  | JArr items => "[" ++ join ", " (map dumps items) ++ "]"
  | JObj members =>
      "{" ++ join ", "
               (map (fun kv : string * json =>
                       let (k, x) := kv in encode_str k ++ ": " ++ dumps x)
                    members)
          ++ "}"
  end.

(** ** Parsing: [json.loads] *)

Definition is_ws (c : ascii) : bool :=
  let n := nat_of_ascii c in
  ((n =? 32) || (n =? 9) || (n =? 10) || (n =? 13))%nat.

Fixpoint skip_ws (s : string) : string :=
  match s with
  | String c s' => if is_ws c then skip_ws s' else s
  | EmptyString => EmptyString
  end.

Definition hex_value (c : ascii) : option nat :=
  let n := nat_of_ascii c in
  if ((48 <=? n) && (n <=? 57))%nat then Some (n - 48)%nat
  else if ((97 <=? n) && (n <=? 102))%nat then Some (n - 87)%nat
  else if ((65 <=? n) && (n <=? 70))%nat then Some (n - 55)%nat
  else None.

Definition hex4 (a b c d : ascii) : option nat :=
  match hex_value a, hex_value b, hex_value c, hex_value d with
  | Some x, Some y, Some z, Some w => Some (((x * 16 + y) * 16 + z) * 16 + w)%nat
  | _, _, _, _ => None
  end.

Definition simple_escape (c : ascii) : option ascii :=
  if Ascii.eqb c dq then Some dq
  else if Ascii.eqb c "\" then Some "\"%char
  else if Ascii.eqb c "/" then Some "/"%char
  else if Ascii.eqb c "b" then Some (ascii_of_nat 8)
  else if Ascii.eqb c "f" then Some (ascii_of_nat 12)
  else if Ascii.eqb c "n" then Some (ascii_of_nat 10)
  else if Ascii.eqb c "r" then Some (ascii_of_nat 13)
  else if Ascii.eqb c "t" then Some (ascii_of_nat 9)
  else None.

Definition cons_char (c : ascii) (r : option (string * string))
  : option (string * string) :=
  match r with
  | Some (body, rest) => Some (String c body, rest)
  | None => None
  end.

(** The text of a string literal after its opening quote, and what
    follows the closing quote.  Control characters are refused
    ([strict]); a [\u] escape at or above U+0100 is outside the model. *)
Fixpoint scan_string (s : string) : option (string * string) :=
  match s with
  | EmptyString => None
  | String c s' =>
      if Ascii.eqb c dq then Some (EmptyString, s')
      else if Ascii.eqb c "\" then
        match s' with
        | EmptyString => None
        | String e s'' =>
            match simple_escape e with
            | Some ch => cons_char ch (scan_string s'')
            | None =>
                if Ascii.eqb e "u" then
                  match s'' with
                  | String h1 (String h2 (String h3 (String h4 s3))) =>
                      match hex4 h1 h2 h3 h4 with
                      | Some n =>
                          if (n <? 256)%nat
                          then cons_char (ascii_of_nat n) (scan_string s3)
                          else None
                      | None => None
                      end
                  | _ => None
                  end
                else None
            end
        end
      else if (nat_of_ascii c <? 32)%nat then None
      else cons_char c (scan_string s')
  end.

Definition is_numchar (c : ascii) : bool :=
  Str.is_digit c || Ascii.eqb c "-".

Definition starts_fraction (s : string) : bool :=
  match s with
  | String c _ => Ascii.eqb c "." || Ascii.eqb c "e" || Ascii.eqb c "E"
  | EmptyString => false
  end.

(** An integer literal: an optional minus sign, then either a lone zero
    or digits that do not start with zero.  A literal that goes on as a
    float is outside the model. *)
Definition scan_number (s : string) : option (json * string) :=
  let n := Re.run_length is_numchar s in
  let tok := Str.take n s in
  let rest := Str.drop n s in
  match NilZero.int_of_string tok with
  | Some d =>
      let z := Z.of_int d in
      if (String.eqb (dumps_int z) tok || String.eqb tok "-0")
         && negb (starts_fraction rest)
      then Some (JNum z, rest)
      else None
  | None => None
  end.

Fixpoint assoc_set {V} (k : string) (v : V) (d : list (string * V))
  : list (string * V) :=
  match d with
  | [] => [(k, v)]
  | (k', v') :: d' =>
      if String.eqb k' k then (k', v) :: d' else (k', v') :: assoc_set k v d'
  end.

(** [dict(pairs)]: a repeated key keeps its first place and its last value. *)
Definition dict_of_pairs {V} (pairs : list (string * V)) : list (string * V) :=
  fold_left (fun d kv => assoc_set (fst kv) (snd kv) d) pairs [].

Fixpoint parse_value (fuel : nat) (s : string) : option (json * string) :=
  match fuel with
  | O => None
  | S fuel' =>
      match s with
      | EmptyString => None
      | String c s' =>
          if Ascii.eqb c dq then
            match scan_string s' with
            | Some (body, rest) => Some (JStr body, rest)
            | None => None
            end
          else if Ascii.eqb c "[" then
            match skip_ws s' with
            | String "]" rest => Some (JArr [], rest)
            | s1 =>
                match parse_items fuel' s1 with
                | Some (items, rest) => Some (JArr items, rest)
                | None => None
                end
            end
          else if Ascii.eqb c "{" then
            match skip_ws s' with
            | String "}" rest => Some (JObj [], rest)
            | s1 =>
                match parse_members fuel' s1 with
                | Some (pairs, rest) => Some (JObj (dict_of_pairs pairs), rest)
                | None => None
                end
            end
          else if Str.has_prefix "null" s then Some (JNull, Str.drop 4 s)
          else if Str.has_prefix "true" s then Some (JBool true, Str.drop 4 s)
          else if Str.has_prefix "false" s then Some (JBool false, Str.drop 5 s)
          else scan_number s
      end
  end

with parse_items (fuel : nat) (s : string) : option (list json * string) :=
  match fuel with
  | O => None
  | S fuel' =>
      match parse_value fuel' s with
      | Some (v, rest) =>
          match skip_ws rest with
          | String "," rest' =>
              match parse_items fuel' (skip_ws rest') with
              | Some (vs, rest'') => Some (v :: vs, rest'')
              | None => None
              end
          | String "]" rest' => Some ([v], rest')
          | _ => None
          end
      | None => None
      end
  end

with parse_members (fuel : nat) (s : string)
  : option (list (string * json) * string) :=
  match fuel with
  | O => None
  | S fuel' =>
      match s with
      | String c s' =>
          if negb (Ascii.eqb c dq) then None else
          match scan_string s' with
          | Some (k, rest) =>
              match skip_ws rest with
              | String ":" rest1 =>
                  match parse_value fuel' (skip_ws rest1) with
                  | Some (v, rest2) =>
                      match skip_ws rest2 with
                      | String "," rest3 =>
                          match parse_members fuel' (skip_ws rest3) with
                          | Some (kvs, rest4) => Some ((k, v) :: kvs, rest4)
                          | None => None
                          end
                      | String "}" rest3 => Some ([(k, v)], rest3)
                      | _ => None
                      end
                  | None => None
                  end
              | _ => None
              end
          | None => None
          end
      | EmptyString => None
      end
  end.

(** [json.loads(s)]; [None] stands for [JSONDecodeError]. *)
Definition loads (s : string) : option json :=
  match parse_value (2 * String.length s + 2) (skip_ws s) with
  | Some (v, rest) =>
      match skip_ws rest with
      | EmptyString => Some v
      | _ => None
      end
  | None => None
  end.

(** ** Operations of the values *)

Fixpoint assoc_get {V} (k : string) (d : list (string * V)) : option V :=
  match d with
  | [] => None
  | (k', v) :: d' => if String.eqb k' k then Some v else assoc_get k d'
  end.

(** [not v] is [negb (truthy v)]. *)
Definition truthy (v : json) : bool :=
  match v with
  | JNull => false
  | JBool b => b
  | JNum n => negb (n =? 0)%Z
  | JStr s => negb (String.eqb s EmptyString)
  | JArr items => match items with [] => false | _ => true end
  | JObj members => match members with [] => false | _ => true end
  end.

(** [len(v)] *)
Definition len (v : json) : M nat :=
  match v with
  | JStr s => ret (String.length s)
  | JArr items => ret (List.length items)
  | JObj members => ret (List.length members)
  | _ => raise TypeError
  end.

(** [l[i]] for a Python index, negative ones counting from the end. *)
Definition index_of (n : Z) (size : nat) : option nat :=
  if (0 <=? n)%Z then
    if (n <? Z.of_nat size)%Z then Some (Z.to_nat n) else None
  else if (0 <=? Z.of_nat size + n)%Z then Some (Z.to_nat (Z.of_nat size + n))
  else None.

Definition as_index (i : json) : option Z :=
  match i with
  | JNum n => Some n
  | JBool b => Some (if b then 1 else 0)%Z
  | _ => None
  end.

(** [c[i]] *)
Definition subscript (c i : json) : M json :=
  match c with
  | JObj members =>
      match i with
      | JStr k => lift KeyError (assoc_get k members)
      | JArr _ | JObj _ => raise TypeError
      | _ => raise KeyError
      end
  | JArr items =>
      match as_index i with
      | Some n =>
          match index_of n (List.length items) with
          | Some j => lift IndexError (nth_error items j)
          | None => raise IndexError
          end
      | None => raise TypeError
      end
  | JStr s =>
      match as_index i with
      | Some n =>
          match index_of n (String.length s) with
          | Some j =>
              match String.get j s with
              | Some ch => ret (JStr (String ch EmptyString))
              | None => raise IndexError
              end
          | None => raise IndexError
          end
      | None => raise TypeError
      end
  | _ => raise TypeError
  end.

(** [d[k]] for a string [k]. *)
Definition getitem (d : json) (k : string) : M json := subscript d (JStr k).

(** [list(v)], which is also what [for x in v] walks over. *)
Definition iterate (v : json) : M (list json) :=
  match v with
  | JObj members => ret (map (fun kv : string * json => JStr (fst kv)) members)
  | JArr items => ret items
  | JStr s =>
      ret (map (fun ch => JStr (String ch EmptyString)) (list_ascii_of_string s))
  | _ => raise TypeError
  end.

(** [d.items()] *)
Definition dict_items (d : json) : M (list (string * json)) :=
  match d with
  | JObj members => ret members
  | _ => raise AttributeError
  end.

(** [json.loads(json.dumps(v))] *)
Definition copy (v : json) : M json := lift JSONDecodeError (loads (dumps v)).

(** [==] on the values that can be dictionary keys ([True == 1]). *)
Definition key_eqb (a b : json) : bool :=
  match a, b with
  | JNull, JNull => true
  | JStr x, JStr y => String.eqb x y
  | (JNum _ | JBool _), (JNum _ | JBool _) =>
      match as_index a, as_index b with
      | Some x, Some y => (x =? y)%Z
      | _, _ => false
      end
  | _, _ => false
  end.

Definition hashable (k : json) : bool :=
  match k with
  | JArr _ | JObj _ => false
  | _ => true
  end.

Fixpoint distinct (keys : list string) : bool :=
  match keys with
  | [] => true
  | k :: keys' => negb (existsb (String.eqb k) keys') && distinct keys'
  end.

(** No object has a repeated key: what [json.load] guarantees. *)
Fixpoint wf (v : json) : bool :=
  match v with
  | JArr items => forallb wf items
  | JObj members =>
      distinct (map fst members)
      && forallb (fun kv : string * json => let (_, x) := kv in wf x) members
  | _ => true
  end.

(** Induction over a value and, with it, over everything nested in it. *)
Definition json_induction (Q : json -> Prop)
           (Hnull : Q JNull)
           (Hbool : forall b, Q (JBool b))
           (Hnum : forall n, Q (JNum n))
           (Hstr : forall s, Q (JStr s))
           (Harr : forall items, Forall Q items -> Q (JArr items))
           (Hobj : forall members,
               Forall (fun kv : string * json => Q (snd kv)) members ->
               Q (JObj members))
  : forall v, Q v :=
  fix go (v : json) : Q v :=
    match v with
    | JNull => Hnull
    | JBool b => Hbool b
    | JNum n => Hnum n
    | JStr s => Hstr s
    | JArr items =>
        Harr items
             ((fix all (l : list json) : Forall Q l :=
                 match l with
                 | [] => Forall_nil _
                 | x :: l' => Forall_cons x (go x) (all l')
                 end) items)
    | JObj members =>
        Hobj members
             ((fix all (l : list (string * json))
               : Forall (fun kv : string * json => Q (snd kv)) l :=
                 match l with
                 | [] => Forall_nil _
                 | kv :: l' => Forall_cons kv (go (snd kv)) (all l')
                 end) members)
    end.

(** A text that starts the way a serialised value does: not with a
    blank and not with a closing bracket. *)
Definition value_starts (s : string) : bool :=
  match s with
  | EmptyString => false
  | String c _ =>
      negb (is_ws c) && negb (Ascii.eqb c "]") && negb (Ascii.eqb c "}")
  end.

(** A text that can follow a value inside a serialisation. *)
Definition closes (s : string) : bool :=
  match s with
  | EmptyString => true
  | String c _ => Ascii.eqb c "," || Ascii.eqb c "]" || Ascii.eqb c "}"
  end.

(** Fuel that [parse_value] needs on the serialisation of a value. *)
Fixpoint need (v : json) : nat :=
  match v with
  | JArr items => S (fold_right (fun x acc => S (need x + acc)) O items)
  | JObj members =>
      S (fold_right (fun (kv : string * json) acc =>
                       let (_, x) := kv in S (need x + acc)) O members)
  | _ => 1
  end.

Definition items_need (l : list json) : nat :=
  fold_right (fun x acc => S (need x + acc)) O l.

Definition members_need (l : list (string * json)) : nat :=
  fold_right (fun (kv : string * json) acc =>
                let (_, x) := kv in S (need x + acc)) O l.

(** How [dumps] writes one member of an object. *)
Definition dumps_member (kv : string * json) : string :=
  let (k, x) := kv in encode_str k ++ ": " ++ dumps x.

(** Parsing the serialisation of [v] gives [v] back, whatever closing
    text follows it. *)
Definition roundtrips (v : json) : Prop :=
  wf v = true ->
  forall fuel rest, (need v <= fuel)%nat -> closes rest = true ->
  parse_value fuel (dumps v ++ rest) = Some (v, rest).

Definition is_object (v : json) : bool :=
  match v with
  | JObj _ => true
  | _ => false
  end.

End Json.
Import Json.



(* ================================================================== *)
(** * The libraries the script calls *)
(* ================================================================== *)

(** [base64], the text codec and the [cryptography] package.  [None] is
    the call raising. *)
Record Primitives : Type := {
  b64decode : string -> option bytes;
  utf8_encode : string -> bytes;
  utf8_decode : bytes -> option string;
  (** [PBKDF2HMAC(SHA256, 32, salt, iterations).derive(key_material)] *)
  pbkdf2_hmac_sha256 : forall (salt : bytes) (iterations : Z) (key_material : bytes),
      option bytes;
  (** [HKDFExpand(SHA256, 32, info).derive(key_material)] *)
  hkdf_expand_sha256 : forall (info key_material : bytes), bytes;
  (** [HMAC(key, SHA256)] over the message *)
  hmac_sha256 : forall (key msg : bytes), bytes;
  (** [Cipher(AES(key), CBC(iv)).decryptor()], [update] and [finalize] *)
  aes_cbc_decrypt : forall (key iv ciphertext : bytes), option bytes;
  (** [PKCS7(128).unpadder()], [update] and [finalize] *)
  pkcs7_unpad : bytes -> option bytes;
  private_key : Type;
  load_der_private_key : bytes -> option private_key;
  (** [private_key.decrypt(ciphertext, OAEP(MGF1(SHA1), SHA1, None))] *)
  rsa_oaep_sha1_decrypt : private_key -> bytes -> option bytes
}.

(** [base64.b64encode(b).decode('utf-8')]: the standard alphabet, with
    padding.  It cannot fail. *)
Definition b64char (n : N) : ascii :=
  nth (N.to_nat (n mod 64))
      (list_ascii_of_string
         "ABCDEFGHIJKLMNOPQRSTUVWXYZabcdefghijklmnopqrstuvwxyz0123456789+/")
      "A"%char.

Fixpoint base64_b64encode (b : bytes) : string :=
  match b with
  | x :: y :: z :: b' =>
      let n := ((Byte.to_N x * 256 + Byte.to_N y) * 256 + Byte.to_N z)%N in
      String (b64char (n / 262144)) (String (b64char (n / 4096))
        (String (b64char (n / 64)) (String (b64char n) (base64_b64encode b'))))
  | [x; y] =>
      let n := ((Byte.to_N x * 256 + Byte.to_N y) * 4)%N in
      String (b64char (n / 4096)) (String (b64char (n / 64))
        (String (b64char n) "="))
  | [x] =>
      let n := (Byte.to_N x * 16)%N in
      String (b64char (n / 64)) (String (b64char n) "==")
  | [] => EmptyString
  end.

Definition is_ascii (c : ascii) : bool := (nat_of_ascii c <? 128)%nat.

Fixpoint bytes_eqb (a b : bytes) : bool :=
  match a, b with
  | [], [] => true
  | x :: a', y :: b' => Byte.eqb x y && bytes_eqb a' b'
  | _, _ => false
  end.

(** [b[i:j]] on bytes, for [0 <= i <= j]. *)
Definition slice (i j : nat) (b : bytes) : bytes := firstn (j - i) (skipn i b).

(** [l[i]] for a literal index. *)
Definition item {A} (l : list A) (i : nat) : M A := lift IndexError (nth_error l i).

(** [v.split(sep)]: only a [str] has the method. *)
Definition split (v : json) (sep : ascii) : M (list string) :=
  match v with
  | JStr s => ret (Str.split sep s)
  | _ => raise AttributeError
  end.

(* ================================================================== *)
(** * The script *)
(* ================================================================== *)

Definition MAC_ERROR_MASTER : string :=
  "ERROR: MAC did not match. Master Encryption Key was not decrypted.".
Definition WRONG_PASSWORD : string :=
  "Wrong Password. Could Not Decode Protected Symmetric Key.".
Definition MAC_ERROR_RSA : string :=
  "ERROR: MAC did not match. RSA Private Key not decrypted.".
Definition MAC_ERROR_FIELD : string :=
  "ERROR: MAC did not match. CipherString not decrypted.".

(** The dictionary [BitwardenSecrets], without the arguments it is seeded
    with and without the [_b64] renderings of its keys, which are written
    and never read.  [MasterPasswordHash] is stored as base64 text. *)
Record BitwardenSecrets : Type := {
  MasterKey : bytes;
  MasterPasswordHash : string;
  StretchedEncryptionKey : bytes;
  StretchedMacKey : bytes;
  GeneratedSymmetricKey : bytes;
  GeneratedEncryptionKey : bytes;
  GeneratedMACKey : bytes;
  RSAPrivateKey : pyobj
}.

(** The locals [encKey] and [macKey] of [decryptBitwardenJSON]: unbound
    until first assigned, and then kept from one record to the next. *)
Record key_vars : Type := {
  encKey_var : option bytes;
  macKey_var : option bytes
}.

Section Script.

Variable P : Primitives.

(** ** Library calls, with the events they leave *)

(** [base64.b64decode(s)] for a [str]: the text is first encoded as
    ASCII, which is a plain [ValueError] when it cannot be; what the
    decoder itself refuses is a [binascii.Error]. *)
Definition base64_b64decode (s : string) : M bytes :=
  if Str.all_chars is_ascii s then lift BinasciiError (b64decode P s)
  else raise (ValueError NonAsciiString).

Definition HMAC (key msg : bytes) : M bytes :=
  emit (HmacSha256 key msg) ;;; ret (hmac_sha256 P key msg).

Definition AES_CBC (key iv ciphertext : bytes) : M bytes :=
  emit (AesCbcDecrypt key iv ciphertext) ;;;
  lift (ValueError InvalidCipherInput) (aes_cbc_decrypt P key iv ciphertext).

Definition unpad (data : bytes) : M bytes :=
  emit (Pkcs7Unpad data) ;;;
  lift (ValueError InvalidPaddingBytes) (pkcs7_unpad P data).

Definition PBKDF2 (salt : bytes) (iterations : Z) (key_material : bytes) : M bytes :=
  lift (ValueError InvalidKeyDerivation)
       (pbkdf2_hmac_sha256 P salt iterations key_material).

(** ** The four lines every symmetric routine starts with *)

(** [int(CipherString.split(".")[0])] *)
Definition encType_of (CipherString : json) : M Z :=
  parts <- split CipherString "." ;;
  head <- item parts 0 ;;
  lift (ValueError InvalidLiteralForInt) (Str.int head).

(** [base64.b64decode(CipherString.split(".")[1].split("|")[i])] *)
Definition segment (CipherString : json) (i : nat) : M bytes :=
  parts <- split CipherString "." ;;
  body <- item parts 1 ;;
  seg <- item (Str.split "|" body) i ;;
  base64_b64decode seg.

Definition parse_symmetric (CipherString : json) : M (bytes * bytes * bytes) :=
  encType <- encType_of CipherString ;;
  iv <- segment CipherString 0 ;;
  ciphertext <- segment CipherString 1 ;;
  mac <- segment CipherString 2 ;;
  ret (iv, ciphertext, mac).

(** ** [decryptMasterEncryptionKey] *)

Definition decryptMasterEncryptionKey (CipherString : json)
           (masterkey mastermac : bytes) : M (bytes * bytes * bytes) :=
  '(iv, ciphertext, mac) <- parse_symmetric CipherString ;;
  calculatedMAC <- HMAC mastermac (iv ++ ciphertext)%list ;;
  (if negb (bytes_eqb mac calculatedMAC)
   then print MAC_ERROR_MASTER ;;; exit 1
   else ret tt) ;;;
  decrypted <- AES_CBC masterkey iv ciphertext ;;
  cleartext <- try_bare (unpad decrypted)
                        (print EmptyString ;;; print WRONG_PASSWORD ;;; exit 1) ;;
  let stretchedmasterkey := cleartext in
  let enc := slice 0 32 stretchedmasterkey in
  let mac := slice 32 64 stretchedmasterkey in
  ret (stretchedmasterkey, enc, mac).

(** ** [decryptRSAPrivateKey] *)

Definition decryptRSAPrivateKey (CipherString : json) (key mackey : bytes)
  : M pyobj :=
  if negb (truthy CipherString) then ret PyNone else
  '(iv, ciphertext, mac) <- parse_symmetric CipherString ;;
  calculatedMAC <- HMAC mackey (iv ++ ciphertext)%list ;;
  if bytes_eqb mac calculatedMAC then
    decrypted <- AES_CBC key iv ciphertext ;;
    cleartext <- unpad decrypted ;;
    ret (PyBytes cleartext)
  else ret (PyStr MAC_ERROR_RSA).

(** ** [decryptCipherString] *)

Definition decryptCipherString (CipherString : json) (key mackey : bytes)
  : M pyobj :=
  if negb (truthy CipherString) then ret PyNone else
  '(iv, ciphertext, mac) <- parse_symmetric CipherString ;;
  calculatedMAC <- HMAC mackey (iv ++ ciphertext)%list ;;
  if bytes_eqb mac calculatedMAC then
    decrypted <- AES_CBC key iv ciphertext ;;
    cleartext <- unpad decrypted ;;
    text <- lift UnicodeDecodeError (utf8_decode P cleartext) ;;
    ret (PyStr text)
  else ret (PyStr MAC_ERROR_FIELD).

(** ** [decryptRSA] *)

Definition decryptRSA (CipherString : json) (key : pyobj) : M bytes :=
  encType <- encType_of CipherString ;;
  ciphertext <- segment CipherString 0 ;;
  emit (LoadDerPrivateKey key) ;;;
  private_key <- match key with
                 | PyBytes der =>
                     lift (ValueError InvalidPrivateKey) (load_der_private_key P der)
                 | _ => raise TypeError
                 end ;;
  emit (RsaOaepDecrypt ciphertext) ;;;
  lift (ValueError DecryptionFailed) (rsa_oaep_sha1_decrypt P private_key ciphertext).

(** ** [getBitwardenSecrets] *)

(** [bytes(email, 'utf-8')] *)
Definition bytes_utf8 (email : json) : M bytes :=
  match email with
  | JStr s => ret (utf8_encode P s)
  | _ => raise TypeError
  end.

Definition iterations_of (kdfIterations : json) : M Z :=
  lift TypeError (as_index kdfIterations).

Definition getBitwardenSecrets (email : json) (password : bytes)
           (kdfIterations encKey encPrivateKey : json) : M BitwardenSecrets :=
  salt <- bytes_utf8 email ;;
  iterations <- iterations_of kdfIterations ;;
  masterKey <- PBKDF2 salt iterations password ;;
  masterPasswordHash <- PBKDF2 password 1 masterKey ;;
  let stretchedEnc := hkdf_expand_sha256 P (list_byte_of_string "enc") masterKey in
  let stretchedMac := hkdf_expand_sha256 P (list_byte_of_string "mac") masterKey in
  '(sym, enc, mac) <- decryptMasterEncryptionKey encKey stretchedEnc stretchedMac ;;
  rsa <- decryptRSAPrivateKey encPrivateKey enc mac ;;
  ret {| MasterKey := masterKey;
         MasterPasswordHash := base64_b64encode masterPasswordHash;
         StretchedEncryptionKey := stretchedEnc;
         StretchedMacKey := stretchedMac;
         GeneratedSymmetricKey := sym;
         GeneratedEncryptionKey := enc;
         GeneratedMACKey := mac;
         RSAPrivateKey := rsa |}.

(** ** [decryptBitwardenJSON] *)

(** [BitwardenSecrets['OrgSecrets']]: keys are compared as Python does. *)
Definition org_secrets : Type := list (json * bytes).

Fixpoint org_set (k : json) (v : bytes) (d : org_secrets) : org_secrets :=
  match d with
  | [] => [(k, v)]
  | (k', v') :: d' =>
      if key_eqb k' k then (k', v) :: d' else (k', v') :: org_set k v d'
  end.

Fixpoint org_find (k : json) (d : org_secrets) : option bytes :=
  match d with
  | [] => None
  | (k', v) :: d' => if key_eqb k' k then Some v else org_find k d'
  end.

(** [OrgSecrets[k]] *)
Definition org_get (OrgSecrets : org_secrets) (k : json) : M bytes :=
  if hashable k then lift KeyError (org_find k OrgSecrets) else raise TypeError.

(** [for i in encOrgKeys: OrgSecrets[i] = decryptRSA(encOrgKeys[i], key)] *)
Definition unwrap_org_key (orgs : json) (rsa : pyobj)
           (OrgSecrets : org_secrets) (i : json) : M org_secrets :=
  wrapped <- subscript orgs i ;;
  plaintext <- decryptRSA wrapped rsa ;;
  if hashable i then ret (org_set i plaintext OrgSecrets) else raise TypeError.

(** The pattern [\d\.[^,]+\|[^,]+=+]. *)
Definition regexPattern : list Re.atom :=
  [ Re.One Str.is_digit;
    Re.One (Ascii.eqb ".");
    Re.Many1 (fun c => negb (Ascii.eqb c ","));
    Re.One (Ascii.eqb "|");
    Re.Many1 (fun c => negb (Ascii.eqb c ","));
    Re.Many1 (Ascii.eqb "=") ].

Definition group_of (a : string) : option string :=
  if Str.startswith a "folders_" then Some "folders"
  else if Str.startswith a "ciphers_" then Some "items"
  else if Str.startswith a "organizations_" then Some "organizations"
  else if Str.startswith a "collections_" then Some "collections"
  else None.

(** The [try] that picks the keys of a record.  Nothing is assigned when
    the organization id has length zero: there is no [else]. *)
Definition select_keys (secrets : BitwardenSecrets) (OrgSecrets : org_secrets)
           (groupItem : json) (vars : key_vars) : M key_vars :=
  try_except
    (organizationId <- getitem groupItem "organizationId" ;;
     n <- len organizationId ;;
     if (0 <? n)%nat then
       k <- org_get OrgSecrets organizationId ;;
       k' <- org_get OrgSecrets organizationId ;;
       ret {| encKey_var := Some (slice 0 32 k);
              macKey_var := Some (slice 32 64 k') |}
     else ret vars)
    (ret {| encKey_var := Some (GeneratedEncryptionKey secrets);
            macKey_var := Some (GeneratedMACKey secrets) |}).

(** [json.JSONEncoder().encode(x)] *)
Definition JSONEncoder_encode (x : pyobj) : M string :=
  match x with
  | PyNone => ret "null"
  | PyStr s => ret (encode_str s)
  | PyBytes _ => raise TypeError
  end.

(** [s[1:(len(s)-1)]] *)
Definition strip_quotes (s : string) : string :=
  Str.take (String.length s - 1 - 1) (Str.drop 1 s).

(** The text [userId] of the key, a colon, a blank, the identifier, and
    a comma, with the two names between double quotes. *)
Definition userIdString (u : string) : string :=
  String dq ("userId" ++ String dq (": " ++ String dq (u ++ String dq ","))).

(** The concatenation that builds it fails on anything but a [str]. *)
Definition userIdString_of (userId : json) : M string :=
  match userId with
  | JStr u => ret (userIdString u)
  | _ => raise TypeError
  end.

(** The body of [for match in regexPattern.findall(tempString)]. *)
Definition rewrite_match (datafile : json) (vars : key_vars)
           (tempString : string) (match_ : string) : M string :=
  encKey <- lift UnboundLocalError (encKey_var vars) ;;
  macKey <- lift UnboundLocalError (macKey_var vars) ;;
  cleartext <- decryptCipherString (JStr match_) encKey macKey ;;
  jsonEscapedString <- JSONEncoder_encode cleartext ;;
  let jsonEscapedString := strip_quotes jsonEscapedString in
  let tempString := Str.replace tempString match_ jsonEscapedString in
  userId <- getitem datafile "userId" ;;
  userIdString <- userIdString_of userId ;;
  ret (Str.replace tempString userIdString EmptyString).

(** The body of [for c in groupEntries]. *)
Definition walk_entry (datafile : json) (secrets : BitwardenSecrets)
           (OrgSecrets : org_secrets)
           (acc : key_vars * list json) (c : json) : M (key_vars * list json) :=
  let (vars, groupItemsList) := acc in
  groupItem <- copy c ;;
  match groupItem with
  | JObj _ =>
      let tempString := dumps c in
      vars <- select_keys secrets OrgSecrets groupItem vars ;;
      tempString <- for_each (Re.findall regexPattern tempString)
                             (rewrite_match datafile vars) tempString ;;
      record <- lift JSONDecodeError (loads tempString) ;;
      ret (vars, (groupItemsList ++ [record])%list)
  | _ => ret (vars, groupItemsList)
  end.

(** The body of [for b in groupData.items()]. *)
Definition walk_member (datafile : json) (secrets : BitwardenSecrets)
           (OrgSecrets : org_secrets)
           (acc : key_vars * list json) (b : string * json)
  : M (key_vars * list json) :=
  groupEntries <- copy (JArr [JStr (fst b); snd b]) ;;
  entries <- iterate groupEntries ;;
  for_each entries (walk_entry datafile secrets OrgSecrets) acc.

(** The body of [for a in datafile]. *)
Definition walk_key (datafile : json) (secrets : BitwardenSecrets)
           (OrgSecrets : org_secrets)
           (acc : key_vars * list (string * list json)) (a : json)
  : M (key_vars * list (string * list json)) :=
  let (vars, decryptedEntries) := acc in
  match a with
  | JStr name =>
      match group_of name with
      | Some group =>
          value <- subscript datafile a ;;
          groupData <- copy value ;;
          members <- dict_items groupData ;;
          '(vars, groupItemsList) <-
            for_each members (walk_member datafile secrets OrgSecrets) (vars, []) ;;
          ret (vars, assoc_set group groupItemsList decryptedEntries)
      | None => ret (vars, decryptedEntries)
      end
  | _ => raise AttributeError
  end.

(** The loop that fills [BitwardenSecrets['OrgSecrets']]. *)
Definition unwrap_org_keys (datafile : json) (secrets : BitwardenSecrets)
  : M org_secrets :=
  orgs <- getitem datafile "encOrgKeys" ;;
  encOrgKeys <- iterate orgs ;;
  for_each encOrgKeys (unwrap_org_key orgs (RSAPrivateKey secrets)) [].

(** The loop [for a in datafile]. *)
Definition walk_groups (datafile : json) (secrets : BitwardenSecrets)
           (OrgSecrets : org_secrets) : M (list (string * list json)) :=
  keys <- iterate datafile ;;
  '(_, decryptedEntries) <-
    for_each keys (walk_key datafile secrets OrgSecrets)
             ({| encKey_var := None; macKey_var := None |}, []) ;;
  ret decryptedEntries.

(** From the parsed [datafile] and the password typed at the prompt to
    [decryptedEntries]. *)
Definition decryptBitwardenJSON (datafile : json) (password : bytes)
  : M (list (string * list json)) :=
  userEmail <- getitem datafile "userEmail" ;;
  kdfIterations <- getitem datafile "kdfIterations" ;;
  encKey <- getitem datafile "encKey" ;;
  encPrivateKey <- getitem datafile "encPrivateKey" ;;
  secrets <- getBitwardenSecrets userEmail password kdfIterations encKey
                                 encPrivateKey ;;
  OrgSecrets <- unwrap_org_keys datafile secrets ;;
  walk_groups datafile secrets OrgSecrets.

(** ** Vocabulary for the statements below *)

(** The export and the password get the key chain as far as the unwrap
    of the protected symmetric key [encKey], with these stretched keys. *)
Definition reaches_unwrap (datafile : json) (password : bytes)
           (encKey encPrivateKey : json) (masterKey hash : bytes) : Prop :=
  exists userEmail kdfIterations salt iterations,
    getitem datafile "userEmail" = ret userEmail
    /\ getitem datafile "kdfIterations" = ret kdfIterations
    /\ getitem datafile "encKey" = ret encKey
    /\ getitem datafile "encPrivateKey" = ret encPrivateKey
    /\ bytes_utf8 userEmail = ret salt
    /\ iterations_of kdfIterations = ret iterations
    /\ pbkdf2_hmac_sha256 P salt iterations password = Some masterKey
    /\ pbkdf2_hmac_sha256 P password 1 masterKey = Some hash.

Definition stretched_enc (masterKey : bytes) : bytes :=
  hkdf_expand_sha256 P (list_byte_of_string "enc") masterKey.

Definition stretched_mac (masterKey : bytes) : bytes :=
  hkdf_expand_sha256 P (list_byte_of_string "mac") masterKey.

(** The two ways the unwrap of the protected symmetric key can fail. *)
Inductive unwrap_failure : Type :=
| MacMismatch
| BadPadding.

Definition unwrap_fails (f : unwrap_failure) (key mackey iv ct mac : bytes) : Prop :=
  match f with
  | MacMismatch => mac <> hmac_sha256 P mackey (iv ++ ct)%list
  | BadPadding =>
      mac = hmac_sha256 P mackey (iv ++ ct)%list
      /\ exists d, aes_cbc_decrypt P key iv ct = Some d /\ pkcs7_unpad P d = None
  end.

(** What the script prints before [exit(1)] in each case. *)
Definition abort_message (f : unwrap_failure) : list string :=
  match f with
  | MacMismatch => [MAC_ERROR_MASTER]
  | BadPadding => [EmptyString; WRONG_PASSWORD]
  end.

(** The exceptions with which the four parsing lines reject a string. *)
Definition format_errors : list exn :=
  [IndexError; ValueError InvalidLiteralForInt; ValueError NonAsciiString;
   BinasciiError].

(** A part that [base64.b64decode] does not take: it has a character
    outside ASCII, or the decoder refuses it. *)
Definition not_base64 (seg : string) : Prop :=
  Str.all_chars is_ascii seg = false \/ b64decode P seg = None.

(** A string the parsing lines reject when they need [segments] parts:
    the type is not an integer, there is no dot, there are too few
    parts between the bars, or one of them is not base64. *)
Definition malformed (segments : nat) (s : string) : Prop :=
  let parts := Str.split "." s in
  let segs := Str.split "|" (nth 1 parts EmptyString) in
  Str.int (nth 0 parts EmptyString) = None
  \/ (List.length parts < 2)%nat
  \/ (List.length segs < segments)%nat
  \/ exists i, (i < segments)%nat /\ not_base64 (nth i segs EmptyString).


(** The text of a record after the loop over its matches, when the
    routine returned [text m] for the match [m]: at every turn the match
    is replaced by the JSON escape of its text and the text of the user
    identifier is removed. *)
Definition rewritten (userId : string) (text : string -> string)
           (matches : list string) (tempString : string) : string :=
  fold_left (fun t m =>
               Str.replace (Str.replace t m (escape (text m)))
                           (userIdString userId) EmptyString)
            matches tempString.

(** The member values that [decryptBitwardenJSON] treats as records. *)
Definition records_of (members : list (string * json)) : list json :=
  filter is_object (map snd members).

End Script.

(* ================================================================== *)
(** * An executable stand-in for the libraries *)
(* ================================================================== *)

(** To run the script on a concrete export the interface needs an
    instance.  Base64 and PKCS7 below are the real algorithms; the keyed
    functions are short checksums and masks that keep the sizes and the
    failure conditions of the real ones, which is all the script relies on. *)
Module Toy.

Definition byte_of (n : N) : byte :=
  match Byte.of_N (n mod 256) with
  | Some b => b
  | None => x00
  end.

Definition xor (a b : byte) : byte :=
  byte_of (N.lxor (Byte.to_N a) (Byte.to_N b)).

(** ** Base64 *)

Definition sextet (c : ascii) : option N :=
  let n := N_of_ascii c in
  if ((65 <=? n) && (n <=? 90))%N then Some (n - 65)%N
  else if ((97 <=? n) && (n <=? 122))%N then Some (n - 71)%N
  else if ((48 <=? n) && (n <=? 57))%N then Some (n + 4)%N
  else if (n =? 43)%N then Some 62%N
  else if (n =? 47)%N then Some 63%N
  else None.

Fixpoint sextets (s : string) : list N :=
  match s with
  | EmptyString => []
  | String c s' =>
      match sextet c with
      | Some v => v :: sextets s'
      | None => sextets s'
      end
  end.

Fixpoint count_pad (s : string) : nat :=
  match s with
  | EmptyString => O
  | String c s' => if Ascii.eqb c "=" then S (count_pad s') else count_pad s'
  end.

Fixpoint unpack (pads : nat) (v : list N) : option bytes :=
  match v with
  | a :: b :: c :: d :: v' =>
      let n := (((a * 64 + b) * 64 + c) * 64 + d)%N in
      option_map
        (fun t => byte_of (n / 65536) :: byte_of (n / 256) :: byte_of n :: t)
        (unpack pads v')
  | [a; b; c] =>
      let n := ((a * 64 + b) * 64 + c)%N in
      if (1 <=? pads)%nat then Some [byte_of (n / 1024); byte_of (n / 4)] else None
  | [a; b] =>
      if (2 <=? pads)%nat then Some [byte_of ((a * 64 + b) / 16)] else None
  | [_] => None
  | [] => Some []
  end.

(** Characters outside the alphabet are skipped; the padding must make
    up a whole group. *)
Definition b64decode (s : string) : option bytes :=
  unpack (count_pad s) (sextets s).

Definition b64encode (b : bytes) : string := base64_b64encode b.

(** ** Text: the ASCII part of UTF-8 *)

Definition utf8_encode (s : string) : bytes := list_byte_of_string s.

Definition utf8_decode (b : bytes) : option string :=
  if forallb (fun x => (Byte.to_N x <? 128)%N) b
  then Some (string_of_list_byte b)
  else None.

(** ** Keyed functions *)

Definition checksum (data : bytes) : N :=
  fold_left (fun acc x => ((acc * 31 + Byte.to_N x + 7) mod 4294967291)%N) data 0%N.

(** Thirty-two bytes that depend on every byte of [data]. *)
Definition digest (data : bytes) : bytes :=
  let h := checksum data in
  map (fun i => let j := N.of_nat i in
                byte_of (((h + j) * (h + 2 * j + 1)) / 65536))
      (seq 0 32).

Definition hmac_sha256 (key msg : bytes) : bytes := digest (key ++ x00 :: msg)%list.

Definition hkdf_expand_sha256 (info key_material : bytes) : bytes :=
  digest (info ++ x01 :: key_material)%list.

Definition pbkdf2_hmac_sha256 (salt : bytes) (iterations : Z) (key_material : bytes)
  : option bytes :=
  if (0 <? iterations)%Z
  then Some (digest (salt ++ byte_of (Z.to_N iterations) :: key_material)%list)
  else None.

Fixpoint mask (key stream data : bytes) : bytes :=
  match data with
  | [] => []
  | x :: data' =>
      match stream with
      | k :: stream' => xor x k :: mask key stream' data'
      | [] =>
          match key with
          | k :: key' => xor x k :: mask key key' data'
          | [] => x :: mask key [] data'
          end
      end
  end.

(** The sizes AES-256-CBC insists on, and a mask in place of the cipher. *)
Definition aes_cbc_decrypt (key iv ciphertext : bytes) : option bytes :=
  if ((List.length key =? 32) && (List.length iv =? 16)
      && (List.length ciphertext mod 16 =? 0))%nat
  then Some (mask key iv ciphertext)
  else None.

(** The inverse of [aes_cbc_decrypt]: the mask is an involution. *)
Definition aes_cbc_encrypt (key iv plaintext : bytes) : bytes :=
  mask key iv plaintext.

(** ** PKCS7 with 16-byte blocks *)

Definition pkcs7_unpad (data : bytes) : option bytes :=
  let n := List.length data in
  match rev data with
  | [] => None
  | last :: _ =>
      let p := N.to_nat (Byte.to_N last) in
      if ((n mod 16 =? 0) && (1 <=? p) && (p <=? 16)
          && forallb (Byte.eqb last) (skipn (n - p) data))%nat
      then Some (firstn (n - p) data)
      else None
  end.

Definition pkcs7_pad (data : bytes) : bytes :=
  let p := (16 - List.length data mod 16)%nat in
  (data ++ repeat (byte_of (N.of_nat p)) p)%list.

(** ** RSA: a key is its DER bytes, which start with a SEQUENCE tag *)

Definition load_der_private_key (der : bytes) : option bytes :=
  match der with
  | x30 :: _ => Some der
  | _ => None
  end.

Definition rsa_oaep_sha1_decrypt (key ciphertext : bytes) : option bytes :=
  match ciphertext with
  | [] => None
  | _ => Some (mask key [] ciphertext)
  end.

Definition primitives : Primitives :=
  Build_Primitives b64decode utf8_encode utf8_decode pbkdf2_hmac_sha256
                   hkdf_expand_sha256 hmac_sha256 aes_cbc_decrypt pkcs7_unpad
                   bytes load_der_private_key rsa_oaep_sha1_decrypt.

(** What the client does to protect a value: pad, encrypt, authenticate. *)
Definition protect (plaintext key mackey iv : bytes) : string :=
  let ciphertext := aes_cbc_encrypt key iv (pkcs7_pad plaintext) in
  "2." ++ b64encode iv ++ "|" ++ b64encode ciphertext ++ "|"
       ++ b64encode (hmac_sha256 mackey (iv ++ ciphertext)%list).

End Toy.


(* ================================================================== *)
(** * Sample exports *)
(* ================================================================== *)

(** Exports protected with the stand-in primitives.  The account is
    [a@b.c] with password [hunter2] and five KDF iterations; its content
    keys are 32 bytes of [0x41] and 32 of [0x42]; the keys of organization
    [org1] are 32 bytes of [0x43] and 32 of [0x44]. *)
Module Sample.

Definition password : bytes := list_byte_of_string "hunter2".
Definition wrong_password : bytes := list_byte_of_string "hunter3".

Definition iv : bytes := repeat x10 16.
Definition user_enc : bytes := repeat x41 32.
Definition user_mac : bytes := repeat x42 32.
Definition org_enc : bytes := repeat x43 32.
Definition org_mac : bytes := repeat x44 32.
Definition der : bytes := [x30; x82; x01; x02; x03; x04; x05; x06].

(** [user_enc ++ user_mac] under the stretched keys. *)
Definition encKey : string :=
  "2.EBAQEBAQEBAQEBAQEBAQEA==|UVFRUVFRUVFRUVFRUVFRUXL5f4IJjBKZHKMprDO2PUPFTtNV3mPkbvN0+QOECZIUcfp8gQqPEZofoCqvMLU+QJccgQeMMbY8oSarUdZbwEY=|XweuVv6mTvadRe2VPeSMNNyEK9N7I8tzGsJqErphCbE=".

(** The same, authenticated, but ending in sixteen zero bytes instead
    of a PKCS7 padding. *)
Definition encKey_bad_padding : string :=
  "2.EBAQEBAQEBAQEBAQEBAQEA==|UVFRUVFRUVFRUVFRUVFRUXL5f4IJjBKZHKMprDO2PUPFTtNV3mPkbvN0+QOECZIUcfp8gQqPEZofoCqvMLU+QIcMkRecIaYssTa7QcZL0FY=|WMs/syaaDYH1aNxQwzerHpIGee1g1Ei7L6MWiv5x5Vk=".

(** [der] under the content keys. *)
Definition encPrivateKey : string :=
  "2.EBAQEBAQEBAQEBAQEBAQEA==|IJIREhMUFRYYGBgYGBgYGA==|xZNhLvzKl2UzAc6cajgF06FuPArYpXNBD9yqeEUT4a8=".

(** The same with a MAC made under another key. *)
Definition encPrivateKey_bad_mac : string :=
  "2.EBAQEBAQEBAQEBAQEBAQEA==|IJIREhMUFRYYGBgYGBgYGA==|m8PqEThgh67V/CRLcpnA6A82XYWs0/ohSXCXvuUNNFs=".

(** [org_enc ++ org_mac] under the RSA key. *)
Definition encOrgKey : string :=
  "4.c8FCQUBHRkVzwUJBQEdGRXPBQkFAR0ZFc8FCQUBHRkV0xkVGR0BBQnTGRUZHQEFCdMZFRkdAQUJ0xkVGR0BBQg==".

(** The text [Work] under the content keys. *)
Definition name_Work : string :=
  "2.EBAQEBAQEBAQEBAQEBAQEA==|R39iexwcHBwcHBwcHBwcHA==|Qg3ZpHA7BtKdaTQAy5diLvnFkFwn876KVSHsuINPGuY=".

(** The text [Mine] under the content keys. *)
Definition name_Mine : string :=
  "2.EBAQEBAQEBAQEBAQEBAQEA==|XXl+dRwcHBwcHBwcHBwcHA==|276ghGdKLRDz1rmcf2JFKAvu0bSXel1AIwbpzK+SdVg=".

(** The text [Team] under the keys of [org1]. *)
Definition name_Team : string :=
  "2.EBAQEBAQEBAQEBAQEBAQEA==|RHVxfRwcHBwcHBwcHBwcHA==|rv9Pn+8/kOAwgNEhccESYrICUqPzQ5PkNITUJXXFFWY=".

(** The single byte [0xff], which is not UTF-8, under the content keys. *)
Definition field_not_utf8 : string :=
  "2.EBAQEBAQEBAQEBAQEBAQEA==|7x8fHx8fHx8fHx8fHx8fHw==|PsRK0FfdY+lv9XsBhw2TGZ8lqzG3PcRK0FbcYuhu9Ho=".


(** The text of the per-field MAC message itself, under the content keys. *)
Definition field_message : string :=
  "2.EBAQEBAQEBAQEBAQEBAQEA==|VUJCX0IqMF1RUzB0eXQwfi41YSwgNSIpb2ECKDEpJDMSNTMoLyZhLy41YSUkIjM4MTUkJW9KSkpKSkpKSkpKSg==|9GTUQ7MjkwJy4lHBMaEQgPBfzz+vHo7+bd1NvSycDHs=".

(** The text [Work] under the content key, with a MAC made under
    another key. *)
Definition name_Work_bad_mac : string :=
  "2.EBAQEBAQEBAQEBAQEBAQEA==|R39iexwcHBwcHBwcHBwcHA==|jrPY/SJHbJG22wAlSm+Uud4DKE1yl7zhBitQdZm+4wg=".

(** Matched by the pattern of the walker, but with two parts only. *)
Definition field_two_parts : string := "2.AAAA|AAAA=".

(** Four parts where three are expected. *)
Definition four_parts : string := "2.AAAA|AAAA|AAAA|AAAA".

Definition export (encKey encPrivateKey encOrgKeys : json)
           (groups : list (string * json)) : json :=
  JObj ([ ("userEmail", JStr "a@b.c");
          ("kdfIterations", JNum 5);
          ("encKey", encKey);
          ("encPrivateKey", encPrivateKey);
          ("encOrgKeys", encOrgKeys);
          ("userId", JStr "u1") ] ++ groups)%list.

Definition folder_Work : json :=
  JObj [("id", JStr "f1"); ("name", JStr name_Work); ("userId", JStr "u1");
        ("revisionDate", JStr "2021-01-01")].

(** A folder record without any encrypted field. *)
Definition folder_plain : json :=
  JObj [("id", JStr "f2"); ("userId", JStr "u1"); ("revisionDate", JStr "2021-01-02")].

(** An account without RSA key and without organizations. *)
Definition personal (groups : list (string * json)) : json :=
  export (JStr encKey) JNull (JObj []) groups.

(** An account that belongs to [org1]. *)
Definition member (groups : list (string * json)) : json :=
  export (JStr encKey) (JStr encPrivateKey) (JObj [("org1", JStr encOrgKey)]) groups.

(** What the key chain derives for [personal]. *)
Definition masterKey : bytes :=
  Toy.digest (Toy.utf8_encode "a@b.c" ++ x05 :: password)%list.

Definition hash : bytes := Toy.digest (password ++ x01 :: masterKey)%list.

Definition secrets : BitwardenSecrets :=
  {| MasterKey := masterKey;
     MasterPasswordHash := base64_b64encode hash;
     StretchedEncryptionKey := stretched_enc Toy.primitives masterKey;
     StretchedMacKey := stretched_mac Toy.primitives masterKey;
     GeneratedSymmetricKey := (user_enc ++ user_mac)%list;
     GeneratedEncryptionKey := user_enc;
     GeneratedMACKey := user_mac;
     RSAPrivateKey := PyNone |}.

Definition user_keys : key_vars :=
  {| encKey_var := Some user_enc; macKey_var := Some user_mac |}.

Definition org_keys : key_vars :=
  {| encKey_var := Some org_enc; macKey_var := Some org_mac |}.

(** A login of [org1] and, after it, a personal login whose
    organization id is the empty string. *)
Definition cipher_Team : json :=
  JObj [("id", JStr "c1"); ("organizationId", JStr "org1");
        ("userId", JStr "u1"); ("name", JStr name_Team)].

Definition cipher_Mine : json :=
  JObj [("id", JStr "c2"); ("organizationId", JStr EmptyString);
        ("userId", JStr "u1"); ("name", JStr name_Mine)].

Definition vault_two_logins : json :=
  member [("ciphers_u1", JObj [("c1", cipher_Team); ("c2", cipher_Mine)])].

Definition vault_one_login : json :=
  member [("ciphers_u1", JObj [("c2", cipher_Mine)])].

(** A folder whose name was protected under other keys than the user's,
    next to a field and a folder that are in order. *)
Definition folder_foreign : json :=
  JObj [("id", JStr "f3"); ("name", JStr name_Team); ("userId", JStr "u1");
        ("note", JStr name_Work)].

(** A folder whose user identifier comes last. *)
Definition folder_userId_last : json :=
  JObj [("id", JStr "f4"); ("name", JStr name_Work); ("userId", JStr "u1")].

End Sample.

(* ================================================================== *)
(** * The rest of the script: reading the file, printing the result *)
(* ================================================================== *)

(** [json.dumps(v, indent=2, ensure_ascii=False)] *)
Module Pretty.

(** Without [ensure_ascii] only the quote, the backslash and the
    control characters are escaped. *)
Definition escape_char (c : ascii) : string :=
  let n := nat_of_ascii c in
  if Ascii.eqb c dq then String "\" (String dq EmptyString)
  else if Ascii.eqb c "\" then "\\"
  else if (n =? 10)%nat then "\n"
  else if (n =? 13)%nat then "\r"
  else if (n =? 9)%nat then "\t"
  else if (n =? 8)%nat then "\b"
  else if (n =? 12)%nat then "\f"
  else if (n <? 32)%nat
  then "\u00" ++ String (hex_digit (n / 16)) (String (hex_digit (n mod 16)) EmptyString)
  else String c EmptyString.

Fixpoint escape (s : string) : string :=
  match s with
  | EmptyString => EmptyString
  | String c s' => escape_char c ++ escape s'
  end.

Definition encode_str (s : string) : string :=
  String dq (escape s ++ String dq EmptyString).

Fixpoint spaces (n : nat) : string :=
  match n with
  | O => EmptyString
  | S n' => String " " (spaces n')
  end.

(** A line break and the indentation of a nesting level. *)
Definition newline_indent (level : nat) : string :=
  String "010" (spaces (2 * level)).

Fixpoint dumps (level : nat) (v : json) {struct v} : string :=
  match v with
  | JNull => "null"
  | JBool true => "true"
  | JBool false => "false"
  | JNum n => dumps_int n
  | JStr s => encode_str s
  | JArr [] => "[]"
  | JArr items =>
      "[" ++ newline_indent (S level)
          ++ join ("," ++ newline_indent (S level)) (map (dumps (S level)) items)
          ++ newline_indent level ++ "]"
  | JObj [] => "{}"
  | JObj members =>
      "{" ++ newline_indent (S level)
          ++ join ("," ++ newline_indent (S level))
               (map (fun kv : string * json =>
                       let (k, x) := kv in
                       encode_str k ++ ": " ++ dumps (S level) x)
                    members)
          ++ newline_indent level ++ "}"
  end.

(** How [dumps] writes one member of an object. *)
Definition dumps_member (level : nat) (kv : string * json) : string :=
  let (k, x) := kv in encode_str k ++ ": " ++ dumps level x.

(** What may follow an integer literal. *)
Definition ends_value (s : string) : bool :=
  Str.stops is_numchar s && negb (starts_fraction s).

(** Parsing the indented text of [v] gives [v] back. *)
Definition roundtrips (v : json) : Prop :=
  wf v = true ->
  forall level fuel rest, (need v <= fuel)%nat -> ends_value rest = true ->
  parse_value fuel (dumps level v ++ rest) = Some (v, rest).

End Pretty.

(** The dictionary [decryptedEntries] as a JSON value. *)
Definition entries_json (decryptedEntries : list (string * list json)) : json :=
  JObj (map (fun gl : string * list json => let (g, l) := gl in (g, JArr l))
            decryptedEntries).

(** The text of an object up to the value of one of its members, and
    from the end of that value on. *)
Definition before_value (before : list (string * json)) (key : string) : string :=
  "{" ++ fold_right (fun kv acc => Json.dumps_member kv ++ ", " ++ acc)
                    (encode_str key ++ ": ") before.

Definition after_value (after : list (string * json)) : string :=
  fold_right (fun kv acc => ", " ++ Json.dumps_member kv ++ acc) "}" after.

(** The four names a group can have in the output. *)
Definition group_names : list string :=
  ["folders"; "items"; "organizations"; "collections"].

(** ** What a trace may look like *)

(** Every AES call comes directly after an HMAC over exactly its IV and
    ciphertext; [prev] is the message of the HMAC just before, if any. *)
Fixpoint authenticated_after (prev : option bytes) (t : list event) : bool :=
  match t with
  | [] => true
  | HmacSha256 _ msg :: t' => authenticated_after (Some msg) t'
  | AesCbcDecrypt _ iv ct :: t' =>
      match prev with
      | Some msg => bytes_eqb msg (iv ++ ct)%list
      | None => false
      end && authenticated_after None t'
  | _ :: t' => authenticated_after None t'
  end.

Definition authenticated (t : list event) : bool := authenticated_after None t.

(** A computation that leaves no event at all and does not call [exit]. *)
Definition silent {A} (m : M A) : Prop :=
  trace m = [] /\ forall code, outcome m <> Exit code.

(** A computation that prints nothing and does not call [exit]. *)
Definition quiet {A} (m : M A) : Prop :=
  stdout (trace m) = [] /\ forall code, outcome m <> Exit code.

(** A computation that is quiet, or else stops with [exit(1)] after one of
    the two messages of the master unwrap. *)
Definition exits_only_at_unwrap {A} (m : M A) : Prop :=
  quiet m
  \/ (outcome m = Exit 1
      /\ (stdout (trace m) = [MAC_ERROR_MASTER]
          \/ stdout (trace m) = [EmptyString; WRONG_PASSWORD])).

Section Program.

Variable P : Primitives.

(** What [open] and [json.load] give for a path; [None] when either
    raises, whatever the exception: the bare [except] of the script
    does not look at it. *)
Variable json_load : string -> option json.

(** [decryptBitwardenJSON(inputfile)], from the path to the text it
    returns.  The arguments of the call of [getBitwardenSecrets] are
    evaluated in order: [datafile["userEmail"]] first, then
    [getpass.getpass()], whose answer, encoded, is [password], then the
    three other members.  So the first member is looked up before the
    prompt; [decryptBitwardenJSON] then reads the four of them, the
    first one for the second time and with the same result. *)
Definition decryptBitwardenJSON_inputfile (inputfile : string) (password : bytes)
  : M string :=
  datafile <- match json_load inputfile with
              | Some datafile => ret datafile
              | None =>
                  print ("ERROR: " ++ inputfile ++ " not found.") ;;; exit 1
              end ;;
  getitem datafile "userEmail" ;;;
  emit Getpass ;;;
  decryptedEntries <- decryptBitwardenJSON P datafile password ;;
  ret (Pretty.dumps 0 (entries_json decryptedEntries)).

(** [main()], with [sys.argv] as [argv]. *)
Definition main (argv : list string) (password : bytes) : M unit :=
  let inputfile :=
    if (List.length argv =? 2)%nat then nth 1 argv "data.json" else "data.json" in
  decryptedJSON <- decryptBitwardenJSON_inputfile inputfile password ;;
  print decryptedJSON.

End Program.

(* ================================================================== *)
(** * Facts about the runtime model *)
(* ================================================================== *)

(** ** Strings *)

Lemma append_assoc (a b c : string) : (a ++ b) ++ c = a ++ (b ++ c).
Proof. induction a as [|x a IH]; simpl; [reflexivity | now rewrite IH]. Qed.

Lemma append_nil_r (a : string) : a ++ EmptyString = a.
Proof. induction a as [|x a IH]; simpl; [reflexivity | now rewrite IH]. Qed.

Lemma length_append (a b : string) :
  String.length (a ++ b) = (String.length a + String.length b)%nat.
Proof. induction a as [|x a IH]; simpl; [reflexivity | now rewrite IH]. Qed.

Lemma take_append (a b : string) : Str.take (String.length a) (a ++ b) = a.
Proof. induction a as [|x a IH]; simpl; [now destruct b | now rewrite IH]. Qed.

Lemma drop_append (a b : string) : Str.drop (String.length a) (a ++ b) = b.
Proof. induction a as [|x a IH]; simpl; [reflexivity | exact IH]. Qed.

Lemma run_length_append cls a b :
  Str.all_chars cls a = true -> Str.stops cls b = true ->
  Re.run_length cls (a ++ b) = String.length a.
Proof.
  intros Ha Hb. induction a as [|x a IH]; simpl in *.
  - destruct b as [|y b]; simpl in *; [reflexivity|].
    now destruct (cls y).
  - apply andb_true_iff in Ha as [Hx Ha]. rewrite Hx. now rewrite IH.
Qed.

(** ** String literals *)

Lemma scan_string_escape_char (c : ascii) (tail : string) :
  scan_string (escape_char c ++ tail) = cons_char c (scan_string tail).
Proof.
  destruct c as [[|] [|] [|] [|] [|] [|] [|] [|]]; reflexivity.
Qed.

Lemma scan_string_escape (s rest : string) :
  scan_string (escape s ++ String dq rest) = Some (s, rest).
Proof.
  induction s as [|c s IH]; simpl.
  - reflexivity.
  - rewrite append_assoc, scan_string_escape_char, IH. reflexivity.
Qed.

Lemma escape_char_length (c : ascii) : (1 <= String.length (escape_char c))%nat.
Proof.
  destruct c as [[|] [|] [|] [|] [|] [|] [|] [|]]; vm_compute; lia.
Qed.

(** ** Integer literals *)

Lemma numchars_uint (d : Decimal.uint) :
  Str.all_chars is_numchar (NilEmpty.string_of_uint d) = true.
Proof. induction d; simpl; auto. Qed.

Lemma numchars_dumps_int (z : Z) : Str.all_chars is_numchar (dumps_int z) = true.
Proof.
  unfold dumps_int, NilZero.string_of_int, NilZero.string_of_uint.
  destruct (Z.to_int z) as [d|d]; destruct d; simpl; auto using numchars_uint.
Qed.

Lemma to_int_not_nil (z : Z) :
  Z.to_int z <> Decimal.Pos Decimal.Nil /\ Z.to_int z <> Decimal.Neg Decimal.Nil.
Proof.
  destruct z as [|p|p]; simpl; split; try discriminate;
    intros [= H]; now apply (Unsigned.to_uint_nonnil p).
Qed.

Lemma int_of_dumps_int (z : Z) :
  option_map Z.of_int (NilZero.int_of_string (dumps_int z)) = Some z.
Proof.
  unfold dumps_int. destruct (to_int_not_nil z) as [H1 H2].
  rewrite NilZero.isi by assumption. simpl. now rewrite DecimalZ.of_to.
Qed.

Lemma scan_number_dumps_int (z : Z) (rest : string) :
  Str.stops is_numchar rest = true -> starts_fraction rest = false ->
  scan_number (dumps_int z ++ rest) = Some (JNum z, rest).
Proof.
  intros Hstop Hfrac. unfold scan_number.
  rewrite (run_length_append _ _ _ (numchars_dumps_int z) Hstop).
  rewrite take_append, drop_append.
  pose proof (int_of_dumps_int z) as H.
  destruct (NilZero.int_of_string (dumps_int z)) as [d|]; [|discriminate].
  simpl in H. injection H as ->.
  now rewrite String.eqb_refl, Hfrac.
Qed.

(** ** Values *)

Ltac each_char c := destruct c as [[|] [|] [|] [|] [|] [|] [|] [|]].

Lemma closes_stops (rest : string) :
  closes rest = true ->
  Str.stops is_numchar rest = true /\ starts_fraction rest = false.
Proof.
  destruct rest as [|c rest]; [now split|].
  each_char c; simpl; intros H; try discriminate H; now split.
Qed.

Lemma numchar_value_start (c : ascii) (s : string) :
  is_numchar c = true -> value_starts (String c s) = true.
Proof. each_char c; simpl; intros H; try discriminate H; reflexivity. Qed.

Lemma parse_value_numchar (fuel : nat) (c : ascii) (s : string) :
  is_numchar c = true ->
  parse_value (S fuel) (String c s) = scan_number (String c s).
Proof. each_char c; simpl; intros H; try discriminate H; reflexivity. Qed.

Lemma dumps_int_head (z : Z) :
  exists c s, dumps_int z = String c s /\ is_numchar c = true.
Proof.
  pose proof (numchars_dumps_int z) as H.
  destruct (dumps_int z) as [|c s] eqn:E.
  - exfalso. unfold dumps_int, NilZero.string_of_int, NilZero.string_of_uint in E.
    destruct (Z.to_int z) as [d|d]; [|discriminate].
    destruct d; simpl in E; discriminate.
  - simpl in H. apply andb_true_iff in H as [H _]. now exists c, s.
Qed.

Lemma value_starts_append (a b : string) :
  value_starts a = true -> value_starts (a ++ b) = true.
Proof. destruct a; simpl; [discriminate | trivial]. Qed.

Lemma dumps_value_starts (v : json) : value_starts (dumps v) = true.
Proof.
  destruct v as [|[|]|n|s|items|members]; try reflexivity.
  destruct (dumps_int_head n) as (c & s & E & Hc). simpl. rewrite E.
  now apply numchar_value_start.
Qed.

Lemma skip_ws_value (s : string) : value_starts s = true -> skip_ws s = s.
Proof.
  destruct s as [|c s]; simpl; [discriminate|].
  destruct (is_ws c); simpl; [discriminate | reflexivity].
Qed.

Lemma skip_ws_closes (s : string) : closes s = true -> skip_ws s = s.
Proof.
  destruct s as [|c s]; [reflexivity|].
  each_char c; simpl; intros H; try discriminate H; reflexivity.
Qed.

Lemma parse_value_array (fuel : nat) (s : string) :
  value_starts s = true ->
  parse_value (S fuel) (String "[" s) =
  match parse_items fuel s with
  | Some (items, rest) => Some (JArr items, rest)
  | None => None
  end.
Proof.
  intros H. cbn [parse_value]. rewrite (skip_ws_value _ H).
  destruct s as [|c s]; [discriminate|].
  each_char c; simpl in H; try discriminate H; reflexivity.
Qed.

Lemma parse_value_object (fuel : nat) (s : string) :
  value_starts s = true ->
  parse_value (S fuel) (String "{" s) =
  match parse_members fuel s with
  | Some (pairs, rest) => Some (JObj (dict_of_pairs pairs), rest)
  | None => None
  end.
Proof.
  intros H. cbn [parse_value]. rewrite (skip_ws_value _ H).
  destruct s as [|c s]; [discriminate|].
  each_char c; simpl in H; try discriminate H; reflexivity.
Qed.

Lemma join_value_starts (sep : string) (x : json) (l : list json) :
  value_starts (join sep (map dumps (x :: l))) = true.
Proof.
  simpl. destruct (map dumps l).
  - apply dumps_value_starts.
  - apply value_starts_append, dumps_value_starts.
Qed.

(** ** Objects keep their members *)

Lemma distinct_fresh (k : string) (a b : list string) :
  distinct (a ++ k :: b)%list = true -> existsb (String.eqb k) a = false.
Proof.
  induction a as [|x a IH]; simpl; [reflexivity|].
  intros H. apply andb_true_iff in H as [Hx Ha].
  rewrite (IH Ha), orb_false_r.
  apply negb_true_iff in Hx. rewrite existsb_app in Hx.
  apply orb_false_iff in Hx as [_ Hx]. simpl in Hx.
  apply orb_false_iff in Hx as [Hx _]. now rewrite String.eqb_sym.
Qed.

Lemma assoc_set_fresh {V} (k : string) (v : V) (d : list (string * V)) :
  existsb (String.eqb k) (map fst d) = false ->
  assoc_set k v d = (d ++ [(k, v)])%list.
Proof.
  induction d as [|[k' v'] d IH]; simpl; [reflexivity|].
  intros H. apply orb_false_iff in H as [Hk Hd].
  rewrite String.eqb_sym, Hk. now rewrite IH.
Qed.

Lemma dict_of_pairs_app {V} (l acc : list (string * V)) :
  distinct (map fst (acc ++ l)%list) = true ->
  fold_left (fun d kv => assoc_set (fst kv) (snd kv) d) l acc = (acc ++ l)%list.
Proof.
  revert acc. induction l as [|[k v] l IH]; intros acc H; simpl.
  - now rewrite List.app_nil_r.
  - rewrite assoc_set_fresh.
    + rewrite IH; rewrite <- List.app_assoc; [reflexivity | exact H].
    + rewrite map_app in H. simpl in H. now apply distinct_fresh in H.
Qed.

Lemma dict_of_pairs_distinct {V} (l : list (string * V)) :
  distinct (map fst l) = true -> dict_of_pairs l = l.
Proof. intros H. unfold dict_of_pairs. now rewrite dict_of_pairs_app. Qed.

(** ** [loads] undoes [dumps] *)

Lemma join_cons (sep a b : string) (l : list string) :
  join sep (a :: b :: l) = a ++ sep ++ join sep (b :: l).
Proof. reflexivity. Qed.

Lemma comma_space_append (s : string) : ", " ++ s = String "," (String " " s).
Proof. reflexivity. Qed.

Lemma skip_ws_comma (s : string) : skip_ws (String "," s) = String "," s.
Proof. reflexivity. Qed.

Lemma skip_ws_space (s : string) : skip_ws (String " " s) = skip_ws s.
Proof. reflexivity. Qed.

Lemma parse_items_dumps (l : list json) (x : json) :
  Forall roundtrips (x :: l) -> forallb wf (x :: l) = true ->
  forall fuel rest, (items_need (x :: l) <= fuel)%nat ->
  parse_items fuel (join ", " (map dumps (x :: l)) ++ String "]" rest)
  = Some (x :: l, rest).
Proof.
  revert x. induction l as [|y l IH]; intros x HF Hwf fuel rest Hfuel;
    inversion HF as [|? ? Hx HF']; subst;
    cbn [forallb] in Hwf; apply andb_true_iff in Hwf as [Hwx Hwl];
    unfold items_need in Hfuel; cbn [fold_right] in Hfuel;
    (destruct fuel as [|fuel]; [lia|]); cbn [parse_items].
  - cbn [map join]. rewrite (Hx Hwx) by first [lia | reflexivity].
    reflexivity.
  - cbn [map]. rewrite join_cons, !append_assoc.
    rewrite (Hx Hwx) by first [lia | reflexivity].
    change (dumps y :: map dumps l) with (map dumps (y :: l)).
    pose proof (join_value_starts ", " y l) as HJ.
    specialize (IH y HF' Hwl fuel rest).
    set (J := join ", " (map dumps (y :: l))) in *.
    rewrite comma_space_append, skip_ws_comma. cbv beta iota.
    rewrite skip_ws_space, skip_ws_value by now apply value_starts_append.
    rewrite IH by (unfold items_need; cbn [fold_right]; lia).
    reflexivity.
Qed.

Lemma member_shape (k : string) (x : json) (tail : string) :
  dumps_member (k, x) ++ tail
  = String dq (escape k ++ String dq (String ":" (String " " (dumps x ++ tail)))).
Proof.
  unfold dumps_member, encode_str. cbn [append].
  now rewrite !append_assoc.
Qed.

Lemma skip_ws_colon (s : string) : skip_ws (String ":" s) = String ":" s.
Proof. reflexivity. Qed.

Lemma member_value_starts (kv : string * json) (tail : string) :
  value_starts (dumps_member kv ++ tail) = true.
Proof. destruct kv as [k x]. rewrite member_shape. reflexivity. Qed.

Lemma join_members_value_starts (kv : string * json) (l : list (string * json))
      (tail : string) :
  value_starts (join ", " (map dumps_member (kv :: l)) ++ tail) = true.
Proof.
  cbn [map join]. destruct (map dumps_member l).
  - apply member_value_starts.
  - rewrite append_assoc. apply member_value_starts.
Qed.

Lemma parse_members_dumps (l : list (string * json)) (kv : string * json) :
  Forall (fun kv => roundtrips (snd kv)) (kv :: l) ->
  forallb (fun kv : string * json => let (_, x) := kv in wf x) (kv :: l) = true ->
  forall fuel rest, (members_need (kv :: l) <= fuel)%nat ->
  parse_members fuel (join ", " (map dumps_member (kv :: l)) ++ String "}" rest)
  = Some (kv :: l, rest).
Proof.
  revert kv. induction l as [|kv' l IH]; intros [k x] HF Hwf fuel rest Hfuel;
    inversion HF as [|? ? Hx HF']; subst;
    cbn [forallb] in Hwf; apply andb_true_iff in Hwf as [Hwx Hwl];
    unfold members_need in Hfuel; cbn [fold_right] in Hfuel;
    (destruct fuel as [|fuel]; [lia|]); cbn [snd] in Hx.
  - cbn [map join]. rewrite member_shape. cbn [parse_members].
    rewrite Ascii.eqb_refl. cbn [negb]. rewrite scan_string_escape.
    rewrite skip_ws_colon. cbv beta iota.
    rewrite skip_ws_space, skip_ws_value
      by apply value_starts_append, dumps_value_starts.
    rewrite (Hx Hwx) by first [lia | reflexivity].
    reflexivity.
  - cbn [map]. rewrite join_cons, !append_assoc, member_shape.
    cbn [parse_members].
    rewrite Ascii.eqb_refl. cbn [negb]. rewrite scan_string_escape.
    rewrite skip_ws_colon. cbv beta iota.
    rewrite skip_ws_space, skip_ws_value
      by apply value_starts_append, dumps_value_starts.
    rewrite (Hx Hwx) by first [lia | reflexivity].
    change (dumps_member kv' :: map dumps_member l)
      with (map dumps_member (kv' :: l)).
    pose proof (join_members_value_starts kv' l (String "}" rest)) as HJ.
    specialize (IH kv' HF' Hwl fuel rest).
    set (J := join ", " (map dumps_member (kv' :: l))) in *.
    rewrite comma_space_append, skip_ws_comma. cbv beta iota.
    rewrite skip_ws_space, skip_ws_value by exact HJ.
    rewrite IH by (unfold members_need; cbn [fold_right]; lia).
    reflexivity.
Qed.

Lemma parse_value_dumps (v : json) : roundtrips v.
Proof.
  induction v as [|b|n|s|items IH|members IH] using json_induction;
    intros Hwf fuel rest Hfuel Hrest;
    (destruct fuel as [|fuel]; [simpl in Hfuel; lia|]).
  - reflexivity.
  - destruct b; reflexivity.
  - destruct (closes_stops _ Hrest) as [Hstop Hfrac].
    destruct (dumps_int_head n) as (c & s & E & Hc).
    cbn [dumps]. rewrite <- (scan_number_dumps_int n rest Hstop Hfrac).
    rewrite E. cbn [append]. now apply parse_value_numchar.
  - cbn [dumps]. unfold encode_str. cbn [append]. rewrite append_assoc.
    cbn [parse_value append]. rewrite Ascii.eqb_refl.
    now rewrite scan_string_escape.
  - destruct items as [|x l]; [reflexivity|].
    cbn [dumps need] in *. cbn [append]. rewrite append_assoc.
    rewrite parse_value_array
      by apply value_starts_append, join_value_starts.
    cbn [append].
    rewrite (parse_items_dumps l x IH Hwf) by (unfold items_need; lia).
    reflexivity.
  - destruct members as [|kv l]; [reflexivity|].
    cbn [wf] in Hwf. apply andb_true_iff in Hwf as [Hkeys Hwf].
    cbn [dumps need] in *. cbn [append]. rewrite append_assoc.
    change (fun kv0 : string * json => let (k, x) := kv0 in encode_str k ++ ": " ++ dumps x)
      with dumps_member.
    rewrite parse_value_object by apply join_members_value_starts.
    cbn [append].
    rewrite (parse_members_dumps l kv IH Hwf) by (unfold members_need; lia).
    now rewrite dict_of_pairs_distinct.
Qed.

Lemma join_length_cons (sep a b : string) (l : list string) :
  String.length (join sep (a :: b :: l))
  = (String.length a + String.length sep + String.length (join sep (b :: l)))%nat.
Proof. rewrite join_cons, !length_append. lia. Qed.

Lemma items_need_bound (l : list json) (x : json) :
  Forall (fun v => (need v <= 2 * String.length (dumps v))%nat) (x :: l) ->
  (items_need (x :: l) <= 2 * String.length (join ", " (map dumps (x :: l))) + 1)%nat.
Proof.
  revert x. induction l as [|y l IH]; intros x HF;
    inversion HF as [|? ? Hx HF']; subst.
  - unfold items_need. cbn [fold_right map join]. lia.
  - specialize (IH y HF'). cbn [map] in *. rewrite join_length_cons.
    set (J := join ", " (dumps y :: map dumps l)) in *.
    unfold items_need in *. cbn [fold_right] in *.
    change (String.length ", ") with 2%nat. lia.
Qed.

Lemma dumps_member_length (k : string) (x : json) :
  (String.length (dumps x) <= String.length (dumps_member (k, x)))%nat.
Proof. unfold dumps_member. rewrite !length_append. lia. Qed.

Lemma members_need_bound (l : list (string * json)) (kv : string * json) :
  Forall (fun kv : string * json =>
            (need (snd kv) <= 2 * String.length (dumps (snd kv)))%nat) (kv :: l) ->
  (members_need (kv :: l)
   <= 2 * String.length (join ", " (map dumps_member (kv :: l))) + 1)%nat.
Proof.
  revert kv. induction l as [|kv' l IH]; intros [k x] HF;
    inversion HF as [|? ? Hx HF']; subst; cbn [snd] in Hx;
    pose proof (dumps_member_length k x) as Hk.
  - unfold members_need. cbn [fold_right map join]. lia.
  - specialize (IH kv' HF'). cbn [map] in *. rewrite join_length_cons.
    set (J := join ", " (dumps_member kv' :: map dumps_member l)) in *.
    unfold members_need in *. cbn [fold_right] in *.
    change (String.length ", ") with 2%nat.
    destruct kv' as [k' x']. lia.
Qed.

Lemma need_bound (v : json) : (need v <= 2 * String.length (dumps v))%nat.
Proof.
  induction v as [|b|n|s|items IH|members IH] using json_induction.
  - simpl. lia.
  - destruct b; simpl; lia.
  - destruct (dumps_int_head n) as (c & s & E & _). cbn [dumps need].
    rewrite E. simpl. lia.
  - simpl. lia.
  - destruct items as [|x l]; [simpl; lia|].
    pose proof (items_need_bound l x IH) as H. unfold items_need in H.
    cbn [dumps need].
    set (J := join ", " (map dumps (x :: l))) in *.
    cbn [append String.length]. rewrite length_append.
    change (String.length "]") with 1%nat. lia.
  - destruct members as [|kv l]; [simpl; lia|].
    pose proof (members_need_bound l kv IH) as H. unfold members_need in H.
    cbn [dumps need].
    change (fun kv0 : string * json => let (k, x) := kv0 in encode_str k ++ ": " ++ dumps x)
      with dumps_member.
    set (J := join ", " (map dumps_member (kv :: l))) in *.
    cbn [append String.length]. rewrite length_append.
    change (String.length "}") with 1%nat. lia.
Qed.

(** [json.loads(json.dumps(v))] gives [v] back. *)
Lemma loads_dumps (v : json) : wf v = true -> loads (dumps v) = Some v.
Proof.
  intros Hwf. unfold loads.
  rewrite skip_ws_value by apply dumps_value_starts.
  pose proof (parse_value_dumps v Hwf (2 * String.length (dumps v) + 2)
                                EmptyString) as H.
  rewrite append_nil_r in H. rewrite H; [reflexivity | | reflexivity].
  pose proof (need_bound v). lia.
Qed.

Lemma copy_wf (v : json) : wf v = true -> copy v = ret v.
Proof. intros H. unfold copy. now rewrite loads_dumps. Qed.

(** ** The monad *)

Lemma bind_ret_l {A B} (a : A) (f : A -> M B) : bind (ret a) f = f a.
Proof. unfold bind, ret. now destruct (f a). Qed.

Lemma bind_ret_r {A} (m : M A) : bind m ret = m.
Proof.
  destruct m as [t [a|e|c]]; simpl; [|reflexivity|reflexivity].
  now rewrite List.app_nil_r.
Qed.

Lemma bind_raise {A B} (e : exn) (f : A -> M B) : bind (raise e) f = raise e.
Proof. reflexivity. Qed.

Lemma bind_assoc {A B C} (m : M A) (f : A -> M B) (g : B -> M C) :
  bind (bind m f) g = bind m (fun a => bind (f a) g).
Proof.
  destruct m as [t [a|e|c]]; simpl; try reflexivity.
  destruct (f a) as [t1 [b|e|c]]; simpl; try reflexivity.
  destruct (g b) as [t2 r]. now rewrite List.app_assoc.
Qed.

Lemma bind_ext {A B} (m : M A) (f g : A -> M B) :
  (forall a, f a = g a) -> bind m f = bind m g.
Proof. intros H. destruct m as [t [a|e|c]]; simpl; [now rewrite H | reflexivity..]. Qed.

Lemma for_each_app {A S} (xs ys : list A) (body : S -> A -> M S) (acc : S) :
  for_each (xs ++ ys)%list body acc = bind (for_each xs body acc) (for_each ys body).
Proof.
  revert acc. induction xs as [|x xs IH]; intros acc; cbn [for_each app].
  - now rewrite bind_ret_l.
  - rewrite bind_assoc. apply bind_ext. intros a. apply IH.
Qed.

Lemma trace_bind {A B} (m : M A) (f : A -> M B) :
  trace (bind m f)
  = match outcome m with
    | Ret a => (trace m ++ trace (f a))%list
    | _ => trace m
    end.
Proof. destruct m as [t [a|e|c]]; cbn; [|reflexivity..]. now destruct (f a). Qed.

Lemma outcome_bind {A B} (m : M A) (f : A -> M B) :
  outcome (bind m f)
  = match outcome m with
    | Ret a => outcome (f a)
    | Raise e => Raise e
    | Exit c => Exit c
    end.
Proof. destruct m as [t [a|e|c]]; cbn; [|reflexivity..]. now destruct (f a). Qed.

Lemma trace_try_except {A} (m h : M A) :
  trace (try_except m h)
  = match outcome m with
    | Raise _ => (trace m ++ trace h)%list
    | _ => trace m
    end.
Proof. destruct m as [t [a|e|c]]; cbn; try reflexivity. now destruct h. Qed.

Lemma outcome_try_except {A} (m h : M A) :
  outcome (try_except m h)
  = match outcome m with
    | Raise _ => outcome h
    | r => r
    end.
Proof. destruct m as [t [a|e|c]]; cbn; try reflexivity. now destruct h. Qed.

Lemma outcome_bind_ret {A B} (m : M A) (f : A -> M B) (b : B) :
  outcome (bind m f) = Ret b ->
  exists a, outcome m = Ret a /\ outcome (f a) = Ret b.
Proof.
  rewrite outcome_bind. destruct (outcome m) as [a|e|c]; try discriminate.
  intros H. now exists a.
Qed.

Lemma bytes_eqb_eq (a b : bytes) : bytes_eqb a b = true <-> a = b.
Proof.
  revert b. induction a as [|x a IH]; destruct b as [|y b]; simpl;
    try (split; discriminate); [tauto|].
  rewrite andb_true_iff, IH. split.
  - intros [Hx ->]. now rewrite (Byte.byte_dec_bl _ _ Hx).
  - intros [= -> ->]. split; [now apply Byte.byte_dec_lb | reflexivity].
Qed.

Lemma bytes_eqb_refl (a : bytes) : bytes_eqb a a = true.
Proof. now apply bytes_eqb_eq. Qed.

(* ================================================================== *)
(** * The decryption routines *)
(* ================================================================== *)

Section Routines.

Variable P : Primitives.

Lemma symmetric_mismatch cs iv ct mac key mackey :
  parse_symmetric P cs = ret (iv, ct, mac) -> truthy cs = true ->
  mac <> hmac_sha256 P mackey (iv ++ ct)%list ->
  let h := HmacSha256 mackey (iv ++ ct)%list in
  decryptMasterEncryptionKey P cs key mackey
  = ([h; Print MAC_ERROR_MASTER], Exit 1)
  /\ decryptRSAPrivateKey P cs key mackey = ([h], Ret (PyStr MAC_ERROR_RSA))
  /\ decryptCipherString P cs key mackey = ([h], Ret (PyStr MAC_ERROR_FIELD)).
Proof.
  intros Hp Ht Hmac h.
  assert (E : bytes_eqb mac (hmac_sha256 P mackey (iv ++ ct)%list) = false).
  { destruct (bytes_eqb _ _) eqn:E; [|reflexivity].
    now apply bytes_eqb_eq in E. }
  unfold decryptMasterEncryptionKey, decryptRSAPrivateKey, decryptCipherString, HMAC.
  rewrite Ht, Hp, !bind_ret_l. cbn. rewrite E. now cbn.
Qed.

Lemma symmetric_match cs iv ct key mackey d :
  parse_symmetric P cs = ret (iv, ct, hmac_sha256 P mackey (iv ++ ct)%list) ->
  truthy cs = true ->
  aes_cbc_decrypt P key iv ct = Some d ->
  let t := [HmacSha256 mackey (iv ++ ct)%list; AesCbcDecrypt key iv ct;
            Pkcs7Unpad d] in
  match pkcs7_unpad P d with
  | Some p =>
      decryptMasterEncryptionKey P cs key mackey
      = (t, Ret (p, slice 0 32 p, slice 32 64 p))
      /\ decryptRSAPrivateKey P cs key mackey = (t, Ret (PyBytes p))
      /\ decryptCipherString P cs key mackey
         = (t, match utf8_decode P p with
               | Some text => Ret (PyStr text)
               | None => Raise UnicodeDecodeError
               end)
  | None =>
      decryptMasterEncryptionKey P cs key mackey
      = ((t ++ [Print EmptyString; Print WRONG_PASSWORD])%list, Exit 1)
      /\ decryptRSAPrivateKey P cs key mackey
         = (t, Raise (ValueError InvalidPaddingBytes))
      /\ decryptCipherString P cs key mackey
         = (t, Raise (ValueError InvalidPaddingBytes))
  end.
Proof.
  intros Hp Ht Haes t.
  unfold decryptMasterEncryptionKey, decryptRSAPrivateKey, decryptCipherString,
    HMAC, AES_CBC, unpad.
  rewrite Ht, Hp, !bind_ret_l. cbn.
  rewrite bytes_eqb_refl, Haes. cbn.
  destruct (pkcs7_unpad P d) as [p|]; cbn; [|auto].
  destruct (utf8_decode P p); cbn; auto.
Qed.

End Routines.

(* ================================================================== *)
(** * The key chain and the pipeline *)
(* ================================================================== *)

Section Pipeline.

Variable P : Primitives.

(** A string that the four parsing lines accept is not empty. *)
Lemma parse_symmetric_truthy cs r :
  parse_symmetric P cs = ret r -> truthy cs = true.
Proof.
  destruct cs as [| | |s| |]; try discriminate.
  destruct s; [discriminate | reflexivity].
Qed.

Lemma getBitwardenSecrets_unfold email password kdf encKey epk salt n mk mph :
  bytes_utf8 P email = ret salt ->
  iterations_of kdf = ret n ->
  pbkdf2_hmac_sha256 P salt n password = Some mk ->
  pbkdf2_hmac_sha256 P password 1 mk = Some mph ->
  getBitwardenSecrets P email password kdf encKey epk =
  ('(sym, enc, mac) <-
     decryptMasterEncryptionKey P encKey (stretched_enc P mk) (stretched_mac P mk) ;;
   rsa <- decryptRSAPrivateKey P epk enc mac ;;
   ret {| MasterKey := mk;
          MasterPasswordHash := base64_b64encode mph;
          StretchedEncryptionKey := stretched_enc P mk;
          StretchedMacKey := stretched_mac P mk;
          GeneratedSymmetricKey := sym;
          GeneratedEncryptionKey := enc;
          GeneratedMACKey := mac;
          RSAPrivateKey := rsa |}).
Proof.
  intros Hs Hn Hk Hh. unfold getBitwardenSecrets, PBKDF2.
  rewrite Hs, bind_ret_l, Hn, bind_ret_l, Hk. cbn [lift].
  rewrite bind_ret_l, Hh. cbn [lift]. now rewrite bind_ret_l.
Qed.

Lemma decryptBitwardenJSON_unfold datafile password encKey epk mk mph :
  reaches_unwrap P datafile password encKey epk mk mph ->
  decryptBitwardenJSON P datafile password =
  (secrets <-
     ('(sym, enc, mac) <-
        decryptMasterEncryptionKey P encKey (stretched_enc P mk)
                                   (stretched_mac P mk) ;;
      rsa <- decryptRSAPrivateKey P epk enc mac ;;
      ret {| MasterKey := mk;
             MasterPasswordHash := base64_b64encode mph;
             StretchedEncryptionKey := stretched_enc P mk;
             StretchedMacKey := stretched_mac P mk;
             GeneratedSymmetricKey := sym;
             GeneratedEncryptionKey := enc;
             GeneratedMACKey := mac;
             RSAPrivateKey := rsa |}) ;;
   OrgSecrets <- unwrap_org_keys P datafile secrets ;;
   walk_groups P datafile secrets OrgSecrets).
Proof.
  intros (email & kdf & salt & n & H1 & H2 & H3 & H4 & Hs & Hn & Hk & Hh).
  unfold decryptBitwardenJSON.
  rewrite H1, bind_ret_l, H2, bind_ret_l, H3, bind_ret_l, H4, bind_ret_l.
  now rewrite (getBitwardenSecrets_unfold _ _ _ _ _ _ _ _ _ Hs Hn Hk Hh).
Qed.

(** An [exit] or an exception in the first step ends the whole run. *)
Lemma bind_stops {A B} (t : list event) (r : result A) (f : A -> M B) :
  (forall a, r <> Ret a) ->
  trace (bind (t, r) f) = t
  /\ match r with
     | Ret _ => True
     | Raise e => outcome (bind (t, r) f) = Raise e
     | Exit c => outcome (bind (t, r) f) = Exit c
     end.
Proof. intros H. destruct r as [a|e|c]; [now destruct (H a) | now split..]. Qed.

End Pipeline.

(** ** The model at work *)

Example split_on_dot : Str.split "." "2.a|b.c" = ["2"; "a|b"; "c"].
Proof. reflexivity. Qed.

Example split_without_separator : Str.split "|" "abc" = ["abc"].
Proof. reflexivity. Qed.

Example replace_all_occurrences :
  Str.replace "a-b-a-b" "a-" "x" = "xb-xb".
Proof. reflexivity. Qed.

Example int_of_type_prefix :
  Str.int "2" = Some 2%Z /\ Str.int " 4 " = Some 4%Z /\ Str.int "x" = None
  /\ Str.int EmptyString = None.
Proof. repeat split. Qed.

(** The pattern is greedy: a match runs to the last [=] before the next
    comma, and it needs one bar only. *)
Example findall_greedy :
  Re.findall regexPattern "k: 2.IV==|CT|MAC=x, n: 3, m: 7.a|b==}"
  = ["2.IV==|CT|MAC="; "7.a|b=="].
Proof. reflexivity. Qed.

Example findall_needs_digit_dot : Re.findall regexPattern "a.b|c=" = [].
Proof. reflexivity. Qed.

Example dumps_array :
  dumps (JArr [JNum 1; JNum (-20); JNull; JBool true; JArr []; JObj []])
  = "[1, -20, null, true, [], {}]".
Proof. reflexivity. Qed.

Example loads_blanks_and_order :
  loads " [1 ,2,  [ ] ] " = Some (JArr [JNum 1; JNum 2; JArr []]).
Proof. reflexivity. Qed.

Example loads_rejects :
  loads "[1,]" = None /\ loads "01" = None /\ loads "[1] 2" = None
  /\ loads EmptyString = None.
Proof. repeat split. Qed.

(** The escapes of [dumps]: quote, backslash, control characters. *)
Example encode_str_escapes :
  encode_str (String dq (String "\" (String "010" "z")))
  = String dq (String "\" (String dq ("\\\nz" ++ String dq EmptyString))).
Proof. reflexivity. Qed.

Example base64_hello :
  Toy.b64decode "aGVsbG8=" = Some (list_byte_of_string "hello")
  /\ Toy.b64encode (list_byte_of_string "hello") = "aGVsbG8="
  /\ Toy.b64decode "aGVsbG8" = None.
Proof. repeat split. Qed.

(** [int] strips blanks, NEL and NBSP, not the separator U+001C. *)
Example int_blanks :
  Str.int " 2 " = Some 2%Z
  /\ Str.int (String "160" "2") = Some 2%Z
  /\ Str.int (String "133" "2") = Some 2%Z
  /\ Str.int (String "028" "2") = None.
Proof. repeat split. Qed.

(** A part with a character outside ASCII is refused before the decoder
    sees it. *)
Example base64_non_ascii :
  base64_b64decode Toy.primitives (String "233" "AAAA")
  = raise (ValueError NonAsciiString)
  /\ base64_b64decode Toy.primitives "AAA" = raise BinasciiError.
Proof. split; reflexivity. Qed.

Example pkcs7_roundtrip :
  Toy.pkcs7_unpad (Toy.pkcs7_pad (list_byte_of_string "Work"))
  = Some (list_byte_of_string "Work")
  /\ Toy.pkcs7_unpad (repeat x00 16) = None.
Proof. repeat split. Qed.

(** The sample values are what the client would have written. *)
Lemma sample_values_protected :
  Sample.encKey
  = Toy.protect (Sample.user_enc ++ Sample.user_mac)%list
                (stretched_enc Toy.primitives Sample.masterKey)
                (stretched_mac Toy.primitives Sample.masterKey) Sample.iv
  /\ Sample.encPrivateKey
     = Toy.protect Sample.der Sample.user_enc Sample.user_mac Sample.iv
  /\ Sample.encPrivateKey_bad_mac
     = Toy.protect Sample.der Sample.user_enc Sample.org_mac Sample.iv
  /\ Sample.name_Work
     = Toy.protect (list_byte_of_string "Work") Sample.user_enc Sample.user_mac
                   Sample.iv
  /\ Sample.name_Mine
     = Toy.protect (list_byte_of_string "Mine") Sample.user_enc Sample.user_mac
                   Sample.iv
  /\ Sample.name_Team
     = Toy.protect (list_byte_of_string "Team") Sample.org_enc Sample.org_mac
                   Sample.iv
  /\ Sample.encOrgKey
     = "4." ++ Toy.b64encode
                 (Toy.mask Sample.der [] (Sample.org_enc ++ Sample.org_mac)%list).
Proof. vm_compute. repeat split. Qed.

(** The whole pipeline on a sample: the folder name is decrypted and the
    user identifier, which a comma follows, is removed. *)
Example personal_vault_decrypts :
  decryptBitwardenJSON Toy.primitives
    (Sample.personal [("folders_u1", JObj [("f1", Sample.folder_Work)])])
    Sample.password
  = (trace (decryptBitwardenJSON Toy.primitives
              (Sample.personal [("folders_u1", JObj [("f1", Sample.folder_Work)])])
              Sample.password),
     Ret [("folders",
           [JObj [("id", JStr "f1"); ("name", JStr "Work");
                  ("revisionDate", JStr "2021-01-01")]])]).
Proof. vm_compute. reflexivity. Qed.

(* ================================================================== *)
(** * The claims *)
(* ================================================================== *)

(** ** C1: failure of the master unwrap *)

(** C1, as amended.  When the unwrap of the protected symmetric key
    fails, by MAC mismatch or by PKCS7 padding error, the whole pipeline
    stops with exit status 1 and without a document.  What the user reads
    depends on the failure: the MAC message for a mismatch, a blank line
    and the wrong-password message for a padding error. *)
Theorem C1_master_unwrap_failure_exits
        (P : Primitives) (datafile : json) (password : bytes)
        (encKey encPrivateKey : json) (masterKey hash iv ct mac : bytes)
        (f : unwrap_failure) :
  reaches_unwrap P datafile password encKey encPrivateKey masterKey hash ->
  parse_symmetric P encKey = ret (iv, ct, mac) ->
  unwrap_fails P f (stretched_enc P masterKey) (stretched_mac P masterKey) iv ct mac ->
  outcome (decryptBitwardenJSON P datafile password) = Exit 1
  /\ stdout (trace (decryptBitwardenJSON P datafile password)) = abort_message f.
Proof.
  intros Hreach Hparse Hfail.
  rewrite (decryptBitwardenJSON_unfold P _ _ _ _ _ _ Hreach).
  pose proof (parse_symmetric_truthy P _ _ Hparse) as Ht.
  destruct f; cbn [unwrap_fails abort_message] in *.
  - destruct (symmetric_mismatch P _ _ _ _ (stretched_enc P masterKey) _
                                 Hparse Ht Hfail) as [-> _].
    now split.
  - destruct Hfail as (-> & d & Haes & Hpad).
    pose proof (symmetric_match P _ _ _ _ _ _ Hparse Ht Haes) as H.
    rewrite Hpad in H. destruct H as [-> _]. now split.
Qed.

(** A wrong password makes the MAC check fail. *)
Lemma C1_witness_wrong_password :
  outcome (decryptBitwardenJSON Toy.primitives (Sample.personal []) Sample.wrong_password)
  = Exit 1
  /\ stdout (trace (decryptBitwardenJSON Toy.primitives (Sample.personal [])
                                         Sample.wrong_password))
     = [MAC_ERROR_MASTER].
Proof.
  eapply (C1_master_unwrap_failure_exits
            Toy.primitives (Sample.personal []) Sample.wrong_password
            (JStr Sample.encKey) JNull _ _ _ _ _ MacMismatch).
  - unfold reaches_unwrap. do 4 eexists. repeat split; reflexivity.
  - vm_compute. reflexivity.
  - vm_compute. discriminate.
Defined.

(** C1 as stated fails: the two failures of the master unwrap are told
    apart by what is printed.  With a wrong password the MAC check fails
    and the run prints the MAC message; with an authenticated key whose
    padding is broken it prints the wrong-password message. *)
Lemma C1_counterexample_two_messages :
  let by_mac :=
    decryptBitwardenJSON Toy.primitives (Sample.personal []) Sample.wrong_password in
  let by_padding :=
    decryptBitwardenJSON Toy.primitives
      (Sample.export (JStr Sample.encKey_bad_padding) JNull (JObj []) [])
      Sample.password in
  outcome by_mac = Exit 1
  /\ outcome by_padding = Exit 1
  /\ stdout (trace by_mac) = [MAC_ERROR_MASTER]
  /\ stdout (trace by_padding) = [EmptyString; WRONG_PASSWORD]
  /\ stdout (trace by_mac) <> stdout (trace by_padding).
Proof. vm_compute. repeat split; discriminate. Qed.

(** ** C2: the symmetric construction *)

(** C2, as amended.  Each of the three symmetric routines first computes
    HMAC-SHA256 over [iv ++ ciphertext] under the MAC key.  On a mismatch
    no cipher operation follows: the master unwrap prints its MAC message
    and exits, the other two return their MAC message as a value.  On a
    match the ciphertext goes through AES-256-CBC and PKCS7 unpadding; the
    master unwrap and the RSA-key unwrap return these bytes, the per-field
    routine returns their UTF-8 decoding and raises [UnicodeDecodeError]
    when there is none.  A padding failure is the wrong-password exit in
    the master unwrap and a [ValueError] in the other two. *)
Theorem C2_symmetric_decryption
        (P : Primitives) (cs : json) (iv ct mac key mackey : bytes) :
  parse_symmetric P cs = ret (iv, ct, mac) ->
  let h := HmacSha256 mackey (iv ++ ct)%list in
  (mac <> hmac_sha256 P mackey (iv ++ ct)%list ->
   decryptMasterEncryptionKey P cs key mackey = ([h; Print MAC_ERROR_MASTER], Exit 1)
   /\ decryptRSAPrivateKey P cs key mackey = ([h], Ret (PyStr MAC_ERROR_RSA))
   /\ decryptCipherString P cs key mackey = ([h], Ret (PyStr MAC_ERROR_FIELD)))
  /\
  (mac = hmac_sha256 P mackey (iv ++ ct)%list ->
   forall d, aes_cbc_decrypt P key iv ct = Some d ->
   let t := [h; AesCbcDecrypt key iv ct; Pkcs7Unpad d] in
   match pkcs7_unpad P d with
   | Some p =>
       decryptMasterEncryptionKey P cs key mackey
       = (t, Ret (p, slice 0 32 p, slice 32 64 p))
       /\ decryptRSAPrivateKey P cs key mackey = (t, Ret (PyBytes p))
       /\ decryptCipherString P cs key mackey
          = (t, match utf8_decode P p with
                | Some text => Ret (PyStr text)
                | None => Raise UnicodeDecodeError
                end)
   | None =>
       decryptMasterEncryptionKey P cs key mackey
       = ((t ++ [Print EmptyString; Print WRONG_PASSWORD])%list, Exit 1)
       /\ decryptRSAPrivateKey P cs key mackey
          = (t, Raise (ValueError InvalidPaddingBytes))
       /\ decryptCipherString P cs key mackey
          = (t, Raise (ValueError InvalidPaddingBytes))
   end).
Proof.
  intros Hparse h. pose proof (parse_symmetric_truthy P _ _ Hparse) as Ht. split.
  - intros Hmac. exact (symmetric_mismatch P _ _ _ _ key _ Hparse Ht Hmac).
  - intros -> d Haes. exact (symmetric_match P _ _ _ _ _ _ Hparse Ht Haes).
Qed.

(** The folder name of the sample decrypts to [Work]. *)
Lemma C2_witness_field_Work :
  decryptCipherString Toy.primitives (JStr Sample.name_Work)
                      Sample.user_enc Sample.user_mac
  = ([HmacSha256 Sample.user_mac
        (Sample.iv ++ Toy.aes_cbc_encrypt Sample.user_enc Sample.iv
                        (Toy.pkcs7_pad (list_byte_of_string "Work")))%list;
      AesCbcDecrypt Sample.user_enc Sample.iv
        (Toy.aes_cbc_encrypt Sample.user_enc Sample.iv
           (Toy.pkcs7_pad (list_byte_of_string "Work")));
      Pkcs7Unpad (Toy.pkcs7_pad (list_byte_of_string "Work"))],
     Ret (PyStr "Work")).
Proof.
  pose proof (C2_symmetric_decryption
                Toy.primitives (JStr Sample.name_Work) Sample.iv
                (Toy.aes_cbc_encrypt Sample.user_enc Sample.iv
                   (Toy.pkcs7_pad (list_byte_of_string "Work")))
                (Toy.hmac_sha256 Sample.user_mac
                   (Sample.iv ++ Toy.aes_cbc_encrypt Sample.user_enc Sample.iv
                      (Toy.pkcs7_pad (list_byte_of_string "Work")))%list)
                Sample.user_enc Sample.user_mac) as H.
  destruct H as [_ H]; [vm_compute; reflexivity|].
  specialize (H eq_refl (Toy.pkcs7_pad (list_byte_of_string "Work"))).
  destruct H as (_ & _ & H); [vm_compute; reflexivity|].
  exact H.
Defined.

(** C2 as stated fails for the per-field routine.  The first value below
    is the one byte [0xff] protected under the content keys: its MAC
    matches and its padding is valid, yet the routine does not return that
    byte, it raises [UnicodeDecodeError].  The second has a MAC that does
    not match: the routine does not fail, it returns text, the same text
    as for the third value, which is in order. *)
Lemma C2_counterexample_not_utf8 :
  Sample.field_not_utf8
  = Toy.protect [xff] Sample.user_enc Sample.user_mac Sample.iv
  /\ outcome (decryptRSAPrivateKey Toy.primitives (JStr Sample.field_not_utf8)
                                   Sample.user_enc Sample.user_mac)
     = Ret (PyBytes [xff])
  /\ outcome (decryptCipherString Toy.primitives (JStr Sample.field_not_utf8)
                                  Sample.user_enc Sample.user_mac)
     = Raise UnicodeDecodeError
  /\ outcome (decryptCipherString Toy.primitives (JStr Sample.name_Work_bad_mac)
                                  Sample.user_enc Sample.user_mac)
     = Ret (PyStr MAC_ERROR_FIELD)
  /\ Sample.field_message
     = Toy.protect (list_byte_of_string MAC_ERROR_FIELD)
                   Sample.user_enc Sample.user_mac Sample.iv
  /\ outcome (decryptCipherString Toy.primitives (JStr Sample.field_message)
                                  Sample.user_enc Sample.user_mac)
     = Ret (PyStr MAC_ERROR_FIELD).
Proof. vm_compute. repeat split. Qed.

(** ** C10: empty and absent values *)

(** C10.  Given [None] or the empty string, the RSA-key unwrap and the
    per-field decryption return [None]; and when the export has no value
    under [encPrivateKey], the key chain completes, with [None] as the RSA
    private key, as soon as its first four steps do. *)
Theorem C10_empty_cipherstring_gives_None (P : Primitives) (cs : json) :
  cs = JNull \/ cs = JStr EmptyString ->
  (forall key mackey,
      decryptRSAPrivateKey P cs key mackey = ret PyNone
      /\ decryptCipherString P cs key mackey = ret PyNone)
  /\
  (forall email password kdfIterations encKey salt n masterKey hash sym enc mac,
      bytes_utf8 P email = ret salt ->
      iterations_of kdfIterations = ret n ->
      pbkdf2_hmac_sha256 P salt n password = Some masterKey ->
      pbkdf2_hmac_sha256 P password 1 masterKey = Some hash ->
      outcome (decryptMasterEncryptionKey P encKey (stretched_enc P masterKey)
                                          (stretched_mac P masterKey))
      = Ret (sym, enc, mac) ->
      outcome (getBitwardenSecrets P email password kdfIterations encKey cs)
      = Ret {| MasterKey := masterKey;
               MasterPasswordHash := base64_b64encode hash;
               StretchedEncryptionKey := stretched_enc P masterKey;
               StretchedMacKey := stretched_mac P masterKey;
               GeneratedSymmetricKey := sym;
               GeneratedEncryptionKey := enc;
               GeneratedMACKey := mac;
               RSAPrivateKey := PyNone |}).
Proof.
  intros Hcs.
  assert (Hnone : forall key mackey,
             decryptRSAPrivateKey P cs key mackey = ret PyNone
             /\ decryptCipherString P cs key mackey = ret PyNone).
  { intros key mackey. destruct Hcs as [-> | ->]; now split. }
  split; [exact Hnone|].
  intros email password kdf encKey salt n mk mph sym enc mac Hs Hn Hk Hh Hm.
  rewrite (getBitwardenSecrets_unfold P _ _ _ _ _ _ _ _ _ Hs Hn Hk Hh).
  destruct (decryptMasterEncryptionKey P encKey _ _) as [t r].
  cbn [outcome snd] in Hm. subst r. cbn [bind].
  destruct (Hnone enc mac) as [-> _]. reflexivity.
Qed.

(** The sample account without RSA key. *)
Lemma C10_witness_personal_account :
  outcome (getBitwardenSecrets Toy.primitives (JStr "a@b.c") Sample.password
                               (JNum 5) (JStr Sample.encKey) JNull)
  = Ret {| MasterKey :=
             Toy.digest (Toy.utf8_encode "a@b.c" ++ x05 :: Sample.password)%list;
           MasterPasswordHash :=
             base64_b64encode
               (Toy.digest
                  (Sample.password ++ x01
                     :: Toy.digest (Toy.utf8_encode "a@b.c" ++ x05 :: Sample.password))%list);
           StretchedEncryptionKey :=
             stretched_enc Toy.primitives
               (Toy.digest (Toy.utf8_encode "a@b.c" ++ x05 :: Sample.password)%list);
           StretchedMacKey :=
             stretched_mac Toy.primitives
               (Toy.digest (Toy.utf8_encode "a@b.c" ++ x05 :: Sample.password)%list);
           GeneratedSymmetricKey := (Sample.user_enc ++ Sample.user_mac)%list;
           GeneratedEncryptionKey := Sample.user_enc;
           GeneratedMACKey := Sample.user_mac;
           RSAPrivateKey := PyNone |}.
Proof.
  apply (proj2 (C10_empty_cipherstring_gives_None Toy.primitives JNull (or_introl eq_refl))
               (JStr "a@b.c") Sample.password (JNum 5) (JStr Sample.encKey)
               (Toy.utf8_encode "a@b.c") 5%Z);
    vm_compute; reflexivity.
Defined.

(** ** C8: malformed strings *)

Lemma split_cons (sep : ascii) (s : string) :
  exists h t, Str.split sep s = h :: t.
Proof.
  induction s as [|c s (h & t & IH)]; simpl; [now eexists; eexists|].
  destruct (Ascii.eqb c sep); [now eexists; eexists|].
  rewrite IH. now eexists; eexists.
Qed.

Section Parsing.

Variable P : Primitives.

Lemma base64_b64decode_cases (seg : string) :
  (exists b, base64_b64decode P seg = ret b /\ ~ not_base64 P seg)
  \/ (exists e, In e format_errors /\ base64_b64decode P seg = raise e
                 /\ not_base64 P seg).
Proof.
  unfold base64_b64decode, not_base64.
  destruct (Str.all_chars is_ascii seg) eqn:Ha.
  - destruct (b64decode P seg) as [b|] eqn:Hb.
    + left. exists b. split; [reflexivity|]. intros [H|H]; discriminate.
    + right. exists BinasciiError. cbn. auto 6.
  - right. exists (ValueError NonAsciiString). cbn. auto 6.
Qed.

(** The parts read of the text after the first dot: either all of them
    decode, or the first one that is missing or is not base64 gives the
    error. *)
Lemma segments_cases (segs : list string) (n : nat) :
  (exists bs,
      List.length bs = n
      /\ (forall i, (i < n)%nat ->
                    exists seg b,
                      nth_error segs i = Some seg /\ nth_error bs i = Some b
                      /\ base64_b64decode P seg = ret b)
      /\ (n <= List.length segs)%nat
      /\ forall i, (i < n)%nat -> ~ not_base64 P (nth i segs EmptyString))
  \/ (exists e i,
         (i < n)%nat /\ In e format_errors
         /\ (seg <- item segs i ;; base64_b64decode P seg) = raise e
         /\ (forall j, (j < i)%nat ->
                       exists b, (seg <- item segs j ;; base64_b64decode P seg) = ret b)
         /\ ((List.length segs < n)%nat
             \/ exists k, (k < n)%nat /\ not_base64 P (nth k segs EmptyString))).
Proof.
  unfold item. revert segs. induction n as [|n IH]; intros segs.
  - left. exists []. repeat split; intros; lia.
  - destruct segs as [|seg segs].
    + right. exists IndexError, 0%nat. repeat split; [lia | cbn; auto | | ].
      * intros j Hj. lia.
      * left. cbn. lia.
    + destruct (base64_b64decode_cases seg) as [(b & Hb & Hok) | (e & He & Hb & Hbad)].
      * destruct (IH segs) as [(bs & Hlen & Hall & Hn & Hgood)
                              | (e & i & Hi & He & Hraise & Hbefore & Hwhy)].
        -- left. exists (b :: bs). repeat split.
           ++ cbn. now rewrite Hlen.
           ++ intros [|i] Hi; [now exists seg, b|]. apply Hall. lia.
           ++ cbn. lia.
           ++ intros [|i] Hi; [exact Hok|]. apply Hgood. lia.
        -- right. exists e, (S i). repeat split; [lia | exact He | exact Hraise | |].
           ++ intros [|j] Hj;
                [exists b; cbn [nth_error lift];
                 rewrite bind_ret_l; exact Hb|].
              apply Hbefore. lia.
           ++ destruct Hwhy as [Hshort | (k & Hk & Hbad)]; [left; cbn; lia|].
              right. exists (S k). split; [lia | exact Hbad].
      * right. exists e, 0%nat. repeat split; [lia | exact He | | |].
        -- cbn [nth_error lift]. rewrite bind_ret_l. exact Hb.
        -- intros j Hj. lia.
        -- right. exists 0%nat. split; [lia | exact Hbad].
Qed.

Lemma parse_symmetric_cases (s : string) :
  (exists r, parse_symmetric P (JStr s) = ret r /\ ~ malformed P 3 s)
  \/ (exists e, In e format_errors /\ parse_symmetric P (JStr s) = raise e
                 /\ malformed P 3 s).
Proof.
  unfold malformed, parse_symmetric, encType_of, segment, split, item.
  destruct (split_cons "." s) as (h & t & Hs). rewrite Hs.
  rewrite !bind_ret_l. change (nth_error (h :: t) 0) with (Some h).
  change (nth 0 (h :: t) EmptyString) with h. cbn [lift].
  rewrite ?bind_ret_l.
  destruct (Str.int h) as [z|] eqn:Hi.
  2:{ right. exists (ValueError InvalidLiteralForInt).
      repeat split; [cbn; auto | left; reflexivity]. }
  cbn [lift]. rewrite !bind_ret_l.
  destruct t as [|b t].
  { right. exists IndexError.
    repeat split; [cbn; auto | right; left; cbn; lia]. }
  change (nth_error (h :: b :: t) 1) with (Some b).
  change (nth 1 (h :: b :: t) EmptyString) with b. cbn [lift].
  rewrite !bind_ret_l.
  pose proof (segments_cases (Str.split "|" b) 3) as C. unfold item in C.
  destruct C
    as [(bs & Hlen & Hall & Hn & Hgood) | (e & i & Hi3 & He & Hraise & Hbefore & Hwhy)].
  - left.
    destruct (Hall 0%nat ltac:(lia)) as (s0 & b0 & E0 & _ & D0).
    destruct (Hall 1%nat ltac:(lia)) as (s1 & b1 & E1 & _ & D1).
    destruct (Hall 2%nat ltac:(lia)) as (s2 & b2 & E2 & _ & D2).
    exists (b0, b1, b2). split.
    + rewrite E0, E1, E2. cbn [lift].
      now rewrite !bind_ret_l, D0, bind_ret_l, D1, bind_ret_l, D2, bind_ret_l.
    + intros [H | [H | [H | (k & Hk & H)]]];
        [discriminate | cbn in H; lia | lia | now apply (Hgood k)].
  - right. exists e. repeat split; [exact He | |].
    + destruct i as [|[|[|i]]]; [| | | lia].
      * now rewrite Hraise.
      * destruct (Hbefore 0%nat ltac:(lia)) as (b0 & ->).
        now rewrite bind_ret_l, Hraise.
      * destruct (Hbefore 0%nat ltac:(lia)) as (b0 & ->).
        destruct (Hbefore 1%nat ltac:(lia)) as (b1 & ->).
        now rewrite !bind_ret_l, Hraise.
    + destruct Hwhy as [H | H]; [right; right; left; exact H | do 3 right; exact H].
Qed.

Lemma decryptRSA_parse_cases (s : string) :
  (exists z ct, encType_of (JStr s) = ret z /\ segment P (JStr s) 0 = ret ct
                /\ ~ malformed P 1 s)
  \/ (exists e, In e format_errors
                 /\ (forall key, decryptRSA P (JStr s) key = raise e)
                 /\ malformed P 1 s).
Proof.
  unfold malformed, decryptRSA, encType_of, segment, split, item.
  destruct (split_cons "." s) as (h & t & Hs). rewrite Hs.
  rewrite !bind_ret_l. change (nth_error (h :: t) 0) with (Some h).
  change (nth 0 (h :: t) EmptyString) with h. cbn [lift].
  rewrite ?bind_ret_l.
  destruct (Str.int h) as [z|] eqn:Hi.
  2:{ right. exists (ValueError InvalidLiteralForInt).
      repeat split; [cbn; auto | left; reflexivity]. }
  cbn [lift]. rewrite ?bind_ret_l.
  destruct t as [|b t].
  { right. exists IndexError.
    repeat split; [cbn; auto | right; left; cbn; lia]. }
  change (nth_error (h :: b :: t) 1) with (Some b).
  change (nth 1 (h :: b :: t) EmptyString) with b. cbn [lift].
  rewrite ?bind_ret_l.
  pose proof (segments_cases (Str.split "|" b) 1) as C. unfold item in C.
  destruct C
    as [(bs & Hlen & Hall & Hn & Hgood) | (e & i & Hi1 & He & Hraise & Hbefore & Hwhy)].
  - left. destruct (Hall 0%nat ltac:(lia)) as (s0 & b0 & E0 & _ & D0).
    exists z, b0. repeat split.
    + rewrite E0. cbn [lift]. now rewrite bind_ret_l.
    + intros [H | [H | [H | (k & Hk & H)]]];
        [discriminate | cbn in H; lia | lia | now apply (Hgood k)].
  - right. exists e. repeat split; [exact He | |].
    + intros key. destruct i as [|i]; [|lia]. now rewrite Hraise.
    + destruct Hwhy as [H | H]; [right; right; left; exact H | do 3 right; exact H].
Qed.

Lemma parse_symmetric_rejects (s : string) :
  malformed P 3 s ->
  exists e, In e format_errors /\ parse_symmetric P (JStr s) = raise e.
Proof.
  intros H. destruct (parse_symmetric_cases s) as [(r & _ & Hn) | (e & He & Hr & _)];
    [contradiction | now exists e].
Qed.

Lemma decryptRSA_rejects (s : string) (key : pyobj) :
  malformed P 1 s ->
  exists e, In e format_errors /\ decryptRSA P (JStr s) key = raise e.
Proof.
  intros H. destruct (decryptRSA_parse_cases s) as [(z & ct & _ & _ & Hn) | (e & He & Hr & _)];
    [contradiction | now exists e].
Qed.

End Parsing.

(** C8, as amended.  A string is rejected by the parsing lines, before any
    HMAC or cipher operation, when its type is not an integer, when it has
    no dot, when it has fewer parts between the bars than the routine reads
    (three for the symmetric routines, one for [decryptRSA]), or when one
    of those parts is not base64.  The rejection is an [IndexError], the
    [ValueError] of [int], the [ValueError] of [b64decode] for a part
    outside ASCII or a [binascii.Error], never the padding error, and it
    leaves no event.  These are all the strings the parsing lines reject:
    any other string is parsed, surplus parts included. *)
Theorem C8_malformed_rejected_before_decryption
        (P : Primitives) (s : string) (key mackey : bytes) (rsa : pyobj) :
  (malformed P 3 s ->
   exists e,
     In e format_errors
     /\ e <> ValueError InvalidPaddingBytes
     /\ decryptMasterEncryptionKey P (JStr s) key mackey = raise e
     /\ (s <> EmptyString ->
         decryptRSAPrivateKey P (JStr s) key mackey = raise e
         /\ decryptCipherString P (JStr s) key mackey = raise e))
  /\
  (malformed P 1 s ->
   exists e,
     In e format_errors
     /\ e <> ValueError InvalidPaddingBytes
     /\ decryptRSA P (JStr s) rsa = raise e)
  /\
  (~ malformed P 3 s -> exists r, parse_symmetric P (JStr s) = ret r)
  /\
  (~ malformed P 1 s ->
   exists z ct, encType_of (JStr s) = ret z /\ segment P (JStr s) 0 = ret ct).
Proof.
  assert (Hpad : forall e, In e format_errors -> e <> ValueError InvalidPaddingBytes).
  { intros e [<- | [<- | [<- | [<- | []]]]]; discriminate. }
  split; [|split; [|split]]; intros H.
  - destruct (parse_symmetric_rejects P s H) as (e & He & Hparse).
    exists e. repeat split; [exact He | now apply Hpad | | |].
    + unfold decryptMasterEncryptionKey. now rewrite Hparse.
    + unfold decryptRSAPrivateKey. destruct s; [contradiction|]. cbn [truthy negb String.eqb].
      now rewrite Hparse.
    + unfold decryptCipherString. destruct s; [contradiction|]. cbn [truthy negb String.eqb].
      now rewrite Hparse.
  - destruct (decryptRSA_rejects P s rsa H) as (e & He & Hparse).
    exists e. repeat split; [exact He | now apply Hpad | exact Hparse].
  - destruct (parse_symmetric_cases P s) as [(r & Hr & _) | (e & _ & _ & Hm)];
      [now exists r | contradiction].
  - destruct (decryptRSA_parse_cases P s) as [(z & ct & Hz & Hct & _) | (e & _ & _ & Hm)];
      [now exists z, ct | contradiction].
Qed.

(** The two-part field of the sample is rejected with [IndexError]. *)
Lemma C8_witness_two_parts :
  exists e,
    In e (format_errors)
    /\ e <> ValueError InvalidPaddingBytes
    /\ decryptMasterEncryptionKey Toy.primitives (JStr Sample.field_two_parts)
                                  Sample.user_enc Sample.user_mac = raise e
    /\ (Sample.field_two_parts <> EmptyString ->
        decryptRSAPrivateKey Toy.primitives (JStr Sample.field_two_parts)
                             Sample.user_enc Sample.user_mac = raise e
        /\ decryptCipherString Toy.primitives (JStr Sample.field_two_parts)
                               Sample.user_enc Sample.user_mac = raise e).
Proof.
  apply (proj1 (C8_malformed_rejected_before_decryption
                  Toy.primitives Sample.field_two_parts
                  Sample.user_enc Sample.user_mac PyNone)).
  unfold malformed. right. right. left. vm_compute. lia.
Defined.

(** C8 as stated fails: a string with four parts between the bars is not
    rejected.  Its first three parts are parsed, the HMAC is computed, and
    the answer is the one for a MAC mismatch. *)
Lemma C8_counterexample_four_parts :
  parse_symmetric Toy.primitives (JStr Sample.four_parts)
  = ret ([x00; x00; x00], [x00; x00; x00], [x00; x00; x00])
  /\ decryptCipherString Toy.primitives (JStr Sample.four_parts)
                         Sample.user_enc Sample.user_mac
     = ([HmacSha256 Sample.user_mac [x00; x00; x00; x00; x00; x00]],
        Ret (PyStr MAC_ERROR_FIELD)).
Proof. vm_compute. split; reflexivity. Qed.

(** Whatever the libraries are, the fourth part is never read. *)
Lemma surplus_part_ignored (P : Primitives) :
  parse_symmetric P (JStr "2.AAAA|AAAA|AAAA|AAAA")
  = parse_symmetric P (JStr "2.AAAA|AAAA|AAAA").
Proof. reflexivity. Qed.

(* ================================================================== *)
(** * The vault walker *)
(* ================================================================== *)

Lemma getitem_cases (d : json) (k : string) :
  (exists v, getitem d k = ret v) \/ (exists e, getitem d k = raise e).
Proof.
  unfold getitem, subscript. destruct d; try (right; eexists; reflexivity).
  destruct (assoc_get k members); [left | right]; eexists; reflexivity.
Qed.

(** Choosing the keys leaves no event and cannot fail. *)
Lemma select_keys_returns secrets OrgSecrets groupItem vars :
  exists vars', select_keys secrets OrgSecrets groupItem vars = ret vars'.
Proof.
  unfold select_keys.
  destruct (getitem_cases groupItem "organizationId") as [[org ->] | [e ->]];
    [|cbn; eexists; reflexivity].
  rewrite bind_ret_l.
  destruct org as [|b|n|s|items|members];
    try (cbn; eexists; reflexivity).
  - cbn [len]. rewrite bind_ret_l. destruct (0 <? String.length s)%nat;
      [|cbn; eexists; reflexivity].
    unfold org_get. cbn [hashable].
    destruct (org_find (JStr s) OrgSecrets); cbn; eexists; reflexivity.
  - cbn [len]. rewrite bind_ret_l. destruct (0 <? List.length items)%nat;
      cbn; eexists; reflexivity.
  - cbn [len]. rewrite bind_ret_l. destruct (0 <? List.length members)%nat;
      cbn; eexists; reflexivity.
Qed.

(** With an organization id of length zero nothing is assigned: the keys
    stay what the previous record left. *)
Lemma select_keys_empty_organizationId secrets OrgSecrets members vars :
  assoc_get "organizationId" members = Some (JStr EmptyString) ->
  select_keys secrets OrgSecrets (JObj members) vars = ret vars.
Proof. intros H. unfold select_keys, getitem, subscript. now rewrite H. Qed.

(** In every other case the keys are the ones the claim names: those of
    the organization for a known, non-empty id, and the user's own for an
    absent member, for [null] and for an unknown id. *)
Lemma select_keys_chooses secrets OrgSecrets members vars :
  let user := {| encKey_var := Some (GeneratedEncryptionKey secrets);
                 macKey_var := Some (GeneratedMACKey secrets) |} in
  (assoc_get "organizationId" members = None ->
   select_keys secrets OrgSecrets (JObj members) vars = ret user)
  /\ (assoc_get "organizationId" members = Some JNull ->
      select_keys secrets OrgSecrets (JObj members) vars = ret user)
  /\ (forall org, org <> EmptyString ->
      assoc_get "organizationId" members = Some (JStr org) ->
      select_keys secrets OrgSecrets (JObj members) vars
      = ret match org_find (JStr org) OrgSecrets with
            | Some k => {| encKey_var := Some (slice 0 32 k);
                           macKey_var := Some (slice 32 64 k) |}
            | None => user
            end).
Proof.
  intros user. unfold select_keys, getitem, subscript. repeat split.
  - now intros ->.
  - now intros ->.
  - intros org Horg ->. destruct org as [|c org]; [contradiction|].
    cbn [lift len]. rewrite !bind_ret_l. cbn [String.length Nat.ltb Nat.leb].
    unfold org_get. cbn [hashable].
    now destruct (org_find _ OrgSecrets).
Qed.

Section Walker.

Variable P : Primitives.
Variable datafile : json.
Variable secrets : BitwardenSecrets.
Variable OrgSecrets : org_secrets.

Local Abbreviation entry := (walk_entry P datafile secrets OrgSecrets).

(** A record without a match of the pattern goes out as it came in. *)
Lemma walk_entry_no_match vars acc members :
  wf (JObj members) = true ->
  Re.findall regexPattern (dumps (JObj members)) = [] ->
  exists vars', entry (vars, acc) (JObj members)
                = ret (vars', (acc ++ [JObj members])%list).
Proof.
  intros Hwf Hnone. unfold walk_entry.
  rewrite (copy_wf _ Hwf), bind_ret_l.
  destruct (select_keys_returns secrets OrgSecrets (JObj members) vars)
    as [vars' ->].
  rewrite bind_ret_l, Hnone. cbn [for_each]. rewrite bind_ret_l.
  rewrite (loads_dumps _ Hwf). cbn [lift]. rewrite bind_ret_l. now exists vars'.
Qed.

Lemma walk_entry_skips acc c :
  wf c = true -> is_object c = false -> entry acc c = ret acc.
Proof.
  intros Hwf Hobj. unfold walk_entry. destruct acc as [vars l].
  rewrite (copy_wf _ Hwf), bind_ret_l. now destruct c.
Qed.

Lemma walk_member_direct acc k v :
  wf v = true ->
  walk_member P datafile secrets OrgSecrets acc (k, v)
  = if is_object v then entry acc v else ret acc.
Proof.
  intros Hwf. unfold walk_member. cbn [fst snd].
  rewrite copy_wf by (cbn; now rewrite Hwf).
  rewrite bind_ret_l. cbn [iterate]. rewrite bind_ret_l. cbn [for_each].
  rewrite (walk_entry_skips acc (JStr k)) by reflexivity.
  rewrite bind_ret_l.
  destruct (is_object v) eqn:Hobj.
  - rewrite <- (bind_ret_r (entry acc v)) at 2. now apply bind_ext.
  - rewrite (walk_entry_skips acc v Hwf Hobj). now rewrite bind_ret_l.
Qed.

Lemma walk_members_direct members acc :
  forallb (fun kv : string * json => let (_, x) := kv in wf x) members = true ->
  for_each members (walk_member P datafile secrets OrgSecrets) acc
  = for_each (records_of members) entry acc.
Proof.
  revert acc. induction members as [|[k v] members IH]; intros acc Hwf;
    [reflexivity|].
  cbn [forallb] in Hwf. apply andb_true_iff in Hwf as [Hv Hwf].
  cbn [for_each]. rewrite (walk_member_direct acc k v Hv).
  unfold records_of. cbn [map snd filter].
  destruct (is_object v); cbn [for_each].
  - apply bind_ext. intros a. now apply IH.
  - rewrite bind_ret_l. now apply IH.
Qed.

(** A record that is processed to the end adds one entry to the list. *)
Lemma walk_entry_appends vars l c vars' l' :
  wf c = true -> is_object c = true ->
  outcome (entry (vars, l) c) = Ret (vars', l') ->
  exists record, l' = (l ++ [record])%list.
Proof.
  intros Hwf Hobj. unfold walk_entry.
  rewrite (copy_wf _ Hwf), bind_ret_l.
  destruct c as [| | | | |members]; try discriminate.
  destruct (select_keys_returns secrets OrgSecrets (JObj members) vars)
    as [vars1 ->].
  rewrite bind_ret_l.
  destruct (for_each _ _ _) as [t [text|e|code]]; cbn; try discriminate.
  destruct (loads text) as [record|]; cbn; [|discriminate].
  intros [= <- <-]. now exists record.
Qed.

Lemma walk_entries_count cs vars l vars' l' :
  forallb wf cs = true -> forallb is_object cs = true ->
  outcome (for_each cs entry (vars, l)) = Ret (vars', l') ->
  List.length l' = (List.length l + List.length cs)%nat.
Proof.
  revert vars l. induction cs as [|c cs IH]; intros vars l Hwf Hobj H.
  - cbn in H. injection H as <- <-. cbn. lia.
  - cbn [forallb] in Hwf, Hobj.
    apply andb_true_iff in Hwf as [Hc Hwf]. apply andb_true_iff in Hobj as [Ho Hobj].
    cbn [for_each] in H.
    destruct (entry (vars, l) c) as [t [[vars1 l1]|e|code]] eqn:He;
      cbn in H; try discriminate.
    destruct (walk_entry_appends vars l c vars1 l1 Hc Ho) as [record ->].
    { now rewrite He. }
    destruct (for_each cs entry (vars1, (l ++ [record])%list)) as [t2 r2] eqn:Hrest.
    cbn in H. subst r2.
    rewrite (IH vars1 (l ++ [record])%list Hwf Hobj); [|now rewrite Hrest].
    rewrite List.length_app. cbn. lia.
Qed.

End Walker.

(** ** C9: which values are records *)

Lemma assoc_get_set {V} (k : string) (v : V) (d : list (string * V)) :
  assoc_get k (assoc_set k v d) = Some v.
Proof.
  induction d as [|[k' v'] d IH]; cbn.
  - now rewrite String.eqb_refl.
  - destruct (String.eqb k' k) eqn:E; cbn; now rewrite E.
Qed.

Lemma records_of_wf (members : list (string * json)) :
  forallb (fun kv : string * json => let (_, x) := kv in wf x) members = true ->
  forallb wf (records_of members) = true
  /\ forallb is_object (records_of members) = true.
Proof.
  unfold records_of. induction members as [|[k v] members IH]; [now split|].
  cbn [forallb map snd filter]. intros H. apply andb_true_iff in H as [Hv H].
  destruct (IH H) as [IH1 IH2].
  destruct (is_object v) eqn:Hobj; cbn [forallb]; [|now split].
  now rewrite Hv, Hobj, IH1, IH2.
Qed.

(** C9, as amended.  For a top-level key with a recognized prefix whose
    value is a JSON object, the records are exactly the members of that
    object that are themselves JSON objects: they are processed in order,
    and when the group is processed to the end its list has one entry for
    each of them.  Nothing nested deeper, and nothing inside a list, is
    enumerated. *)
Theorem C9_records_are_the_direct_object_members
        (P : Primitives) (datafile : json) (secrets : BitwardenSecrets)
        (OrgSecrets : org_secrets) (vars : key_vars)
        (out : list (string * list json))
        (name group : string) (members : list (string * json)) :
  group_of name = Some group ->
  subscript datafile (JStr name) = ret (JObj members) ->
  wf (JObj members) = true ->
  walk_key P datafile secrets OrgSecrets (vars, out) (JStr name)
  = ('(vars', l) <- for_each (records_of members)
                             (walk_entry P datafile secrets OrgSecrets) (vars, []) ;;
     ret (vars', assoc_set group l out))
  /\ forall vars' out',
      outcome (walk_key P datafile secrets OrgSecrets (vars, out) (JStr name))
      = Ret (vars', out') ->
      exists l, assoc_get group out' = Some l
                /\ List.length l = List.length (records_of members).
Proof.
  intros Hgroup Hvalue Hwf.
  assert (E : walk_key P datafile secrets OrgSecrets (vars, out) (JStr name)
              = ('(vars', l) <- for_each (records_of members)
                                 (walk_entry P datafile secrets OrgSecrets) (vars, []) ;;
                 ret (vars', assoc_set group l out))).
  { unfold walk_key. rewrite Hgroup, Hvalue, bind_ret_l.
    rewrite (copy_wf _ Hwf), bind_ret_l. cbn [dict_items]. rewrite bind_ret_l.
    cbn [wf] in Hwf. apply andb_true_iff in Hwf as [_ Hwf].
    now rewrite (walk_members_direct P datafile secrets OrgSecrets members _ Hwf). }
  split; [exact E|].
  intros vars' out'. rewrite E.
  cbn [wf] in Hwf. apply andb_true_iff in Hwf as [_ Hwf].
  destruct (records_of_wf members Hwf) as [Hw Ho].
  destruct (for_each (records_of members) _ _) as [t [[vars1 l]|e|c]] eqn:Hrun;
    cbn; try discriminate.
  intros [= <- <-]. exists l. split; [apply assoc_get_set|].
  apply (walk_entries_count P datafile secrets OrgSecrets _ vars [] vars1 l Hw Ho).
  now rewrite Hrun.
Qed.

(** Two folders directly under the group key give two records. *)
Lemma C9_witness_two_folders :
  exists l,
    assoc_get "folders"
              [("folders", [JObj [("id", JStr "f1"); ("name", JStr "Work");
                                  ("revisionDate", JStr "2021-01-01")];
                            Sample.folder_plain])]
    = Some l
    /\ List.length l
       = List.length (records_of [("f1", Sample.folder_Work); ("f2", Sample.folder_plain)]).
Proof.
  refine (proj2 (C9_records_are_the_direct_object_members
                   Toy.primitives
                   (Sample.personal
                      [("folders_u1", JObj [("f1", Sample.folder_Work);
                                            ("f2", Sample.folder_plain)])])
                   Sample.secrets []
                   {| encKey_var := None; macKey_var := None |} []
                   "folders_u1" "folders"
                   [("f1", Sample.folder_Work); ("f2", Sample.folder_plain)]
                   _ _ _)
                Sample.user_keys _ _);
    vm_compute; reflexivity.
Defined.

(** C9 as stated fails: a record inside a list is not emitted at all, and
    a record nested one object deeper is not emitted as a record of its
    own; only its parent is. *)
Lemma C9_counterexample_nested_records :
  outcome (decryptBitwardenJSON
             Toy.primitives
             (Sample.personal
                [("folders_u1",
                  JObj [("0", JArr [Sample.folder_plain]);
                        ("1", JObj [("inner", Sample.folder_plain)])])])
             Sample.password)
  = Ret [("folders", [JObj [("inner", Sample.folder_plain)]])].
Proof. vm_compute. reflexivity. Qed.

(** ** C5: failures inside a record *)

Lemma strip_quotes_encode_str (s : string) :
  strip_quotes (encode_str s) = escape s.
Proof.
  unfold strip_quotes, encode_str. cbn [String.length Str.drop].
  rewrite length_append. cbn [String.length].
  replace (S (String.length (escape s) + 1) - 1 - 1)%nat
    with (String.length (escape s)) by lia.
  apply take_append.
Qed.

Section Fields.

Variable P : Primitives.
Variable datafile : json.
Variable userId : string.
Hypothesis HuserId : getitem datafile "userId" = ret (JStr userId).

Variable vars : key_vars.
Variables encKey macKey : bytes.
Hypothesis HencKey : encKey_var vars = Some encKey.
Hypothesis HmacKey : macKey_var vars = Some macKey.

(** A match for which the routine returns is replaced by the escape of
    what it returned. *)
Lemma rewrite_match_returns (tempString m text : string) :
  outcome (decryptCipherString P (JStr m) encKey macKey) = Ret (PyStr text) ->
  outcome (rewrite_match P datafile vars tempString m)
  = Ret (Str.replace (Str.replace tempString m (escape text))
                     (userIdString userId) EmptyString).
Proof.
  intros H. unfold rewrite_match. rewrite HencKey, HmacKey. cbn [lift].
  rewrite !bind_ret_l, outcome_bind, H. cbn [JSONEncoder_encode].
  rewrite bind_ret_l, HuserId, bind_ret_l. cbn [userIdString_of].
  rewrite bind_ret_l. cbn [outcome ret snd].
  now rewrite strip_quotes_encode_str.
Qed.


Lemma rewrite_matches_return (text : string -> string) (ms : list string)
      (tempString : string) :
  (forall m, In m ms ->
             outcome (decryptCipherString P (JStr m) encKey macKey)
             = Ret (PyStr (text m))) ->
  outcome (for_each ms (rewrite_match P datafile vars) tempString)
  = Ret (rewritten userId text ms tempString).
Proof.
  revert tempString. induction ms as [|m ms IH]; intros tempString H;
    [reflexivity|].
  cbn [for_each]. rewrite outcome_bind.
  rewrite (rewrite_match_returns tempString m (text m)) by (apply H; now left).
  rewrite IH by (intros m' Hin; apply H; now right). reflexivity.
Qed.


End Fields.

(** What the walker does with a record when the routine returns for every
    match: the record is read back from the rewritten text. *)
Lemma walk_entry_rewrites (P : Primitives) datafile secrets OrgSecrets
      (vars vars' : key_vars) (l : list json) (members : list (string * json))
      (userId : string) (encKey macKey : bytes) (text : string -> string) :
  wf (JObj members) = true ->
  getitem datafile "userId" = ret (JStr userId) ->
  select_keys secrets OrgSecrets (JObj members) vars = ret vars' ->
  encKey_var vars' = Some encKey ->
  macKey_var vars' = Some macKey ->
  (forall m, In m (Re.findall regexPattern (dumps (JObj members))) ->
             outcome (decryptCipherString P (JStr m) encKey macKey)
             = Ret (PyStr (text m))) ->
  outcome (walk_entry P datafile secrets OrgSecrets (vars, l) (JObj members))
  = match loads (rewritten userId text
                           (Re.findall regexPattern (dumps (JObj members)))
                           (dumps (JObj members))) with
    | Some record => Ret (vars', (l ++ [record])%list)
    | None => Raise JSONDecodeError
    end.
Proof.
  intros Hwf Hu Hsel He Hm Hall. unfold walk_entry.
  rewrite (copy_wf _ Hwf), bind_ret_l, Hsel, bind_ret_l, outcome_bind.
  rewrite (rewrite_matches_return P datafile userId Hu vars' encKey macKey He Hm
             text _ _ Hall).
  rewrite outcome_bind. now destruct (loads _).
Qed.



(** What the two folders of the witness come to. *)
Example foreign_name_reported :
  outcome (for_each [Sample.folder_foreign; Sample.folder_Work]
                    (walk_entry Toy.primitives (Sample.personal []) Sample.secrets [])
                    ({| encKey_var := None; macKey_var := None |}, []))
  = Ret (Sample.user_keys,
         [JObj [("id", JStr "f3"); ("name", JStr MAC_ERROR_FIELD);
                ("note", JStr "Work")];
          JObj [("id", JStr "f1"); ("name", JStr "Work");
                ("revisionDate", JStr "2021-01-01")]]).
Proof. vm_compute. reflexivity. Qed.


(** ** C6: the user identifier *)

(** C6 does not hold of the code.  The removal of the user identifier
    sits inside the loop over the matches, so a record without any match
    keeps it; and the text that is removed ends in a comma, so an
    identifier that comes last in its record stays as well. *)
Theorem C6_userId_is_kept :
  outcome (decryptBitwardenJSON
             Toy.primitives
             (Sample.personal
                [("folders_u1", JObj [("f2", Sample.folder_plain);
                                      ("f4", Sample.folder_userId_last)])])
             Sample.password)
  = Ret [("folders",
          [JObj [("id", JStr "f2"); ("userId", JStr "u1");
                 ("revisionDate", JStr "2021-01-02")];
           JObj [("id", JStr "f4"); ("name", JStr "Work"); ("userId", JStr "u1")]])].
Proof. vm_compute. reflexivity. Qed.

(** ** C3: the keys of a record *)

(** C3 does not hold of the code when the organization id is the empty
    string.  After a record of [org1], the personal record is decrypted
    with the keys of [org1], so its name, which the user's keys decrypt,
    comes out as a MAC error; and when such a record comes first, the
    keys are not bound at all. *)
Theorem C3_empty_organizationId_keeps_previous_keys :
  select_keys Sample.secrets
              [(JStr "org1", (Sample.org_enc ++ Sample.org_mac)%list)]
              Sample.cipher_Mine Sample.org_keys
  = ret Sample.org_keys
  /\ outcome (decryptCipherString Toy.primitives (JStr Sample.name_Mine)
                                  Sample.user_enc Sample.user_mac)
     = Ret (PyStr "Mine")
  /\ outcome (decryptBitwardenJSON Toy.primitives Sample.vault_two_logins
                                   Sample.password)
     = Ret [("items",
             [JObj [("id", JStr "c1"); ("organizationId", JStr "org1");
                    ("name", JStr "Team")];
              JObj [("id", JStr "c2"); ("organizationId", JStr EmptyString);
                    ("name", JStr MAC_ERROR_FIELD)]])]
  /\ outcome (decryptBitwardenJSON Toy.primitives Sample.vault_one_login
                                   Sample.password)
     = Raise UnboundLocalError.
Proof. vm_compute. repeat split; reflexivity. Qed.

(** ** C4 and C7: the RSA private key in the loop over the organizations *)

(** Whatever the libraries are, [decryptRSA] hands its key to the loader
    as it is, and the loader takes bytes only. *)
Lemma decryptRSA_without_key (P : Primitives) (cs : json) (key : pyobj)
      (z : Z) (ct : bytes) :
  (forall der, key <> PyBytes der) ->
  encType_of cs = ret z ->
  segment P cs 0 = ret ct ->
  decryptRSA P cs key = ([LoadDerPrivateKey key], Raise TypeError).
Proof.
  intros Hkey Hz Hct. unfold decryptRSA. rewrite Hz, bind_ret_l, Hct, bind_ret_l.
  destruct key as [|s|der]; [reflexivity | reflexivity |].
  now destruct (Hkey der).
Qed.

(** C4 does not hold of the code.  When the MAC check of the protected
    RSA private key fails and the export has organization keys, the
    message that [decryptRSAPrivateKey] returned is passed to the key
    loader as if it were the key, and the run ends with [TypeError];
    nothing has been printed. *)
Theorem C4_mac_message_used_as_private_key :
  let run :=
    decryptBitwardenJSON
      Toy.primitives
      (Sample.export (JStr Sample.encKey) (JStr Sample.encPrivateKey_bad_mac)
                     (JObj [("org1", JStr Sample.encOrgKey)])
                     [("folders_u1", JObj [("f1", Sample.folder_Work)])])
      Sample.password in
  outcome run = Raise TypeError
  /\ In (LoadDerPrivateKey (PyStr MAC_ERROR_RSA)) (trace run)
  /\ stdout (trace run) = [].
Proof.
  vm_compute. repeat split.
  repeat first [left; reflexivity | right].
Qed.

(** C7 does not hold of the code.  With organization keys in the export
    and no RSA private key, the loop over the organizations passes [None]
    to the key loader and the run ends with [TypeError] before any record
    is looked at; when the export has no [encPrivateKey] member at all,
    it ends with [KeyError] even earlier. *)
Theorem C7_no_private_key_ends_the_run :
  let run :=
    decryptBitwardenJSON
      Toy.primitives
      (Sample.export (JStr Sample.encKey) JNull
                     (JObj [("org1", JStr Sample.encOrgKey)])
                     [("folders_u1", JObj [("f1", Sample.folder_Work)])])
      Sample.password in
  outcome run = Raise TypeError
  /\ In (LoadDerPrivateKey PyNone) (trace run)
  /\ decryptBitwardenJSON
       Toy.primitives
       (JObj [("userEmail", JStr "a@b.c"); ("kdfIterations", JNum 5);
              ("encKey", JStr Sample.encKey);
              ("encOrgKeys", JObj [("org1", JStr Sample.encOrgKey)]);
              ("userId", JStr "u1");
              ("folders_u1", JObj [("f1", Sample.folder_Work)])])
       Sample.password
     = raise KeyError.
Proof.
  vm_compute. repeat split.
  repeat first [left; reflexivity | right].
Qed.

(* ================================================================== *)
(** * Further properties of the script *)
(* ================================================================== *)

(** ** Required members of the export *)

(** X1.  When the file holds an object that lacks one of the four
    members read for the key chain, the run ends with [KeyError] before
    any key is derived and with nothing printed.  A missing [userEmail]
    is met before the password is asked for; a missing [kdfIterations],
    [encKey] or [encPrivateKey] is met only after the prompt, when the
    password has been typed. *)
Theorem missing_member_raises_KeyError
        (P : Primitives) (json_load : string -> option json)
        (inputfile : string) (password : bytes)
        (members : list (string * json)) (k : string) :
  json_load inputfile = Some (JObj members) ->
  In k ["userEmail"; "kdfIterations"; "encKey"; "encPrivateKey"] ->
  assoc_get k members = None ->
  decryptBitwardenJSON_inputfile P json_load inputfile password
  = (match assoc_get "userEmail" members with
     | Some _ => [Getpass]
     | None => []
     end, Raise KeyError).
Proof.
  intros Hload Hk Hnone.
  unfold decryptBitwardenJSON_inputfile, decryptBitwardenJSON, getitem, subscript.
  rewrite Hload, bind_ret_l.
  destruct (assoc_get "userEmail" members) as [email|] eqn:H1; [|reflexivity].
  cbn [lift]. rewrite !bind_ret_l.
  destruct (assoc_get "kdfIterations" members) as [kdf|] eqn:H2; [|reflexivity].
  cbn [lift]. rewrite !bind_ret_l.
  destruct (assoc_get "encKey" members) as [encKey|] eqn:H3; [|reflexivity].
  cbn [lift]. rewrite !bind_ret_l.
  destruct (assoc_get "encPrivateKey" members) as [epk|] eqn:H4; [|reflexivity].
  exfalso. destruct Hk as [<- | [<- | [<- | [<- | []]]]]; congruence.
Qed.

Lemma missing_member_witness :
  decryptBitwardenJSON_inputfile
    Toy.primitives
    (fun _ => Some (JObj [("userEmail", JStr "a@b.c");
                          ("encKey", JStr Sample.encKey);
                          ("encPrivateKey", JNull); ("encOrgKeys", JObj [])]))
    "data.json" Sample.password
  = ([Getpass], Raise KeyError).
Proof.
  apply (missing_member_raises_KeyError
           Toy.primitives
           (fun _ => Some (JObj [("userEmail", JStr "a@b.c");
                                 ("encKey", JStr Sample.encKey);
                                 ("encPrivateKey", JNull); ("encOrgKeys", JObj [])]))
           "data.json" Sample.password
           [("userEmail", JStr "a@b.c"); ("encKey", JStr Sample.encKey);
            ("encPrivateKey", JNull); ("encOrgKeys", JObj [])]
           "kdfIterations");
    [reflexivity | cbn; auto | reflexivity].
Defined.

(** ** The halves of the unwrapped key *)

Lemma slice_0_length (n : nat) (b : bytes) :
  List.length (slice 0 n b) = Nat.min n (List.length b).
Proof.
  unfold slice. rewrite Nat.sub_0_r. change (skipn 0 b) with b.
  apply List.length_firstn.
Qed.

Lemma slice_length (i j : nat) (b : bytes) :
  List.length (slice i j b) = Nat.min (j - i) (List.length b - i).
Proof. unfold slice. now rewrite List.length_firstn, List.length_skipn. Qed.

(** X2.  The key chain accepts an unwrapped symmetric key of any length.
    Once the MAC of the protected key agrees and the cipher and the
    unpadder accept it, whatever number of bytes the clear text has, the
    master unwrap returns it with its slices [0:32] and [32:64] as the
    two content keys, and the key chain goes on to the RSA-key routine
    with these two and returns what that routine allows.  For a clear
    text of [n] bytes the keys have [min 32 n] and [min 32 (n - 32)]
    bytes: short, or empty, and no error. *)
Theorem unwrapped_key_is_split_unchecked
        (P : Primitives) (email : json) (password : bytes)
        (kdfIterations encKey encPrivateKey : json)
        (salt : bytes) (n : Z) (masterKey hash iv ct mac d p : bytes) :
  bytes_utf8 P email = ret salt ->
  iterations_of kdfIterations = ret n ->
  pbkdf2_hmac_sha256 P salt n password = Some masterKey ->
  pbkdf2_hmac_sha256 P password 1 masterKey = Some hash ->
  parse_symmetric P encKey = ret (iv, ct, mac) ->
  mac = hmac_sha256 P (stretched_mac P masterKey) (iv ++ ct)%list ->
  aes_cbc_decrypt P (stretched_enc P masterKey) iv ct = Some d ->
  pkcs7_unpad P d = Some p ->
  outcome (decryptMasterEncryptionKey P encKey (stretched_enc P masterKey)
                                      (stretched_mac P masterKey))
  = Ret (p, slice 0 32 p, slice 32 64 p)
  /\ outcome (getBitwardenSecrets P email password kdfIterations encKey encPrivateKey)
     = match outcome (decryptRSAPrivateKey P encPrivateKey
                                           (slice 0 32 p) (slice 32 64 p)) with
       | Ret rsa =>
           Ret {| MasterKey := masterKey;
                  MasterPasswordHash := base64_b64encode hash;
                  StretchedEncryptionKey := stretched_enc P masterKey;
                  StretchedMacKey := stretched_mac P masterKey;
                  GeneratedSymmetricKey := p;
                  GeneratedEncryptionKey := slice 0 32 p;
                  GeneratedMACKey := slice 32 64 p;
                  RSAPrivateKey := rsa |}
       | Raise e => Raise e
       | Exit code => Exit code
       end
  /\ List.length (slice 0 32 p) = Nat.min 32 (List.length p)
  /\ List.length (slice 32 64 p) = Nat.min 32 (List.length p - 32).
Proof.
  intros Hs Hn Hk Hh Hparse -> Haes Hpad.
  pose proof (parse_symmetric_truthy P _ _ Hparse) as Ht.
  pose proof (symmetric_match P _ _ _ _ _ _ Hparse Ht Haes) as H.
  rewrite Hpad in H. destruct H as (Hmaster & _ & _).
  repeat split.
  - now rewrite Hmaster.
  - rewrite (getBitwardenSecrets_unfold P _ _ _ _ _ _ _ _ _ Hs Hn Hk Hh).
    rewrite Hmaster, outcome_bind. cbn [outcome snd]. rewrite outcome_bind.
    now destruct (outcome (decryptRSAPrivateKey P encPrivateKey _ _)).
  - apply slice_0_length.
  - apply slice_length.
Qed.

(** A protected key whose clear text has five bytes: the encryption key
    is those five bytes, the MAC key is empty, and the key chain
    returns. *)
Lemma unwrapped_key_witness :
  let short := [x01; x02; x03; x04; x05] in
  let encKey :=
    JStr (Toy.protect short
                      (stretched_enc Toy.primitives Sample.masterKey)
                      (stretched_mac Toy.primitives Sample.masterKey) Sample.iv) in
  outcome (decryptMasterEncryptionKey
             Toy.primitives encKey
             (stretched_enc Toy.primitives Sample.masterKey)
             (stretched_mac Toy.primitives Sample.masterKey))
  = Ret (short, slice 0 32 short, slice 32 64 short)
  /\ outcome (getBitwardenSecrets Toy.primitives (JStr "a@b.c") Sample.password
                                  (JNum 5) encKey JNull)
     = match outcome (decryptRSAPrivateKey Toy.primitives JNull
                                           (slice 0 32 short) (slice 32 64 short)) with
       | Ret rsa =>
           Ret {| MasterKey := Sample.masterKey;
                  MasterPasswordHash := base64_b64encode Sample.hash;
                  StretchedEncryptionKey :=
                    stretched_enc Toy.primitives Sample.masterKey;
                  StretchedMacKey := stretched_mac Toy.primitives Sample.masterKey;
                  GeneratedSymmetricKey := short;
                  GeneratedEncryptionKey := slice 0 32 short;
                  GeneratedMACKey := slice 32 64 short;
                  RSAPrivateKey := rsa |}
       | Raise e => Raise e
       | Exit code => Exit code
       end
  /\ List.length (slice 0 32 short) = Nat.min 32 (List.length short)
  /\ List.length (slice 32 64 short) = Nat.min 32 (List.length short - 32).
Proof.
  eapply (unwrapped_key_is_split_unchecked
            Toy.primitives (JStr "a@b.c") Sample.password (JNum 5));
    vm_compute; reflexivity.
Defined.

(** The five-byte key of the witness, evaluated. *)
Example short_key_accepted :
  outcome (getBitwardenSecrets
             Toy.primitives (JStr "a@b.c") Sample.password (JNum 5)
             (JStr (Toy.protect [x01; x02; x03; x04; x05]
                      (stretched_enc Toy.primitives Sample.masterKey)
                      (stretched_mac Toy.primitives Sample.masterKey) Sample.iv))
             JNull)
  = Ret {| MasterKey := Sample.masterKey;
           MasterPasswordHash := base64_b64encode Sample.hash;
           StretchedEncryptionKey := stretched_enc Toy.primitives Sample.masterKey;
           StretchedMacKey := stretched_mac Toy.primitives Sample.masterKey;
           GeneratedSymmetricKey := [x01; x02; x03; x04; x05];
           GeneratedEncryptionKey := [x01; x02; x03; x04; x05];
           GeneratedMACKey := [];
           RSAPrivateKey := PyNone |}.
Proof. vm_compute. reflexivity. Qed.

(** ** What the parsing lines look at *)

Lemma nth_error_firstn_lt {A} (l : list A) (n i : nat) :
  (i < n)%nat -> nth_error (firstn n l) i = nth_error l i.
Proof.
  revert l i. induction n as [|n IH]; intros l i H; [lia|].
  destruct l as [|x l]; [reflexivity|]. destruct i as [|i]; [reflexivity|].
  cbn. apply IH. lia.
Qed.

Lemma parse_symmetric_of_parts (P : Primitives) (s h b : string) (t : list string) :
  Str.split "." s = h :: b :: t ->
  parse_symmetric P (JStr s)
  = (encType <- lift (ValueError InvalidLiteralForInt) (Str.int h) ;;
     iv <- (seg <- item (firstn 3 (Str.split "|" b)) 0 ;; base64_b64decode P seg) ;;
     ct <- (seg <- item (firstn 3 (Str.split "|" b)) 1 ;; base64_b64decode P seg) ;;
     mac <- (seg <- item (firstn 3 (Str.split "|" b)) 2 ;; base64_b64decode P seg) ;;
     ret (iv, ct, mac)).
Proof.
  intros Hs. unfold parse_symmetric, encType_of, segment, split, item.
  rewrite !nth_error_firstn_lt by lia.
  rewrite !bind_ret_l, Hs. cbn [nth_error lift]. now rewrite !bind_ret_l.
Qed.

(** X4.  The parsing lines use the type prefix only to see that it is an
    integer, and of the text between the first and the second dot they
    read the first three parts between bars only.  Two strings that agree
    on those three parts are decrypted alike by every symmetric routine,
    whatever their types and whatever follows. *)
Theorem only_three_parts_are_read
        (P : Primitives) (s1 s2 h1 h2 b1 b2 : string) (t1 t2 : list string)
        (z1 z2 : Z) (key mackey : bytes) :
  Str.split "." s1 = h1 :: b1 :: t1 ->
  Str.split "." s2 = h2 :: b2 :: t2 ->
  Str.int h1 = Some z1 ->
  Str.int h2 = Some z2 ->
  firstn 3 (Str.split "|" b1) = firstn 3 (Str.split "|" b2) ->
  decryptMasterEncryptionKey P (JStr s1) key mackey
  = decryptMasterEncryptionKey P (JStr s2) key mackey
  /\ decryptRSAPrivateKey P (JStr s1) key mackey
     = decryptRSAPrivateKey P (JStr s2) key mackey
  /\ decryptCipherString P (JStr s1) key mackey
     = decryptCipherString P (JStr s2) key mackey.
Proof.
  intros Hs1 Hs2 Hz1 Hz2 Hparts.
  assert (E : parse_symmetric P (JStr s1) = parse_symmetric P (JStr s2)).
  { rewrite (parse_symmetric_of_parts P _ _ _ _ Hs1),
      (parse_symmetric_of_parts P _ _ _ _ Hs2), Hz1, Hz2, Hparts.
    reflexivity. }
  assert (T1 : truthy (JStr s1) = true) by (destruct s1; [discriminate | reflexivity]).
  assert (T2 : truthy (JStr s2) = true) by (destruct s2; [discriminate | reflexivity]).
  unfold decryptMasterEncryptionKey, decryptRSAPrivateKey, decryptCipherString.
  now rewrite T1, T2, E.
Qed.

Lemma only_three_parts_witness :
  decryptMasterEncryptionKey Toy.primitives (JStr Sample.name_Work)
                             Sample.user_enc Sample.user_mac
  = decryptMasterEncryptionKey Toy.primitives
      (JStr ("0" ++ Str.drop 1 Sample.name_Work ++ "|extra.more"))
      Sample.user_enc Sample.user_mac
  /\ decryptRSAPrivateKey Toy.primitives (JStr Sample.name_Work)
                          Sample.user_enc Sample.user_mac
     = decryptRSAPrivateKey Toy.primitives
         (JStr ("0" ++ Str.drop 1 Sample.name_Work ++ "|extra.more"))
         Sample.user_enc Sample.user_mac
  /\ decryptCipherString Toy.primitives (JStr Sample.name_Work)
                         Sample.user_enc Sample.user_mac
     = decryptCipherString Toy.primitives
         (JStr ("0" ++ Str.drop 1 Sample.name_Work ++ "|extra.more"))
         Sample.user_enc Sample.user_mac.
Proof.
  eapply (only_three_parts_are_read Toy.primitives);
    try (vm_compute; reflexivity).
Defined.

(** ** The matches of the walker's pattern *)

Lemma match_here_regexPattern (s : string) (n : nat) :
  Re.match_here regexPattern s = Some n ->
  exists d rest k,
    s = String d (String "." rest) /\ Str.is_digit d = true /\ n = S (S k).
Proof.
  unfold regexPattern.
  destruct s as [|d s]; [discriminate|]. cbn [Re.match_here].
  destruct (Str.is_digit d) eqn:Hd; [|discriminate].
  destruct s as [|c rest]; [discriminate|].
  destruct (Ascii.eqb "." c) eqn:Hc; [|discriminate].
  apply Ascii.eqb_eq in Hc. subst c.
  match goal with
  | |- option_map S (option_map S ?m) = _ -> _ => destruct m as [k|]
  end; [|discriminate].
  intros [= <-]. now exists d, rest, k.
Qed.

Lemma findall_from_regexPattern (skip : nat) (s m : string) :
  In m (Re.findall_from regexPattern skip s) ->
  exists s' n, Re.match_here regexPattern s' = Some n /\ m = Str.take n s'.
Proof.
  revert skip. induction s as [|c s IH]; intros skip.
  - destruct skip; intros [].
  - cbn [Re.findall_from]. destruct skip as [|k]; [|apply IH].
    destruct (Re.match_here regexPattern (String c s)) as [[|n]|] eqn:Hm.
    + apply match_here_regexPattern in Hm. destruct Hm as (? & ? & ? & _ & _ & [=]).
    + intros [<- | Hin]; [|now apply IH in Hin].
      now exists (String c s), (S n).
    + apply IH.
Qed.

Lemma digit_is_not_dot (d : ascii) :
  Str.is_digit d = true -> Ascii.eqb d "." = false.
Proof. each_char d; first [discriminate | reflexivity]. Qed.

Lemma int_of_digit (d : ascii) :
  Str.is_digit d = true ->
  Str.int (String d EmptyString) = Some (Z.of_nat (nat_of_ascii d - 48)).
Proof. each_char d; first [discriminate | reflexivity]. Qed.

Lemma split_nonempty (sep : ascii) (s : string) : Str.split sep s <> [].
Proof.
  destruct s as [|c s]; [discriminate|]. cbn [Str.split].
  destruct (Ascii.eqb c sep); [discriminate|].
  destruct (Str.split sep s); discriminate.
Qed.

(** X5.  Every match of the pattern [\d\.[^,]+\|[^,]+=+] in a record's
    text starts with one digit and a dot.  On a match, therefore, the
    routine that decrypts it is never handed an empty string, its call of
    [int] on the type never fails and the part after the first dot is
    there: splitting at the dots gives the digit and at least one part
    more, the type read is the value of the digit, and when the routine
    returns, it returns a [str] (the clear text or its MAC message),
    never [None]. *)
Theorem matches_start_with_a_type_digit (P : Primitives) (text m : string) :
  In m (Re.findall regexPattern text) ->
  exists d body,
    m = String d (String "." body)
    /\ Str.is_digit d = true
    /\ Str.split "." m = String d EmptyString :: Str.split "." body
    /\ Str.split "." body <> []
    /\ encType_of (JStr m) = ret (Z.of_nat (nat_of_ascii d - 48))
    /\ forall key mackey x,
         outcome (decryptCipherString P (JStr m) key mackey) = Ret x ->
         exists cleartext, x = PyStr cleartext.
Proof.
  intros Hin. apply findall_from_regexPattern in Hin.
  destruct Hin as (s' & n & Hm & ->).
  apply match_here_regexPattern in Hm.
  destruct Hm as (d & rest & k & -> & Hd & ->).
  exists d, (Str.take k rest). cbn [Str.take].
  assert (Hsplit : Str.split "." (String d (String "." (Str.take k rest)))
                   = String d EmptyString :: Str.split "." (Str.take k rest)).
  { cbn [Str.split]. rewrite (digit_is_not_dot d Hd). reflexivity. }
  repeat split; try assumption.
  - apply split_nonempty.
  - unfold encType_of, split, item. rewrite bind_ret_l, Hsplit.
    cbn [nth_error lift]. rewrite bind_ret_l, (int_of_digit d Hd). reflexivity.
  - intros key mackey x. unfold decryptCipherString. cbn [truthy negb].
    destruct (parse_symmetric P _) as [t0 [[[iv ct] mac]|e|c]]; cbn;
      try discriminate.
    destruct (bytes_eqb mac (hmac_sha256 P mackey (iv ++ ct)%list)); cbn.
    + destruct (aes_cbc_decrypt P key iv ct) as [dd|]; cbn; try discriminate.
      destruct (pkcs7_unpad P dd) as [p|]; cbn; try discriminate.
      destruct (utf8_decode P p) as [u|]; cbn; try discriminate.
      intros [= <-]. now eexists.
    + intros [= <-]. now eexists.
Qed.

Lemma matches_witness :
  exists d body,
    Sample.name_Work = String d (String "." body)
    /\ Str.is_digit d = true
    /\ Str.split "." Sample.name_Work = String d EmptyString :: Str.split "." body
    /\ Str.split "." body <> []
    /\ encType_of (JStr Sample.name_Work) = ret (Z.of_nat (nat_of_ascii d - 48))
    /\ forall key mackey x,
         outcome (decryptCipherString Toy.primitives (JStr Sample.name_Work)
                                      key mackey) = Ret x ->
         exists cleartext, x = PyStr cleartext.
Proof.
  apply (matches_start_with_a_type_digit Toy.primitives (dumps Sample.folder_Work)).
  vm_compute. left. reflexivity.
Defined.

(* ================================================================== *)
(** * What a run leaves behind: library calls, output, exit *)
(* ================================================================== *)

(** ** Computations without events *)

Lemma silent_ret {A} (a : A) : silent (ret a).
Proof. split; [reflexivity | discriminate]. Qed.

Lemma silent_raise {A} (e : exn) : silent (@raise A e).
Proof. split; [reflexivity | discriminate]. Qed.

Lemma silent_lift {A} (e : exn) (o : option A) : silent (lift e o).
Proof. destruct o; [apply silent_ret | apply silent_raise]. Qed.

Lemma silent_bind {A B} (m : M A) (f : A -> M B) :
  silent m -> (forall a, silent (f a)) -> silent (bind m f).
Proof.
  intros [Ht Hx] Hf. unfold silent. rewrite trace_bind, outcome_bind.
  destruct (outcome m) as [a|e|c] eqn:Ho.
  - destruct (Hf a) as [Hta Hxa]. now rewrite Ht, Hta.
  - split; [assumption | discriminate].
  - now destruct (Hx c).
Qed.

Ltac silent_step :=
  first [ apply silent_ret | apply silent_raise | apply silent_lift
        | apply silent_bind; [|intros]
        | match goal with
          | |- silent (match ?x with _ => _ end) => destruct x
          end ].

Lemma silent_subscript (c i : json) : silent (subscript c i).
Proof. unfold subscript. repeat silent_step. Qed.

Lemma silent_getitem (d : json) (k : string) : silent (getitem d k).
Proof. apply silent_subscript. Qed.

Lemma silent_iterate (v : json) : silent (iterate v).
Proof. unfold iterate. repeat silent_step. Qed.

Lemma silent_dict_items (v : json) : silent (dict_items v).
Proof. unfold dict_items. repeat silent_step. Qed.

Lemma silent_copy (v : json) : silent (copy v).
Proof. unfold copy. repeat silent_step. Qed.

Lemma silent_len (v : json) : silent (len v).
Proof. unfold len. repeat silent_step. Qed.

Lemma silent_parse_symmetric (P : Primitives) (cs : json) :
  silent (parse_symmetric P cs).
Proof.
  unfold parse_symmetric, encType_of, segment, split, item, base64_b64decode.
  repeat silent_step.
Qed.

Lemma silent_select_keys secrets OrgSecrets groupItem vars :
  silent (select_keys secrets OrgSecrets groupItem vars).
Proof.
  destruct (select_keys_returns secrets OrgSecrets groupItem vars) as [v ->].
  apply silent_ret.
Qed.

Lemma silent_PBKDF2 (P : Primitives) salt iterations key_material :
  silent (PBKDF2 P salt iterations key_material).
Proof. apply silent_lift. Qed.

(** ** Properties of runs that go through the sequencing of the script *)

Section Closure.

Variable P : Primitives.

(** A property of computations that holds of the ones without events,
    is kept by sequencing, and holds of the two decryption routines
    that the loops call. *)
Variable R : forall A : Type, M A -> Prop.
Hypothesis R_silent : forall A (m : M A), silent m -> R A m.
Hypothesis R_bind : forall A B (m : M A) (f : A -> M B),
    R A m -> (forall a, R B (f a)) -> R B (bind m f).
Hypothesis R_decryptCipherString : forall cs key mackey,
    R _ (decryptCipherString P cs key mackey).
Hypothesis R_decryptRSA : forall cs key, R _ (decryptRSA P cs key).

Lemma closure_for_each {A S} (xs : list A) (body : S -> A -> M S) (acc : S) :
  (forall s a, R _ (body s a)) -> R _ (for_each xs body acc).
Proof.
  intros Hbody. revert acc. induction xs as [|x xs IH]; intros acc.
  - apply R_silent, silent_ret.
  - cbn [for_each]. apply R_bind; [apply Hbody | apply IH].
Qed.

Lemma closure_unwrap_org_keys datafile secrets :
  R _ (unwrap_org_keys P datafile secrets).
Proof.
  unfold unwrap_org_keys.
  apply R_bind; [apply R_silent, silent_getitem | intros orgs].
  apply R_bind; [apply R_silent, silent_iterate | intros keys].
  apply closure_for_each. intros s i. unfold unwrap_org_key.
  apply R_bind; [apply R_silent, silent_subscript | intros wrapped].
  apply R_bind; [apply R_decryptRSA | intros plaintext].
  apply R_silent. destruct (hashable i); [apply silent_ret | apply silent_raise].
Qed.

Lemma closure_rewrite_match datafile vars tempString match_ :
  R _ (rewrite_match P datafile vars tempString match_).
Proof.
  unfold rewrite_match.
  apply R_bind; [apply R_silent, silent_lift | intros encKey].
  apply R_bind; [apply R_silent, silent_lift | intros macKey].
  apply R_bind; [apply R_decryptCipherString | intros cleartext].
  apply R_silent.
  apply silent_bind; [destruct cleartext; repeat silent_step | intros e].
  apply silent_bind; [apply silent_getitem | intros userId].
  apply silent_bind; [destruct userId; repeat silent_step | intros u].
  apply silent_ret.
Qed.

Lemma closure_walk_entry datafile secrets OrgSecrets acc c :
  R _ (walk_entry P datafile secrets OrgSecrets acc c).
Proof.
  unfold walk_entry. destruct acc as [vars l].
  apply R_bind; [apply R_silent, silent_copy | intros groupItem].
  destruct groupItem; try (apply R_silent, silent_ret).
  apply R_bind; [apply R_silent, silent_select_keys | intros vars'].
  apply R_bind;
    [apply closure_for_each; intros; apply closure_rewrite_match | intros text].
  apply R_silent. repeat silent_step.
Qed.

Lemma closure_walk_key datafile secrets OrgSecrets acc a :
  R _ (walk_key P datafile secrets OrgSecrets acc a).
Proof.
  unfold walk_key. destruct acc as [vars out].
  destruct a; try (apply R_silent, silent_raise).
  destruct (group_of s); [|apply R_silent, silent_ret].
  apply R_bind; [apply R_silent, silent_subscript | intros value].
  apply R_bind; [apply R_silent, silent_copy | intros groupData].
  apply R_bind; [apply R_silent, silent_dict_items | intros members].
  apply R_bind; [|intros [vars' l]; apply R_silent, silent_ret].
  apply closure_for_each. intros s' b. unfold walk_member.
  apply R_bind; [apply R_silent, silent_copy | intros groupEntries].
  apply R_bind; [apply R_silent, silent_iterate | intros entries].
  apply closure_for_each. intros. apply closure_walk_entry.
Qed.

Lemma closure_walk_groups datafile secrets OrgSecrets :
  R _ (walk_groups P datafile secrets OrgSecrets).
Proof.
  unfold walk_groups.
  apply R_bind; [apply R_silent, silent_iterate | intros keys].
  apply R_bind; [|intros [vars out]; apply R_silent, silent_ret].
  apply closure_for_each. intros. apply closure_walk_key.
Qed.

(** The whole pipeline, given the property for the key chain. *)
Lemma closure_decryptBitwardenJSON datafile password :
  (forall email kdf encKey encPrivateKey,
      R _ (getBitwardenSecrets P email password kdf encKey encPrivateKey)) ->
  R _ (decryptBitwardenJSON P datafile password).
Proof.
  intros Hchain. unfold decryptBitwardenJSON.
  apply R_bind; [apply R_silent, silent_getitem | intros userEmail].
  apply R_bind; [apply R_silent, silent_getitem | intros kdf].
  apply R_bind; [apply R_silent, silent_getitem | intros encKey].
  apply R_bind; [apply R_silent, silent_getitem | intros encPrivateKey].
  apply R_bind; [apply Hchain | intros secrets].
  apply R_bind; [apply closure_unwrap_org_keys | intros OrgSecrets].
  apply closure_walk_groups.
Qed.

End Closure.

(** ** No decryption without a MAC computed on the same data *)

Lemma silent_inv {A} (m : M A) : silent m -> exists r, m = ([], r).
Proof. destruct m as [t r]. intros [Ht _]. cbn in Ht. subst t. now exists r. Qed.

Lemma authenticated_after_weaken (prev : option bytes) (t : list event) :
  authenticated_after None t = true -> authenticated_after prev t = true.
Proof. destruct t as [|[] t]; cbn; try easy. Qed.

Lemma authenticated_after_app (prev : option bytes) (t t' : list event) :
  authenticated_after prev t = true ->
  authenticated_after None t' = true ->
  authenticated_after prev (t ++ t')%list = true.
Proof.
  revert prev. induction t as [|ev t IH]; intros prev Ht Ht'.
  - now apply authenticated_after_weaken.
  - destruct ev; cbn in *; try (now apply IH).
    apply andb_true_iff in Ht as [H1 H2]. rewrite H1. now apply IH.
Qed.

Lemma authenticated_pair (k k' iv ct : bytes) (t : list event) :
  authenticated_after None t = true ->
  authenticated (HmacSha256 k (iv ++ ct)%list :: AesCbcDecrypt k' iv ct :: t) = true.
Proof.
  intros H. unfold authenticated. cbn [authenticated_after].
  now rewrite bytes_eqb_refl, H.
Qed.

Lemma authenticated_bind {A B} (m : M A) (f : A -> M B) :
  authenticated (trace m) = true ->
  (forall a, authenticated (trace (f a)) = true) ->
  authenticated (trace (bind m f)) = true.
Proof.
  intros Hm Hf. rewrite trace_bind. destruct (outcome m); try assumption.
  now apply authenticated_after_app.
Qed.

Lemma authenticated_silent {A} (m : M A) :
  silent m -> authenticated (trace m) = true.
Proof. intros [-> _]. reflexivity. Qed.

Lemma authenticated_decryptMasterEncryptionKey (P : Primitives) cs key mackey :
  authenticated (trace (decryptMasterEncryptionKey P cs key mackey)) = true.
Proof.
  unfold decryptMasterEncryptionKey.
  destruct (silent_inv _ (silent_parse_symmetric P cs)) as [[[[iv ct] mac]|e|c] ->];
    cbn -[authenticated]; try reflexivity.
  destruct (bytes_eqb mac _); cbn -[authenticated]; [|reflexivity].
  destruct (aes_cbc_decrypt P key iv ct) as [d|]; cbn -[authenticated];
    [|(apply authenticated_pair; reflexivity)].
  destruct (pkcs7_unpad P d); (apply authenticated_pair; reflexivity).
Qed.

Lemma authenticated_decryptRSAPrivateKey (P : Primitives) cs key mackey :
  authenticated (trace (decryptRSAPrivateKey P cs key mackey)) = true.
Proof.
  unfold decryptRSAPrivateKey. destruct (truthy cs); [|reflexivity]. cbn [negb].
  destruct (silent_inv _ (silent_parse_symmetric P cs)) as [[[[iv ct] mac]|e|c] ->];
    cbn -[authenticated]; try reflexivity.
  destruct (bytes_eqb mac _); cbn -[authenticated]; [|reflexivity].
  destruct (aes_cbc_decrypt P key iv ct) as [d|]; cbn -[authenticated];
    [|(apply authenticated_pair; reflexivity)].
  destruct (pkcs7_unpad P d); (apply authenticated_pair; reflexivity).
Qed.

Lemma authenticated_decryptCipherString (P : Primitives) cs key mackey :
  authenticated (trace (decryptCipherString P cs key mackey)) = true.
Proof.
  unfold decryptCipherString. destruct (truthy cs); [|reflexivity]. cbn [negb].
  destruct (silent_inv _ (silent_parse_symmetric P cs)) as [[[[iv ct] mac]|e|c] ->];
    cbn -[authenticated]; try reflexivity.
  destruct (bytes_eqb mac _); cbn -[authenticated]; [|reflexivity].
  destruct (aes_cbc_decrypt P key iv ct) as [d|]; cbn -[authenticated];
    [|(apply authenticated_pair; reflexivity)].
  destruct (pkcs7_unpad P d) as [p|]; cbn -[authenticated];
    [|(apply authenticated_pair; reflexivity)].
  destruct (utf8_decode P p); (apply authenticated_pair; reflexivity).
Qed.

Lemma silent_encType_of (cs : json) : silent (encType_of cs).
Proof. unfold encType_of, split, item. repeat silent_step. Qed.

Lemma silent_segment (P : Primitives) (cs : json) (i : nat) :
  silent (segment P cs i).
Proof. unfold segment, split, item, base64_b64decode. repeat silent_step. Qed.

Lemma authenticated_decryptRSA (P : Primitives) cs key :
  authenticated (trace (decryptRSA P cs key)) = true.
Proof.
  unfold decryptRSA.
  destruct (silent_inv _ (silent_encType_of cs)) as [[z|e|c] ->];
    cbn; try reflexivity.
  destruct (silent_inv _ (silent_segment P cs 0)) as [[ct|e|c] ->];
    cbn; try reflexivity.
  destruct key as [|s|der]; cbn; try reflexivity.
  destruct (load_der_private_key P der) as [k|]; cbn; [|reflexivity].
  destruct (rsa_oaep_sha1_decrypt P k ct); reflexivity.
Qed.

Lemma authenticated_getBitwardenSecrets (P : Primitives)
      email password kdf encKey encPrivateKey :
  authenticated
    (trace (getBitwardenSecrets P email password kdf encKey encPrivateKey)) = true.
Proof.
  unfold getBitwardenSecrets.
  apply authenticated_bind;
    [apply authenticated_silent; unfold bytes_utf8; repeat silent_step | intros salt].
  apply authenticated_bind;
    [apply authenticated_silent; unfold iterations_of; repeat silent_step
    | intros iterations].
  apply authenticated_bind;
    [apply authenticated_silent, silent_PBKDF2 | intros masterKey].
  apply authenticated_bind;
    [apply authenticated_silent, silent_PBKDF2 | intros masterPasswordHash].
  apply authenticated_bind;
    [apply authenticated_decryptMasterEncryptionKey | intros [[sym enc] mac]].
  apply authenticated_bind; [apply authenticated_decryptRSAPrivateKey | intros rsa].
  reflexivity.
Qed.

(** X6.  Whatever the export and the password, every AES-CBC decryption
    of a run comes directly after the HMAC-SHA256 computed over exactly
    the IV followed by the ciphertext it decrypts: from the unwrap of the
    symmetric key to the last field of the last record, nothing is
    decrypted that was not put through the MAC first. *)
Theorem every_decryption_follows_its_mac
        (P : Primitives) (datafile : json) (password : bytes) :
  authenticated (trace (decryptBitwardenJSON P datafile password)) = true.
Proof.
  apply (closure_decryptBitwardenJSON P
           (fun A (m : M A) => authenticated (trace m) = true)).
  - intros A m. apply authenticated_silent.
  - intros A B m f. apply authenticated_bind.
  - apply authenticated_decryptCipherString.
  - apply authenticated_decryptRSA.
  - intros. apply authenticated_getBitwardenSecrets.
Qed.

(** ** What is printed, and where a run can exit *)

Lemma stdout_app (t t' : list event) :
  stdout (t ++ t')%list = (stdout t ++ stdout t')%list.
Proof.
  induction t as [|ev t IH]; [reflexivity|].
  destruct ev; cbn; now rewrite ?IH.
Qed.

Lemma exits_only_at_unwrap_silent {A} (m : M A) :
  silent m -> exits_only_at_unwrap m.
Proof. intros [Ht Hx]. left. split; [now rewrite Ht | assumption]. Qed.

Lemma exits_only_at_unwrap_bind {A B} (m : M A) (f : A -> M B) :
  exits_only_at_unwrap m ->
  (forall a, exits_only_at_unwrap (f a)) ->
  exits_only_at_unwrap (bind m f).
Proof.
  unfold exits_only_at_unwrap, quiet. rewrite trace_bind, outcome_bind.
  intros [[Hout Hx] | [Hx Hout]] Hf.
  - destruct (outcome m) as [a|e|c].
    + rewrite stdout_app, Hout. apply Hf.
    + left. split; [assumption | discriminate].
    + now destruct (Hx c).
  - rewrite Hx. right. now split.
Qed.

Ltac settle_exit :=
  first [ left; split; [reflexivity | intros ?; discriminate]
        | right; split; [reflexivity | first [left; reflexivity | right; reflexivity]] ].

Lemma exits_decryptMasterEncryptionKey (P : Primitives) cs key mackey :
  exits_only_at_unwrap (decryptMasterEncryptionKey P cs key mackey).
Proof.
  unfold decryptMasterEncryptionKey.
  destruct (silent_inv _ (silent_parse_symmetric P cs)) as [[[[iv ct] mac]|e|c] Hs].
  - rewrite Hs. cbn. destruct (bytes_eqb mac _); cbn; [|settle_exit].
    destruct (aes_cbc_decrypt P key iv ct) as [d|]; cbn; [|settle_exit].
    destruct (pkcs7_unpad P d); cbn; settle_exit.
  - rewrite Hs. cbn. settle_exit.
  - destruct (silent_parse_symmetric P cs) as [_ Hx]. rewrite Hs in Hx.
    now destruct (Hx c).
Qed.

Lemma quiet_decryptRSAPrivateKey (P : Primitives) cs key mackey :
  exits_only_at_unwrap (decryptRSAPrivateKey P cs key mackey).
Proof.
  unfold decryptRSAPrivateKey. destruct (truthy cs); [|settle_exit]. cbn [negb].
  destruct (silent_inv _ (silent_parse_symmetric P cs)) as [[[[iv ct] mac]|e|c] Hs].
  - rewrite Hs. cbn. destruct (bytes_eqb mac _); cbn; [|settle_exit].
    destruct (aes_cbc_decrypt P key iv ct) as [d|]; cbn; [|settle_exit].
    destruct (pkcs7_unpad P d); cbn; settle_exit.
  - rewrite Hs. cbn. settle_exit.
  - destruct (silent_parse_symmetric P cs) as [_ Hx]. rewrite Hs in Hx.
    now destruct (Hx c).
Qed.

Lemma quiet_decryptCipherString (P : Primitives) cs key mackey :
  exits_only_at_unwrap (decryptCipherString P cs key mackey).
Proof.
  unfold decryptCipherString. destruct (truthy cs); [|settle_exit]. cbn [negb].
  destruct (silent_inv _ (silent_parse_symmetric P cs)) as [[[[iv ct] mac]|e|c] Hs].
  - rewrite Hs. cbn. destruct (bytes_eqb mac _); cbn; [|settle_exit].
    destruct (aes_cbc_decrypt P key iv ct) as [d|]; cbn; [|settle_exit].
    destruct (pkcs7_unpad P d) as [p|]; cbn; [|settle_exit].
    destruct (utf8_decode P p); cbn; settle_exit.
  - rewrite Hs. cbn. settle_exit.
  - destruct (silent_parse_symmetric P cs) as [_ Hx]. rewrite Hs in Hx.
    now destruct (Hx c).
Qed.

Lemma quiet_decryptRSA (P : Primitives) cs key :
  exits_only_at_unwrap (decryptRSA P cs key).
Proof.
  unfold decryptRSA.
  apply exits_only_at_unwrap_bind;
    [apply exits_only_at_unwrap_silent, silent_encType_of | intros z].
  apply exits_only_at_unwrap_bind;
    [apply exits_only_at_unwrap_silent, silent_segment | intros ct].
  cbn. destruct key as [|s|der]; cbn; try settle_exit.
  destruct (load_der_private_key P der) as [k|]; cbn; [|settle_exit].
  destruct (rsa_oaep_sha1_decrypt P k ct); cbn; settle_exit.
Qed.

Lemma exits_getBitwardenSecrets (P : Primitives)
      email password kdf encKey encPrivateKey :
  exits_only_at_unwrap
    (getBitwardenSecrets P email password kdf encKey encPrivateKey).
Proof.
  unfold getBitwardenSecrets.
  apply exits_only_at_unwrap_bind;
    [apply exits_only_at_unwrap_silent; unfold bytes_utf8; repeat silent_step
    | intros salt].
  apply exits_only_at_unwrap_bind;
    [apply exits_only_at_unwrap_silent; unfold iterations_of; repeat silent_step
    | intros iterations].
  apply exits_only_at_unwrap_bind;
    [apply exits_only_at_unwrap_silent, silent_PBKDF2 | intros masterKey].
  apply exits_only_at_unwrap_bind;
    [apply exits_only_at_unwrap_silent, silent_PBKDF2 | intros masterPasswordHash].
  apply exits_only_at_unwrap_bind;
    [apply exits_decryptMasterEncryptionKey | intros [[sym enc] mac]].
  apply exits_only_at_unwrap_bind; [apply quiet_decryptRSAPrivateKey | intros rsa].
  apply exits_only_at_unwrap_silent, silent_ret.
Qed.

Lemma exits_decryptBitwardenJSON (P : Primitives) datafile password :
  exits_only_at_unwrap (decryptBitwardenJSON P datafile password).
Proof.
  apply (closure_decryptBitwardenJSON P (fun A (m : M A) => exits_only_at_unwrap m)).
  - intros A m. apply exits_only_at_unwrap_silent.
  - intros A B m f. apply exits_only_at_unwrap_bind.
  - apply quiet_decryptCipherString.
  - apply quiet_decryptRSA.
  - intros. apply exits_getBitwardenSecrets.
Qed.


(* ================================================================== *)
(** * The organization keys *)
(* ================================================================== *)

Lemma org_find_set_same (k : string) (v : bytes) (d : org_secrets) :
  org_find (JStr k) (org_set (JStr k) v d) = Some v.
Proof.
  induction d as [|[k' v'] d IH]; cbn.
  - now rewrite String.eqb_refl.
  - destruct (key_eqb k' (JStr k)) eqn:E; cbn; now rewrite E.
Qed.

Lemma org_find_set_other (k id : string) (v : bytes) (d : org_secrets) :
  id <> k ->
  org_find (JStr id) (org_set (JStr k) v d) = org_find (JStr id) d.
Proof.
  intros Hne. induction d as [|[k' v'] d IH]; cbn.
  - destruct (String.eqb k id) eqn:E; [|reflexivity].
    apply String.eqb_eq in E. congruence.
  - destruct (key_eqb k' (JStr k)) eqn:E; cbn.
    + destruct k'; try discriminate. cbn in E. apply String.eqb_eq in E. subst s.
      cbn. destruct (String.eqb k id) eqn:E'; [|reflexivity].
      apply String.eqb_eq in E'. congruence.
    + now rewrite IH.
Qed.

Lemma assoc_get_in {V} (k : string) (d : list (string * V)) :
  In k (map fst d) <-> assoc_get k d <> None.
Proof.
  induction d as [|[k' v] d IH]; cbn; [tauto|].
  destruct (String.eqb k' k) eqn:E.
  - apply String.eqb_eq in E. split; [discriminate | now left].
  - apply String.eqb_neq in E. rewrite <- IH. tauto.
Qed.

Lemma unwrap_org_key_inv (P : Primitives) orgs rsa acc (k : string) acc' :
  outcome (unwrap_org_key P (JObj orgs) rsa acc (JStr k)) = Ret acc' ->
  exists wrapped key,
    assoc_get k orgs = Some wrapped
    /\ outcome (decryptRSA P wrapped rsa) = Ret key
    /\ acc' = org_set (JStr k) key acc.
Proof.
  unfold unwrap_org_key. cbn [subscript].
  destruct (assoc_get k orgs) as [wrapped|]; [|discriminate].
  cbn [lift]. rewrite bind_ret_l, outcome_bind.
  destruct (outcome (decryptRSA P wrapped rsa)) as [key|e|c] eqn:Hd;
    try discriminate.
  cbn. intros [= <-]. now exists wrapped, key.
Qed.

Lemma unwrap_org_keys_loop (P : Primitives) orgs rsa ms acc out :
  outcome (for_each (map (fun kv : string * json => JStr (fst kv)) ms)
                    (unwrap_org_key P (JObj orgs) rsa) acc) = Ret out ->
  forall id,
    (In id (map fst ms) ->
     exists wrapped key,
       assoc_get id orgs = Some wrapped
       /\ outcome (decryptRSA P wrapped rsa) = Ret key
       /\ org_find (JStr id) out = Some key)
    /\ (~ In id (map fst ms) -> org_find (JStr id) out = org_find (JStr id) acc).
Proof.
  revert acc. induction ms as [|[k v] ms IH]; intros acc H id.
  - cbn in H. injection H as <-. split; [intros [] | reflexivity].
  - cbn [map for_each fst] in H. rewrite outcome_bind in H.
    destruct (outcome (unwrap_org_key P (JObj orgs) rsa acc (JStr k)))
      as [acc1|e|c] eqn:Hk; try discriminate.
    apply unwrap_org_key_inv in Hk. destruct Hk as (wrapped & key & Hw & Hd & ->).
    destruct (IH _ H id) as [Hin Hout].
    destruct (in_dec string_dec id (map fst ms)) as [Hi|Hi].
    + split; [intros _; now apply Hin | intros Hn; exfalso; apply Hn; now right].
    + rewrite (Hout Hi). destruct (string_dec id k) as [->|Hne].
      * split; [intros _ | intros Hn; exfalso; apply Hn; now left].
        exists wrapped, key. now rewrite org_find_set_same.
      * rewrite (org_find_set_other _ _ _ _ Hne).
        split; [intros [E|Hi']; [cbn in E; congruence | contradiction] | reflexivity].
Qed.

(** X8.  The loop over [encOrgKeys] is all or nothing.  When it comes to
    its end, [OrgSecrets] holds, for every organization id of the export,
    the RSA decryption of that organization's wrapped key under the
    user's private key, and it holds nothing under any other id; one key
    that cannot be unwrapped ends the loop, and the run, for all of
    them. *)
Theorem org_secrets_hold_every_unwrapped_key
        (P : Primitives) (datafile : json) (secrets : BitwardenSecrets)
        (orgs : list (string * json)) (OrgSecrets : org_secrets) :
  getitem datafile "encOrgKeys" = ret (JObj orgs) ->
  outcome (unwrap_org_keys P datafile secrets) = Ret OrgSecrets ->
  forall id,
    match assoc_get id orgs with
    | Some wrapped =>
        exists key,
          outcome (decryptRSA P wrapped (RSAPrivateKey secrets)) = Ret key
          /\ org_find (JStr id) OrgSecrets = Some key
    | None => org_find (JStr id) OrgSecrets = None
    end.
Proof.
  intros Hget H id. unfold unwrap_org_keys in H.
  rewrite Hget, bind_ret_l in H. cbn [iterate] in H. rewrite bind_ret_l in H.
  destruct (unwrap_org_keys_loop P _ _ _ _ _ H id) as [Hin Hout].
  destruct (assoc_get id orgs) as [wrapped|] eqn:Hw.
  - destruct Hin as (w & key & [= <-] & Hd & Hf).
    { apply assoc_get_in. congruence. }
    now exists key.
  - apply Hout. intros Hi. now apply assoc_get_in in Hi.
Qed.

Lemma org_secrets_witness :
  (exists key,
      outcome (decryptRSA Toy.primitives (JStr Sample.encOrgKey)
                          (PyBytes Sample.der)) = Ret key
      /\ org_find (JStr "org1")
                  [(JStr "org1", (Sample.org_enc ++ Sample.org_mac)%list)]
         = Some key)
  /\ org_find (JStr "org2") [(JStr "org1", (Sample.org_enc ++ Sample.org_mac)%list)]
     = None.
Proof.
  assert (H : getitem (Sample.member []) "encOrgKeys"
              = ret (JObj [("org1", JStr Sample.encOrgKey)])) by reflexivity.
  assert (H' : outcome
                 (unwrap_org_keys Toy.primitives (Sample.member [])
                    {| MasterKey := Sample.masterKey;
                       MasterPasswordHash := base64_b64encode Sample.hash;
                       StretchedEncryptionKey :=
                         stretched_enc Toy.primitives Sample.masterKey;
                       StretchedMacKey :=
                         stretched_mac Toy.primitives Sample.masterKey;
                       GeneratedSymmetricKey :=
                         (Sample.user_enc ++ Sample.user_mac)%list;
                       GeneratedEncryptionKey := Sample.user_enc;
                       GeneratedMACKey := Sample.user_mac;
                       RSAPrivateKey := PyBytes Sample.der |})
               = Ret [(JStr "org1", (Sample.org_enc ++ Sample.org_mac)%list)])
    by (vm_compute; reflexivity).
  split.
  - exact (org_secrets_hold_every_unwrapped_key _ _ _ _ _ H H' "org1").
  - exact (org_secrets_hold_every_unwrapped_key _ _ _ _ _ H H' "org2").
Defined.

(* ================================================================== *)
(** * The walk over the groups of the vault *)
(* ================================================================== *)

Lemma for_each_ext {A S} (xs : list A) (f g : S -> A -> M S) (acc : S) :
  (forall s a, f s a = g s a) -> for_each xs f acc = for_each xs g acc.
Proof.
  intros H. revert acc. induction xs as [|x xs IH]; intros acc; [reflexivity|].
  cbn [for_each]. rewrite H. now apply bind_ext.
Qed.

Lemma for_each_outcome_inv {A S} (I : S -> Prop) (xs : list A)
      (body : S -> A -> M S) (acc out : S) :
  I acc ->
  (forall s a s', In a xs -> I s -> outcome (body s a) = Ret s' -> I s') ->
  outcome (for_each xs body acc) = Ret out -> I out.
Proof.
  revert acc. induction xs as [|x xs IH]; intros acc Hacc Hstep H.
  - cbn in H. now injection H as <-.
  - cbn [for_each] in H. rewrite outcome_bind in H.
    destruct (outcome (body acc x)) as [s|e|c] eqn:Hx; try discriminate.
    apply (IH s); [| |assumption].
    + apply (Hstep acc x s); [now left | assumption | assumption].
    + intros s0 a s' Hin. apply Hstep. now right.
Qed.

(** X9.  Of the secrets of the key chain the walk over the vault reads
    two only, the user's content encryption key and content MAC key: the
    master key, its hash, the stretched keys, the symmetric key as a
    whole and the RSA private key play no part in what happens to the
    records. *)
Theorem walk_reads_the_two_content_keys_only
        (P : Primitives) (datafile : json) (s1 s2 : BitwardenSecrets)
        (OrgSecrets : org_secrets) :
  GeneratedEncryptionKey s1 = GeneratedEncryptionKey s2 ->
  GeneratedMACKey s1 = GeneratedMACKey s2 ->
  walk_groups P datafile s1 OrgSecrets = walk_groups P datafile s2 OrgSecrets.
Proof.
  intros He Hm. unfold walk_groups. apply bind_ext. intros keys.
  f_equal. apply for_each_ext. intros [vars out] a. unfold walk_key.
  destruct a; try reflexivity. destruct (group_of s); [|reflexivity].
  do 3 (apply bind_ext; intros ?). f_equal.
  apply for_each_ext. intros acc b. unfold walk_member.
  do 2 (apply bind_ext; intros ?).
  apply for_each_ext. intros [vars' l] c. unfold walk_entry.
  apply bind_ext. intros groupItem. destruct groupItem; try reflexivity.
  unfold select_keys. now rewrite He, Hm.
Qed.

Lemma walk_reads_two_keys_witness :
  walk_groups Toy.primitives
    (Sample.personal [("folders_u1", JObj [("f1", Sample.folder_Work)])])
    Sample.secrets []
  = walk_groups Toy.primitives
      (Sample.personal [("folders_u1", JObj [("f1", Sample.folder_Work)])])
      {| MasterKey := [];
         MasterPasswordHash := EmptyString;
         StretchedEncryptionKey := [];
         StretchedMacKey := [];
         GeneratedSymmetricKey := [];
         GeneratedEncryptionKey := Sample.user_enc;
         GeneratedMACKey := Sample.user_mac;
         RSAPrivateKey := PyStr MAC_ERROR_RSA |}
      [].
Proof.
  apply walk_reads_the_two_content_keys_only; reflexivity.
Defined.

(** ** Records without encrypted fields *)

Lemma plain_entries_pass_through (P : Primitives) datafile secrets OrgSecrets
      (rs : list json) (vars : key_vars) (acc : list json) :
  forallb wf rs = true -> forallb is_object rs = true ->
  (forall r, In r rs -> Re.findall regexPattern (dumps r) = []) ->
  exists vars',
    for_each rs (walk_entry P datafile secrets OrgSecrets) (vars, acc)
    = ret (vars', (acc ++ rs)%list).
Proof.
  revert vars acc. induction rs as [|r rs IH]; intros vars acc Hwf Hobj Hplain.
  - exists vars. cbn. now rewrite List.app_nil_r.
  - cbn [forallb] in Hwf, Hobj.
    apply andb_true_iff in Hwf as [Hr Hwf]. apply andb_true_iff in Hobj as [Ho Hobj].
    destruct r as [| | | | |members]; try discriminate.
    destruct (walk_entry_no_match P datafile secrets OrgSecrets vars acc members Hr)
      as [vars1 H1]; [apply Hplain; now left|].
    destruct (IH vars1 (acc ++ [JObj members])%list Hwf Hobj) as [vars2 H2].
    { intros r Hin. apply Hplain. now right. }
    exists vars2. cbn [for_each]. rewrite H1, bind_ret_l, H2.
    now rewrite <- List.app_assoc.
Qed.

Lemma wf_members (members : list (string * json)) :
  wf (JObj members) = true ->
  forallb (fun kv : string * json => let (_, x) := kv in wf x) members = true.
Proof. cbn [wf]. intros H. now apply andb_true_iff in H as [_ H]. Qed.

(** X10.  A section of the export none of whose records holds a match of
    the pattern goes through the walker without a single library call
    and without an error: its group in the output is the list of the
    section's members that are objects, in their order and unchanged
    (their [userId] included), and it replaces what the group held. *)
Theorem plain_section_is_copied
        (P : Primitives) (datafile : json) (secrets : BitwardenSecrets)
        (OrgSecrets : org_secrets) (name group : string)
        (members : list (string * json)) (vars : key_vars)
        (decryptedEntries : list (string * list json)) :
  group_of name = Some group ->
  getitem datafile name = ret (JObj members) ->
  wf (JObj members) = true ->
  (forall r, In r (records_of members) -> Re.findall regexPattern (dumps r) = []) ->
  exists vars',
    walk_key P datafile secrets OrgSecrets (vars, decryptedEntries) (JStr name)
    = ret (vars', assoc_set group (records_of members) decryptedEntries).
Proof.
  intros Hg Hget Hwf Hplain. unfold walk_key. rewrite Hg.
  unfold getitem in Hget. rewrite Hget, bind_ret_l.
  rewrite (copy_wf _ Hwf), bind_ret_l. cbn [dict_items]. rewrite bind_ret_l.
  rewrite (walk_members_direct P datafile secrets OrgSecrets members _
             (wf_members _ Hwf)).
  destruct (records_of_wf members (wf_members _ Hwf)) as [Hrw Hro].
  destruct (plain_entries_pass_through P datafile secrets OrgSecrets
              (records_of members) vars [] Hrw Hro Hplain) as [vars' ->].
  rewrite bind_ret_l. now exists vars'.
Qed.

Lemma plain_section_witness :
  exists vars',
    walk_key Toy.primitives
      (Sample.personal
         [("folders_u1", JObj [("f2", Sample.folder_plain); ("n", JNum 3)])])
      Sample.secrets []
      ({| encKey_var := None; macKey_var := None |},
       [("folders", [JNull]); ("items", [])])
      (JStr "folders_u1")
    = ret (vars', assoc_set "folders"
                    (records_of [("f2", Sample.folder_plain); ("n", JNum 3)])
                    [("folders", [JNull]); ("items", [])]).
Proof.
  apply (plain_section_is_copied Toy.primitives); try reflexivity.
  intros r [<- | []]. vm_compute. reflexivity.
Defined.

(** ** The members of the output *)

Lemma group_of_names (name group : string) :
  group_of name = Some group -> In group group_names.
Proof.
  unfold group_of, group_names.
  repeat match goal with
         | |- (if ?b then _ else _) = _ -> _ => destruct b
         end; intros [= <-]; cbn; tauto.
Qed.

Lemma assoc_set_keys {V} (k : string) (v : V) (d : list (string * V)) :
  map fst (assoc_set k v d)
  = if existsb (String.eqb k) (map fst d) then map fst d
    else (map fst d ++ [k])%list.
Proof.
  induction d as [|[k' v'] d IH]; [reflexivity|]. cbn.
  rewrite (String.eqb_sym k k').
  destruct (String.eqb k' k); cbn; [reflexivity|].
  rewrite IH. now destruct (existsb (String.eqb k) (map fst d)).
Qed.

Lemma distinct_snoc (k : string) (l : list string) :
  distinct l = true -> existsb (String.eqb k) l = false ->
  distinct (l ++ [k]) = true.
Proof.
  induction l as [|x l IH]; [reflexivity|]. cbn.
  intros H Hk. apply andb_true_iff in H as [Hx Hl].
  apply orb_false_iff in Hk as [Hkx Hk].
  rewrite (IH Hl Hk), andb_true_r.
  rewrite existsb_app. cbn. rewrite orb_false_r.
  apply negb_true_iff in Hx. rewrite Hx. cbn.
  now rewrite String.eqb_sym, Hkx.
Qed.

(* ================================================================== *)
(** * What [json.loads] returns *)
(* ================================================================== *)

Lemma assoc_set_distinct {V} (k : string) (v : V) (d : list (string * V)) :
  distinct (map fst d) = true -> distinct (map fst (assoc_set k v d)) = true.
Proof.
  intros H. rewrite assoc_set_keys.
  destruct (existsb (String.eqb k) (map fst d)) eqn:E; [assumption|].
  now apply distinct_snoc.
Qed.

Lemma assoc_set_forallb {V} (Q : string * V -> bool) (k : string) (v : V)
      (d : list (string * V)) :
  (forall k', Q (k', v) = true) -> forallb Q d = true ->
  forallb Q (assoc_set k v d) = true.
Proof.
  intros Hv. induction d as [|[k' v'] d IH]; cbn.
  - intros _. now rewrite Hv.
  - intros H. apply andb_true_iff in H as [H1 H2].
    destruct (String.eqb k' k); cbn; [now rewrite Hv, H2 | now rewrite H1, IH].
Qed.

Lemma dict_of_pairs_wf (pairs : list (string * json)) :
  forallb (fun kv : string * json => wf (snd kv)) pairs = true ->
  wf (JObj (dict_of_pairs pairs)) = true.
Proof.
  unfold dict_of_pairs.
  assert (G : forall acc,
             wf (JObj acc) = true ->
             forallb (fun kv : string * json => wf (snd kv)) pairs = true ->
             wf (JObj (fold_left (fun d kv => assoc_set (fst kv) (snd kv) d)
                                 pairs acc)) = true).
  { induction pairs as [|[k v] pairs IH]; intros acc Hacc Hp; [assumption|].
    cbn [forallb snd] in Hp. apply andb_true_iff in Hp as [Hv Hp].
    cbn [fold_left fst snd]. apply IH; [|assumption].
    cbn [wf] in *. apply andb_true_iff in Hacc as [Hd Hf].
    rewrite (assoc_set_distinct _ _ _ Hd). cbn [andb].
    now apply assoc_set_forallb. }
  now apply G.
Qed.

Lemma scan_number_wf (s : string) (v : json) (rest : string) :
  scan_number s = Some (v, rest) -> wf v = true.
Proof.
  unfold scan_number.
  repeat match goal with
         | |- match ?x with _ => _ end = _ -> _ => destruct x
         | |- (if ?b then _ else _) = _ -> _ => destruct b
         end; try discriminate; now intros [= <- _].
Qed.

Lemma parse_wf (fuel : nat) :
  (forall s v rest, parse_value fuel s = Some (v, rest) -> wf v = true)
  /\ (forall s vs rest, parse_items fuel s = Some (vs, rest) ->
                        forallb wf vs = true)
  /\ (forall s kvs rest, parse_members fuel s = Some (kvs, rest) ->
                         forallb (fun kv : string * json => wf (snd kv)) kvs = true).
Proof.
  induction fuel as [|fuel (IHv & IHi & IHm)]; [repeat split; discriminate|].
  repeat split.
  - intros s v rest H. cbn [parse_value] in H.
    destruct s as [|c s']; [discriminate|].
    destruct (Ascii.eqb c dq).
    { destruct (scan_string s') as [[body r]|]; [|discriminate].
      now injection H as <- _. }
    destruct (Ascii.eqb c "[").
    { assert (G : forall s1, match parse_items fuel s1 with
                             | Some (items, rest) => Some (JArr items, rest)
                             | None => None
                             end = Some (v, rest) -> wf v = true).
      { intros s1 H1. destruct (parse_items fuel s1) as [[items r]|] eqn:Hi;
          [|discriminate].
        injection H1 as <- _. cbn [wf]. now apply (IHi _ _ _ Hi). }
      destruct (skip_ws s') as [|c1 r1]; [exact (G _ H)|].
      each_char c1; cbv beta iota in H;
        first [ exact (G _ H) | now injection H as <- _ ]. }
    destruct (Ascii.eqb c "{").
    { assert (G : forall s1, match parse_members fuel s1 with
                             | Some (pairs, rest) =>
                                 Some (JObj (dict_of_pairs pairs), rest)
                             | None => None
                             end = Some (v, rest) -> wf v = true).
      { intros s1 H1. destruct (parse_members fuel s1) as [[pairs r]|] eqn:Hi;
          [|discriminate].
        injection H1 as <- _. apply dict_of_pairs_wf. now apply (IHm _ _ _ Hi). }
      destruct (skip_ws s') as [|c1 r1]; [exact (G _ H)|].
      each_char c1; cbv beta iota in H;
        first [ exact (G _ H) | now injection H as <- _ ]. }
    destruct (Str.has_prefix "null" _); [now injection H as <- _|].
    destruct (Str.has_prefix "true" _); [now injection H as <- _|].
    destruct (Str.has_prefix "false" _); [now injection H as <- _|].
    now apply scan_number_wf in H.
  - intros s vs rest H. cbn [parse_items] in H.
    destruct (parse_value fuel s) as [[v r]|] eqn:Hv; [|discriminate].
    apply IHv in Hv.
    destruct (skip_ws r) as [|c1 r1]; [discriminate|].
    each_char c1; cbv beta iota in H; try discriminate.
    + injection H as <- _. cbn. now rewrite Hv.
    + destruct (parse_items fuel (skip_ws r1)) as [[vs' r']|] eqn:Hi;
        [|discriminate].
      injection H as <- _. cbn [forallb]. now rewrite Hv, (IHi _ _ _ Hi).
  - intros s kvs rest H. cbn [parse_members] in H.
    destruct s as [|c s']; [discriminate|].
    destruct (negb (Ascii.eqb c dq)); [discriminate|].
    destruct (scan_string s') as [[k r]|]; [|discriminate].
    destruct (skip_ws r) as [|c1 r1]; [discriminate|].
    each_char c1; cbv beta iota in H; try discriminate.
    destruct (parse_value fuel (skip_ws r1)) as [[v r2]|] eqn:Hv; [|discriminate].
    apply IHv in Hv.
    destruct (skip_ws r2) as [|c2 r3]; [discriminate|].
    each_char c2; cbv beta iota in H; try discriminate.
    + injection H as <- _. cbn. now rewrite Hv.
    + destruct (parse_members fuel (skip_ws r3)) as [[kvs' r']|] eqn:Hi;
        [|discriminate].
      injection H as <- _. cbn [forallb snd]. now rewrite Hv, (IHm _ _ _ Hi).
Qed.

Lemma loads_wf (s : string) (v : json) : loads s = Some v -> wf v = true.
Proof.
  unfold loads.
  destruct (parse_value _ _) as [[v' rest]|] eqn:H; [|discriminate].
  destruct (skip_ws rest); [|discriminate].
  intros [= <-]. now apply (proj1 (parse_wf _)) in H.
Qed.

(* ================================================================== *)
(** * The document that comes out *)
(* ================================================================== *)

Lemma walk_entry_inv (P : Primitives) datafile secrets OrgSecrets
      vars l (c : json) vars' l' :
  outcome (walk_entry P datafile secrets OrgSecrets (vars, l) c) = Ret (vars', l') ->
  l' = l \/ exists record, wf record = true /\ l' = (l ++ [record])%list.
Proof.
  unfold walk_entry. intros H.
  apply outcome_bind_ret in H. destruct H as (groupItem & _ & H).
  destruct groupItem; try (injection H as _ <-; now left).
  apply outcome_bind_ret in H. destruct H as (vars1 & _ & H).
  apply outcome_bind_ret in H. destruct H as (text & _ & H).
  apply outcome_bind_ret in H. destruct H as (record & Hl & H).
  injection H as _ <-. right. exists record. split; [|reflexivity].
  destruct (loads text) as [r|] eqn:E; [|discriminate].
  injection Hl as <-. now apply loads_wf in E.
Qed.

Lemma walk_member_inv (P : Primitives) datafile secrets OrgSecrets
      vars l (b : string * json) vars' l' :
  forallb wf l = true ->
  outcome (walk_member P datafile secrets OrgSecrets (vars, l) b) = Ret (vars', l') ->
  forallb wf l' = true.
Proof.
  unfold walk_member. intros Hl H.
  apply outcome_bind_ret in H. destruct H as (groupEntries & _ & H).
  apply outcome_bind_ret in H. destruct H as (entries & _ & H).
  revert H.
  apply (for_each_outcome_inv
           (fun s : key_vars * list json => forallb wf (snd s) = true)
           entries _ (vars, l) (vars', l')); [assumption|].
  intros [v0 l0] c [v1 l1] _ H0 H1. cbn [snd] in *.
  apply walk_entry_inv in H1. destruct H1 as [-> | (record & Hr & ->)];
    [assumption|].
  rewrite forallb_app, H0. cbn. now rewrite Hr.
Qed.

Lemma walk_key_inv (P : Primitives) datafile secrets OrgSecrets
      vars out (a : json) vars' out' :
  outcome (walk_key P datafile secrets OrgSecrets (vars, out) a) = Ret (vars', out') ->
  exists name,
    a = JStr name
    /\ match group_of name with
       | Some group =>
           exists l, forallb wf l = true /\ out' = assoc_set group l out
       | None => out' = out
       end.
Proof.
  unfold walk_key. destruct a as [| | |name| |]; try discriminate.
  intros H. exists name. split; [reflexivity|].
  destruct (group_of name) as [group|]; [|now injection H as _ <-].
  apply outcome_bind_ret in H. destruct H as (value & _ & H).
  apply outcome_bind_ret in H. destruct H as (groupData & _ & H).
  apply outcome_bind_ret in H. destruct H as (members & _ & H).
  apply outcome_bind_ret in H. destruct H as ([vars0 l] & Hloop & H).
  injection H as _ <-. exists l. split; [|reflexivity].
  revert Hloop.
  apply (for_each_outcome_inv
           (fun s : key_vars * list json => forallb wf (snd s) = true)
           members _ (vars, []) (vars0, l)); [reflexivity|].
  intros [v0 l0] b [v1 l1] _ H0 H1. cbn [snd] in *.
  now apply (walk_member_inv P datafile secrets OrgSecrets v0 l0 b v1 l1).
Qed.

Lemma wf_entries_json (out : list (string * list json)) :
  wf (entries_json out)
  = distinct (map fst out)
    && forallb (fun gl : string * list json => forallb wf (snd gl)) out.
Proof.
  unfold entries_json. cbn [wf]. f_equal.
  - rewrite map_map. f_equal. apply map_ext. now intros [g l].
  - induction out as [|[g l] out IH]; [reflexivity|].
    cbn [map forallb snd wf]. now rewrite IH.
Qed.

Lemma distinct_NoDup (l : list string) : distinct l = true -> NoDup l.
Proof.
  induction l as [|k l IH]; [constructor|]. cbn.
  intros H. apply andb_true_iff in H as [Hk Hl]. constructor; [|now apply IH].
  intros Hin. apply negb_true_iff in Hk.
  assert (E : existsb (String.eqb k) l = true).
  { apply existsb_exists. exists k. split; [assumption | apply String.eqb_refl]. }
  congruence.
Qed.

Lemma walk_groups_output (P : Primitives) datafile secrets OrgSecrets out :
  outcome (walk_groups P datafile secrets OrgSecrets) = Ret out ->
  wf (entries_json out) = true /\ incl (map fst out) group_names.
Proof.
  unfold walk_groups. intros H.
  apply outcome_bind_ret in H. destruct H as (keys & _ & H).
  apply outcome_bind_ret in H. destruct H as ([vars out'] & Hloop & H).
  injection H as <-. revert Hloop.
  apply (for_each_outcome_inv
           (fun s : key_vars * list (string * list json) =>
              wf (entries_json (snd s)) = true /\ incl (map fst (snd s)) group_names)
           keys _ (_, []) (vars, out')).
  - split; [reflexivity | intros g []].
  - intros [v0 o0] a [v1 o1] _ [Hwf Hin] H1. cbn [snd] in *.
    apply walk_key_inv in H1. destruct H1 as (name & -> & H1).
    destruct (group_of name) as [group|] eqn:Hg; [|subst o1; now split].
    destruct H1 as (l & Hl & ->).
    rewrite wf_entries_json in *. apply andb_true_iff in Hwf as [Hd Hf]. split.
    + rewrite (assoc_set_distinct _ _ _ Hd). cbn [andb].
      now apply assoc_set_forallb.
    + rewrite assoc_set_keys. destruct (existsb _ _); [assumption|].
      apply incl_app; [assumption|].
      intros g [<- | []]. now apply (group_of_names name).
Qed.

Lemma decryptBitwardenJSON_output (P : Primitives) datafile password out :
  outcome (decryptBitwardenJSON P datafile password) = Ret out ->
  wf (entries_json out) = true /\ incl (map fst out) group_names.
Proof.
  unfold decryptBitwardenJSON. intros H.
  do 6 (apply outcome_bind_ret in H; destruct H as (? & _ & H)).
  now apply walk_groups_output in H.
Qed.

(** X11.  Whatever the export, the document that the pipeline returns
    has no member besides [folders], [items], [organizations] and
    [collections], has each of them at most once, and is well formed: no
    object anywhere in it has a repeated key.  Nothing else of the export
    (the e-mail address, the protected keys, the other sections) is
    carried over. *)
Theorem output_has_the_four_groups_only
        (P : Primitives) (datafile : json) (password : bytes)
        (decryptedEntries : list (string * list json)) :
  outcome (decryptBitwardenJSON P datafile password) = Ret decryptedEntries ->
  incl (map fst decryptedEntries) group_names
  /\ NoDup (map fst decryptedEntries)
  /\ wf (entries_json decryptedEntries) = true.
Proof.
  intros H. apply decryptBitwardenJSON_output in H. destruct H as [Hwf Hin].
  repeat split; try assumption.
  rewrite wf_entries_json in Hwf. apply andb_true_iff in Hwf as [Hd _].
  now apply distinct_NoDup.
Qed.

Lemma output_groups_witness :
  incl (map fst [("folders",
                  [JObj [("id", JStr "f1"); ("name", JStr "Work");
                         ("revisionDate", JStr "2021-01-01")]])])
       group_names
  /\ NoDup (map fst [("folders",
                      [JObj [("id", JStr "f1"); ("name", JStr "Work");
                             ("revisionDate", JStr "2021-01-01")]])])
  /\ wf (entries_json
           [("folders",
             [JObj [("id", JStr "f1"); ("name", JStr "Work");
                    ("revisionDate", JStr "2021-01-01")]])]) = true.
Proof.
  apply (output_has_the_four_groups_only
           Toy.primitives
           (Sample.personal [("folders_u1", JObj [("f1", Sample.folder_Work)])])
           Sample.password).
  vm_compute. reflexivity.
Defined.

(** ** Two sections of the same kind *)

Lemma assoc_get_set_other {V} (k k' : string) (v : V) (d : list (string * V)) :
  k <> k' -> assoc_get k (assoc_set k' v d) = assoc_get k d.
Proof.
  intros Hne. induction d as [|[k0 v0] d IH]; cbn.
  - destruct (String.eqb k' k) eqn:E; [|reflexivity].
    apply String.eqb_eq in E. congruence.
  - destruct (String.eqb k0 k') eqn:E; cbn.
    + apply String.eqb_eq in E. subst k0.
      destruct (String.eqb k' k) eqn:E'; [|reflexivity].
      apply String.eqb_eq in E'. congruence.
    + now rewrite IH.
Qed.

Lemma assoc_get_middle {V} (k : string) (x : V) (pre post : list (string * V)) :
  distinct (map fst (pre ++ (k, x) :: post)%list) = true ->
  assoc_get k (pre ++ (k, x) :: post)%list = Some x.
Proof.
  induction pre as [|[k' v'] pre IH]; cbn.
  - intros _. now rewrite String.eqb_refl.
  - intros H. apply andb_true_iff in H as [Hk Hd].
    apply negb_true_iff in Hk. rewrite map_app, existsb_app in Hk.
    apply orb_false_iff in Hk as [_ Hk]. cbn in Hk.
    apply orb_false_iff in Hk as [Hk _]. rewrite Hk. now apply IH.
Qed.

Lemma last_section_in_walk (P : Primitives) secrets OrgSecrets
      (pre post ms : list (string * json)) (name group : string)
      (out : list (string * list json)) :
  wf (JObj (pre ++ (name, JObj ms) :: post)%list) = true ->
  group_of name = Some group ->
  (forall k v, In (k, v) post -> group_of k <> Some group) ->
  outcome (walk_groups P (JObj (pre ++ (name, JObj ms) :: post)%list)
                       secrets OrgSecrets) = Ret out ->
  exists vars vars' l,
    assoc_get group out = Some l
    /\ outcome (for_each (records_of ms)
                         (walk_entry P (JObj (pre ++ (name, JObj ms) :: post)%list)
                                     secrets OrgSecrets)
                         (vars, [])) = Ret (vars', l)
    /\ List.length l = List.length (records_of ms).
Proof.
  intros Hwf Hg Hpost H.
  set (datafile := JObj (pre ++ (name, JObj ms) :: post)%list) in *.
  assert (Hd : distinct (map fst (pre ++ (name, JObj ms) :: post)%list) = true).
  { cbn [wf] in Hwf. now apply andb_true_iff in Hwf as [Hd _]. }
  assert (Hms : wf (JObj ms) = true).
  { apply wf_members in Hwf. rewrite forallb_forall in Hwf.
    apply (Hwf (name, JObj ms)). apply in_or_app. right. now left. }
  unfold walk_groups in H.
  apply outcome_bind_ret in H. destruct H as (keys & Hkeys & H).
  cbn in Hkeys. injection Hkeys as <-.
  apply outcome_bind_ret in H. destruct H as ([varsN outN] & Hloop & H).
  injection H as <-.
  rewrite map_app in Hloop. cbn [map fst] in Hloop.
  rewrite for_each_app in Hloop.
  apply outcome_bind_ret in Hloop. destruct Hloop as ([vars1 out1] & _ & Hloop).
  cbn [for_each] in Hloop.
  apply outcome_bind_ret in Hloop. destruct Hloop as ([vars2 out2] & Hkey & Hloop).
  (* the section itself *)
  unfold walk_key in Hkey. rewrite Hg in Hkey. unfold datafile in Hkey at 1.
  cbn [subscript] in Hkey. rewrite (assoc_get_middle _ _ _ _ Hd) in Hkey.
  cbn [lift] in Hkey. rewrite bind_ret_l, (copy_wf _ Hms), bind_ret_l in Hkey.
  cbn [dict_items] in Hkey. rewrite bind_ret_l in Hkey.
  rewrite (walk_members_direct P datafile secrets OrgSecrets ms _
             (wf_members _ Hms)) in Hkey.
  apply outcome_bind_ret in Hkey. destruct Hkey as ([vars' l] & Hrec & Hkey).
  injection Hkey as <- <-.
  destruct (records_of_wf ms (wf_members _ Hms)) as [Hrw Hro].
  pose proof (walk_entries_count P datafile secrets OrgSecrets _ _ _ _ _
                Hrw Hro Hrec) as Hlen.
  exists vars1, vars', l. split; [|split; [exact Hrec | exact Hlen]].
  (* the keys after it *)
  revert Hloop.
  apply (for_each_outcome_inv
           (fun s : key_vars * list (string * list json) =>
              assoc_get group (snd s) = Some l)
           _ _ (vars', assoc_set group l out1) (varsN, outN)).
  - cbn [snd]. apply assoc_get_set.
  - intros [v0 o0] a [v1 o1] Hin H0 H1. cbn [snd] in *.
    apply in_map_iff in Hin. destruct Hin as ([k v] & <- & Hin). cbn [fst] in H1.
    apply walk_key_inv in H1. destruct H1 as (name' & [= <-] & H1).
    destruct (group_of k) as [g'|] eqn:Hk; [|now subst o1].
    destruct H1 as (l' & _ & ->).
    rewrite assoc_get_set_other; [assumption|].
    intros <-. now apply (Hpost k v Hin).
Qed.

(** X12.  When the export has several sections of the same kind (two
    keys that start with [folders_], say), the group of the output holds
    the records of the last of them only: its list is what the walk over
    the objects of that section gives, started from the empty list, and
    it has one entry for each of them.  The records of the earlier
    sections of the kind are not in the output. *)
Theorem last_section_of_a_kind_wins
        (P : Primitives) (password : bytes)
        (pre post ms : list (string * json)) (name group : string)
        (decryptedEntries : list (string * list json)) :
  wf (JObj (pre ++ (name, JObj ms) :: post)%list) = true ->
  group_of name = Some group ->
  (forall k v, In (k, v) post -> group_of k <> Some group) ->
  outcome (decryptBitwardenJSON P (JObj (pre ++ (name, JObj ms) :: post)%list)
                                password) = Ret decryptedEntries ->
  exists secrets OrgSecrets vars vars' l,
    assoc_get group decryptedEntries = Some l
    /\ outcome (for_each (records_of ms)
                         (walk_entry P (JObj (pre ++ (name, JObj ms) :: post)%list)
                                     secrets OrgSecrets)
                         (vars, [])) = Ret (vars', l)
    /\ List.length l = List.length (records_of ms).
Proof.
  intros Hwf Hg Hpost H. unfold decryptBitwardenJSON in H.
  do 4 (apply outcome_bind_ret in H; destruct H as (? & _ & H)).
  apply outcome_bind_ret in H. destruct H as (secrets & _ & H).
  apply outcome_bind_ret in H. destruct H as (OrgSecrets & _ & H).
  exists secrets, OrgSecrets.
  now apply (last_section_in_walk P secrets OrgSecrets pre post ms name group).
Qed.

Lemma last_section_witness :
  exists secrets OrgSecrets vars vars' l,
    assoc_get "folders"
      [("folders", [JObj [("id", JStr "f1"); ("name", JStr "Work");
                          ("revisionDate", JStr "2021-01-01")]]);
       ("items", [])]
    = Some l
    /\ outcome
         (for_each (records_of [("f1", Sample.folder_Work); ("n", JNum 1)])
                   (walk_entry Toy.primitives
                      (Sample.personal
                         [("folders_u1", JObj [("f2", Sample.folder_plain)]);
                          ("folders_u2",
                           JObj [("f1", Sample.folder_Work); ("n", JNum 1)]);
                          ("ciphers_u1", JObj [])])
                      secrets OrgSecrets)
                   (vars, [])) = Ret (vars', l)
    /\ List.length l
       = List.length (records_of [("f1", Sample.folder_Work); ("n", JNum 1)]).
Proof.
  apply (last_section_of_a_kind_wins
           Toy.primitives Sample.password
           [("userEmail", JStr "a@b.c"); ("kdfIterations", JNum 5);
            ("encKey", JStr Sample.encKey); ("encPrivateKey", JNull);
            ("encOrgKeys", JObj []); ("userId", JStr "u1");
            ("folders_u1", JObj [("f2", Sample.folder_plain)])]
           [("ciphers_u1", JObj [])]
           [("f1", Sample.folder_Work); ("n", JNum 1)]
           "folders_u2" "folders").
  - vm_compute. reflexivity.
  - reflexivity.
  - intros k v [[= <- <-] | []] Hk. vm_compute in Hk. discriminate.
  - vm_compute. reflexivity.
Defined.

(* ================================================================== *)
(** * The indented text of the result *)
(* ================================================================== *)

Lemma scan_string_pretty_escape_char (c : ascii) (tail : string) :
  scan_string (Pretty.escape_char c ++ tail) = cons_char c (scan_string tail).
Proof. each_char c; reflexivity. Qed.

Lemma scan_string_pretty_escape (s rest : string) :
  scan_string (Pretty.escape s ++ String dq rest) = Some (s, rest).
Proof.
  induction s as [|c s IH]; cbn [Pretty.escape]; [reflexivity|].
  now rewrite append_assoc, scan_string_pretty_escape_char, IH.
Qed.

Lemma skip_ws_spaces (n : nat) (s : string) :
  skip_ws (Pretty.spaces n ++ s) = skip_ws s.
Proof. induction n as [|n IH]; [reflexivity | exact IH]. Qed.

Lemma skip_ws_newline_indent (level : nat) (s : string) :
  skip_ws (Pretty.newline_indent level ++ s) = skip_ws s.
Proof. unfold Pretty.newline_indent. cbn [append]. apply skip_ws_spaces. Qed.

Lemma ends_value_newline_indent (level : nat) (s : string) :
  Pretty.ends_value (Pretty.newline_indent level ++ s) = true.
Proof. reflexivity. Qed.

Lemma ends_value_stops (rest : string) :
  Pretty.ends_value rest = true ->
  Str.stops is_numchar rest = true /\ starts_fraction rest = false.
Proof.
  unfold Pretty.ends_value. intros H. apply andb_true_iff in H as [H1 H2].
  split; [assumption | now apply negb_true_iff].
Qed.

Lemma pretty_dumps_value_starts (level : nat) (v : json) :
  value_starts (Pretty.dumps level v) = true.
Proof.
  destruct v as [|[|]|n|s|[|x l]|[|kv l]]; try reflexivity.
  destruct (dumps_int_head n) as (c & s & E & Hc). cbn [Pretty.dumps]. rewrite E.
  now apply numchar_value_start.
Qed.

Lemma join_append_value_starts (sep a : string) (l : list string) (tail : string) :
  value_starts a = true -> value_starts (join sep (a :: l) ++ tail) = true.
Proof.
  intros H. cbn [join]. destruct l.
  - now apply value_starts_append.
  - rewrite append_assoc. now apply value_starts_append.
Qed.

Lemma parse_value_array_ws (fuel : nat) (s : string) :
  value_starts (skip_ws s) = true ->
  parse_value (S fuel) (String "[" s) =
  match parse_items fuel (skip_ws s) with
  | Some (items, rest) => Some (JArr items, rest)
  | None => None
  end.
Proof.
  intros H. cbn [parse_value]. change (Ascii.eqb "[" dq) with false.
  change (Ascii.eqb "[" "[") with true. cbv beta iota.
  destruct (skip_ws s) as [|c s1]; [discriminate|].
  each_char c; simpl in H; try discriminate H; reflexivity.
Qed.

Lemma parse_value_object_ws (fuel : nat) (s : string) :
  value_starts (skip_ws s) = true ->
  parse_value (S fuel) (String "{" s) =
  match parse_members fuel (skip_ws s) with
  | Some (pairs, rest) => Some (JObj (dict_of_pairs pairs), rest)
  | None => None
  end.
Proof.
  intros H. cbn [parse_value]. change (Ascii.eqb "{" dq) with false.
  change (Ascii.eqb "{" "[") with false. change (Ascii.eqb "{" "{") with true.
  cbv beta iota.
  destruct (skip_ws s) as [|c s1]; [discriminate|].
  each_char c; simpl in H; try discriminate H; reflexivity.
Qed.

Lemma comma_append (s : string) : "," ++ s = String "," s.
Proof. reflexivity. Qed.

Lemma pretty_parse_items (level : nat) (l : list json) (x : json) :
  Forall Pretty.roundtrips (x :: l) -> forallb wf (x :: l) = true ->
  forall fuel tail rest,
    (items_need (x :: l) <= fuel)%nat ->
    Pretty.ends_value tail = true -> skip_ws tail = String "]" rest ->
    parse_items fuel
      (join ("," ++ Pretty.newline_indent level) (map (Pretty.dumps level) (x :: l))
       ++ tail)
    = Some (x :: l, rest).
Proof.
  revert x. induction l as [|y l IH]; intros x HF Hwf fuel tail rest Hfuel Ht Hs;
    inversion HF as [|? ? Hx HF']; subst;
    cbn [forallb] in Hwf; apply andb_true_iff in Hwf as [Hwx Hwl];
    unfold items_need in Hfuel; cbn [fold_right] in Hfuel;
    (destruct fuel as [|fuel]; [lia|]); cbn [parse_items].
  - cbn [map join]. rewrite (Hx Hwx) by first [lia | assumption].
    rewrite Hs. reflexivity.
  - cbn [map]. rewrite join_cons, !append_assoc.
    change (Pretty.dumps level y :: map (Pretty.dumps level) l)
      with (map (Pretty.dumps level) (y :: l)).
    specialize (IH y HF' Hwl fuel tail rest).
    pose proof (join_append_value_starts
                  ("," ++ Pretty.newline_indent level) (Pretty.dumps level y)
                  (map (Pretty.dumps level) l) tail
                  (pretty_dumps_value_starts level y)) as HJ.
    change (Pretty.dumps level y :: map (Pretty.dumps level) l)
      with (map (Pretty.dumps level) (y :: l)) in HJ.
    set (J := join ("," ++ Pretty.newline_indent level)
                   (map (Pretty.dumps level) (y :: l))) in *.
    rewrite comma_append.
    rewrite (Hx Hwx) by first [lia | reflexivity].
    rewrite skip_ws_comma. cbv beta iota.
    rewrite skip_ws_newline_indent, (skip_ws_value _ HJ).
    rewrite IH by first [assumption | unfold items_need; cbn [fold_right]; lia].
    reflexivity.
Qed.

Lemma pretty_member_shape (level : nat) (k : string) (x : json) (tail : string) :
  Pretty.dumps_member level (k, x) ++ tail
  = String dq (Pretty.escape k
               ++ String dq (String ":" (String " " (Pretty.dumps level x ++ tail)))).
Proof.
  unfold Pretty.dumps_member, Pretty.encode_str. cbn [append].
  now rewrite !append_assoc.
Qed.

Lemma pretty_member_value_starts (level : nat) (kv : string * json) :
  value_starts (Pretty.dumps_member level kv) = true.
Proof. destruct kv as [k x]. reflexivity. Qed.

Lemma pretty_parse_members (level : nat) (l : list (string * json))
      (kv : string * json) :
  Forall (fun kv => Pretty.roundtrips (snd kv)) (kv :: l) ->
  forallb (fun kv : string * json => let (_, x) := kv in wf x) (kv :: l) = true ->
  forall fuel tail rest,
    (members_need (kv :: l) <= fuel)%nat ->
    Pretty.ends_value tail = true -> skip_ws tail = String "}" rest ->
    parse_members fuel
      (join ("," ++ Pretty.newline_indent level)
            (map (Pretty.dumps_member level) (kv :: l))
       ++ tail)
    = Some (kv :: l, rest).
Proof.
  revert kv. induction l as [|kv' l IH];
    intros [k x] HF Hwf fuel tail rest Hfuel Ht Hs;
    inversion HF as [|? ? Hx HF']; subst;
    cbn [forallb] in Hwf; apply andb_true_iff in Hwf as [Hwx Hwl];
    unfold members_need in Hfuel; cbn [fold_right] in Hfuel;
    (destruct fuel as [|fuel]; [lia|]); cbn [snd] in Hx.
  - cbn [map join]. rewrite pretty_member_shape. cbn [parse_members].
    rewrite Ascii.eqb_refl. cbn [negb]. rewrite scan_string_pretty_escape.
    rewrite skip_ws_colon. cbv beta iota.
    rewrite skip_ws_space, skip_ws_value
      by apply value_starts_append, pretty_dumps_value_starts.
    rewrite (Hx Hwx) by first [lia | assumption].
    rewrite Hs. reflexivity.
  - cbn [map]. rewrite join_cons, !append_assoc.
    change (Pretty.dumps_member level kv' :: map (Pretty.dumps_member level) l)
      with (map (Pretty.dumps_member level) (kv' :: l)).
    specialize (IH kv' HF' Hwl fuel tail rest).
    pose proof (join_append_value_starts
                  ("," ++ Pretty.newline_indent level)
                  (Pretty.dumps_member level kv')
                  (map (Pretty.dumps_member level) l) tail
                  (pretty_member_value_starts level kv')) as HJ.
    change (Pretty.dumps_member level kv' :: map (Pretty.dumps_member level) l)
      with (map (Pretty.dumps_member level) (kv' :: l)) in HJ.
    set (J := join ("," ++ Pretty.newline_indent level)
                   (map (Pretty.dumps_member level) (kv' :: l))) in *.
    rewrite comma_append.
    rewrite pretty_member_shape. cbn [parse_members].
    rewrite Ascii.eqb_refl. cbn [negb]. rewrite scan_string_pretty_escape.
    rewrite skip_ws_colon. cbv beta iota.
    rewrite skip_ws_space, skip_ws_value
      by apply value_starts_append, pretty_dumps_value_starts.
    rewrite (Hx Hwx) by first [lia | reflexivity].
    rewrite skip_ws_comma. cbv beta iota.
    rewrite skip_ws_newline_indent, (skip_ws_value _ HJ).
    rewrite IH by first [assumption | unfold members_need; cbn [fold_right]; lia].
    reflexivity.
Qed.

Lemma skip_ws_closing (level : nat) (c : ascii) (rest : string) :
  is_ws c = false ->
  skip_ws (Pretty.newline_indent level ++ String c rest) = String c rest.
Proof.
  intros H. rewrite skip_ws_newline_indent. cbn [skip_ws]. now rewrite H.
Qed.

Lemma pretty_parse_value (v : json) : Pretty.roundtrips v.
Proof.
  induction v as [|b|n|s|items IH|members IH] using json_induction;
    intros Hwf level fuel rest Hfuel Hrest;
    (destruct fuel as [|fuel]; [simpl in Hfuel; lia|]).
  - reflexivity.
  - destruct b; reflexivity.
  - destruct (ends_value_stops _ Hrest) as [Hstop Hfrac].
    destruct (dumps_int_head n) as (c & s & E & Hc).
    cbn [Pretty.dumps]. rewrite <- (scan_number_dumps_int n rest Hstop Hfrac).
    rewrite E. cbn [append]. now apply parse_value_numchar.
  - cbn [Pretty.dumps]. unfold Pretty.encode_str. cbn [append].
    rewrite append_assoc.
    cbn [parse_value append]. rewrite Ascii.eqb_refl.
    now rewrite scan_string_pretty_escape.
  - destruct items as [|x l]; [reflexivity|].
    cbn [Pretty.dumps need] in *. cbn [append]. rewrite !append_assoc.
    pose proof (join_append_value_starts
                  ("," ++ Pretty.newline_indent (S level))
                  (Pretty.dumps (S level) x)
                  (map (Pretty.dumps (S level)) l)
                  (Pretty.newline_indent level ++ "]" ++ rest)
                  (pretty_dumps_value_starts (S level) x)) as HJ.
    change (Pretty.dumps (S level) x :: map (Pretty.dumps (S level)) l)
      with (map (Pretty.dumps (S level)) (x :: l)) in HJ.
    change (String "," (Pretty.newline_indent (S level)))
      with ("," ++ Pretty.newline_indent (S level)).
    rewrite parse_value_array_ws;
      rewrite skip_ws_newline_indent, (skip_ws_value _ HJ); [|exact HJ].
    rewrite (pretty_parse_items (S level) l x IH Hwf fuel _ rest);
      [reflexivity | unfold items_need; lia | reflexivity |].
    now apply skip_ws_closing.
  - destruct members as [|kv l]; [reflexivity|].
    cbn [wf] in Hwf. apply andb_true_iff in Hwf as [Hkeys Hwf].
    cbn [Pretty.dumps need] in *. cbn [append]. rewrite !append_assoc.
    change (fun kv0 : string * json =>
              let (k, x) := kv0 in
              Pretty.encode_str k
              ++ String ":" (String " " (Pretty.dumps (S level) x)))
      with (Pretty.dumps_member (S level)).
    pose proof (join_append_value_starts
                  ("," ++ Pretty.newline_indent (S level))
                  (Pretty.dumps_member (S level) kv)
                  (map (Pretty.dumps_member (S level)) l)
                  (Pretty.newline_indent level ++ "}" ++ rest)
                  (pretty_member_value_starts (S level) kv)) as HJ.
    change (Pretty.dumps_member (S level) kv
              :: map (Pretty.dumps_member (S level)) l)
      with (map (Pretty.dumps_member (S level)) (kv :: l)) in HJ.
    change (String "," (Pretty.newline_indent (S level)))
      with ("," ++ Pretty.newline_indent (S level)).
    rewrite parse_value_object_ws;
      rewrite skip_ws_newline_indent, (skip_ws_value _ HJ); [|exact HJ].
    rewrite (pretty_parse_members (S level) l kv IH Hwf fuel _ rest);
      [now rewrite dict_of_pairs_distinct | unfold members_need; lia
      | reflexivity |].
    now apply skip_ws_closing.
Qed.

Lemma pretty_items_need_bound (sep : string) (d : json -> string)
      (l : list json) (x : json) :
  (1 <= String.length sep)%nat ->
  Forall (fun v => (need v <= 2 * String.length (d v))%nat) (x :: l) ->
  (items_need (x :: l) <= 2 * String.length (join sep (map d (x :: l))) + 1)%nat.
Proof.
  intros Hsep. revert x. induction l as [|y l IH]; intros x HF;
    inversion HF as [|? ? Hx HF']; subst.
  - unfold items_need. cbn [fold_right map join]. lia.
  - specialize (IH y HF'). cbn [map] in *. rewrite join_length_cons.
    set (J := join sep (d y :: map d l)) in *.
    unfold items_need in *. cbn [fold_right] in *. lia.
Qed.

Lemma pretty_members_need_bound (sep : string) (d : string * json -> string)
      (l : list (string * json)) (kv : string * json) :
  (1 <= String.length sep)%nat ->
  Forall (fun kv : string * json =>
            (need (snd kv) <= 2 * String.length (d kv))%nat) (kv :: l) ->
  (members_need (kv :: l) <= 2 * String.length (join sep (map d (kv :: l))) + 1)%nat.
Proof.
  intros Hsep. revert kv. induction l as [|kv' l IH]; intros [k x] HF;
    inversion HF as [|? ? Hx HF']; subst; cbn [snd] in Hx.
  - unfold members_need. cbn [fold_right map join]. lia.
  - specialize (IH kv' HF'). cbn [map] in *. rewrite join_length_cons.
    set (J := join sep (d kv' :: map d l)) in *.
    unfold members_need in *. cbn [fold_right] in *.
    destruct kv' as [k' x']. lia.
Qed.

Lemma pretty_need_bound (v : json) (level : nat) :
  (need v <= 2 * String.length (Pretty.dumps level v))%nat.
Proof.
  revert level.
  induction v as [|b|n|s|items IH|members IH] using json_induction; intros level.
  - simpl. lia.
  - destruct b; simpl; lia.
  - destruct (dumps_int_head n) as (c & s & E & _). cbn [Pretty.dumps need].
    rewrite E. simpl. lia.
  - simpl. lia.
  - destruct items as [|x l]; [simpl; lia|].
    assert (HF : Forall (fun v => (need v
                                   <= 2 * String.length (Pretty.dumps (S level) v))%nat)
                        (x :: l)).
    { revert IH. apply Forall_impl. intros v Hv. apply Hv. }
    pose proof (pretty_items_need_bound
                  ("," ++ Pretty.newline_indent (S level))
                  (Pretty.dumps (S level)) l x
                  ltac:(cbn [append String.length]; lia) HF) as H.
    unfold items_need in H. cbn [Pretty.dumps need].
    set (J := join ("," ++ Pretty.newline_indent (S level))
                   (map (Pretty.dumps (S level)) (x :: l))) in *.
    cbn [append String.length]. rewrite !length_append. lia.
  - destruct members as [|kv l]; [simpl; lia|].
    assert (HF : Forall (fun kv : string * json =>
                           (need (snd kv)
                            <= 2 * String.length
                                     (Pretty.dumps_member (S level) kv))%nat)
                        (kv :: l)).
    { revert IH. apply Forall_impl. intros [k x] Hv. cbn [snd] in *.
      specialize (Hv (S level)). unfold Pretty.dumps_member.
      rewrite !length_append. lia. }
    pose proof (pretty_members_need_bound
                  ("," ++ Pretty.newline_indent (S level))
                  (Pretty.dumps_member (S level)) l kv
                  ltac:(cbn [append String.length]; lia) HF) as H.
    unfold members_need in H. cbn [Pretty.dumps need].
    change (fun kv0 : string * json =>
              let (k, x) := kv0 in
              Pretty.encode_str k ++ ": " ++ Pretty.dumps (S level) x)
      with (Pretty.dumps_member (S level)).
    set (J := join ("," ++ Pretty.newline_indent (S level))
                   (map (Pretty.dumps_member (S level)) (kv :: l))) in *.
    cbn [append String.length]. rewrite !length_append. lia.
Qed.

(** [json.loads] gives back what [json.dumps(.., indent=2,
    ensure_ascii=False)] was given. *)
Lemma loads_pretty_dumps (v : json) :
  wf v = true -> loads (Pretty.dumps 0 v) = Some v.
Proof.
  intros Hwf. unfold loads.
  rewrite skip_ws_value by apply pretty_dumps_value_starts.
  pose proof (pretty_parse_value v Hwf 0 (2 * String.length (Pretty.dumps 0 v) + 2)
                                 EmptyString) as H.
  rewrite append_nil_r in H. rewrite H; [reflexivity | | reflexivity].
  pose proof (pretty_need_bound v 0). lia.
Qed.

(* ================================================================== *)
(** * From the file to the printed text *)
(* ================================================================== *)

Section Runs.

Variable P : Primitives.
Variable json_load : string -> option json.

Lemma inputfile_returns (inputfile : string) (password : bytes) (text : string) :
  outcome (decryptBitwardenJSON_inputfile P json_load inputfile password)
  = Ret text ->
  exists datafile decryptedEntries,
    json_load inputfile = Some datafile
    /\ outcome (decryptBitwardenJSON P datafile password) = Ret decryptedEntries
    /\ text = Pretty.dumps 0 (entries_json decryptedEntries).
Proof.
  unfold decryptBitwardenJSON_inputfile. intros H.
  apply outcome_bind_ret in H. destruct H as (datafile & Hload & H).
  apply outcome_bind_ret in H. destruct H as (userEmail & _ & H).
  apply outcome_bind_ret in H. destruct H as (_ & _ & H).
  apply outcome_bind_ret in H. destruct H as (out & Hrun & H).
  injection H as <-. exists datafile, out.
  destruct (json_load inputfile) as [d|]; [|discriminate].
  injection Hload as <-. now repeat split.
Qed.

(** X13.  The text that [decryptBitwardenJSON] returns for a file is
    valid JSON that [json.loads] reads back as one object whose members
    are the groups of the result, each with the list of its records:
    indentation and unescaped non-ASCII characters lose nothing, and
    the members are among [folders], [items], [organizations] and
    [collections]. *)
Theorem returned_text_loads_back
        (inputfile : string) (password : bytes) (text : string) :
  outcome (decryptBitwardenJSON_inputfile P json_load inputfile password)
  = Ret text ->
  exists datafile decryptedEntries,
    json_load inputfile = Some datafile
    /\ outcome (decryptBitwardenJSON P datafile password) = Ret decryptedEntries
    /\ loads text = Some (entries_json decryptedEntries)
    /\ incl (map fst decryptedEntries) group_names.
Proof.
  intros H. apply inputfile_returns in H.
  destruct H as (datafile & out & Hload & Hrun & ->).
  exists datafile, out. repeat split; try assumption.
  - apply loads_pretty_dumps. now apply (decryptBitwardenJSON_output P datafile password).
  - now apply (decryptBitwardenJSON_output P datafile password).
Qed.

(** X14.  All that [main] can be seen to do.  The file read is the
    one command-line argument when there is exactly one, and
    [data.json] otherwise.  Either [main] returns, having printed one
    thing only, the indented text of the result, which loads back as
    the result; or it exits with status 1 after one of three messages:
    the file could not be opened or parsed, the MAC of the protected
    symmetric key did not match, or its padding was wrong; or it ends
    with an exception and has printed nothing. *)
Theorem main_prints_the_result_or_one_error
        (argv : list string) (password : bytes) :
  let inputfile :=
    if (List.length argv =? 2)%nat then nth 1 argv "data.json" else "data.json" in
  let printed := stdout (trace (main P json_load argv password)) in
  match outcome (main P json_load argv password) with
  | Ret _ =>
      exists datafile decryptedEntries,
        json_load inputfile = Some datafile
        /\ outcome (decryptBitwardenJSON P datafile password) = Ret decryptedEntries
        /\ printed = [Pretty.dumps 0 (entries_json decryptedEntries)]
        /\ loads (Pretty.dumps 0 (entries_json decryptedEntries))
           = Some (entries_json decryptedEntries)
  | Exit code =>
      code = 1%Z
      /\ ((json_load inputfile = None
           /\ printed = ["ERROR: " ++ inputfile ++ " not found."])
          \/ printed = [MAC_ERROR_MASTER]
          \/ printed = [EmptyString; WRONG_PASSWORD])
  | Raise _ => printed = []
  end.
Proof.
  intros inputfile printed. subst printed. unfold main.
  fold inputfile. unfold decryptBitwardenJSON_inputfile.
  destruct (json_load inputfile) as [datafile|] eqn:Hload.
  - rewrite bind_ret_l.
    destruct (silent_inv _ (silent_getitem datafile "userEmail"))
      as [[userEmail|e|c] Hemail]; rewrite Hemail.
    2:{ reflexivity. }
    2:{ destruct (silent_getitem datafile "userEmail") as [_ Hx].
        rewrite Hemail in Hx. now destruct (Hx c). }
    change ([], Ret userEmail) with (ret userEmail). rewrite bind_ret_l.
    pose proof (exits_decryptBitwardenJSON P datafile password) as Hx.
    pose proof (decryptBitwardenJSON_output P datafile password) as Hout.
    destruct (decryptBitwardenJSON P datafile password) as [t [out|e|c]] eqn:E.
    + cbn -[stdout app Pretty.dumps loads entries_json].
      exists datafile, out. specialize (Hout out eq_refl).
      destruct Hout as [Hwf _].
      destruct Hx as [[Hq _] | [Hq _]]; [|discriminate]. cbn in Hq.
      repeat split.
      * now rewrite E.
      * cbn [stdout]. rewrite !stdout_app, Hq. reflexivity.
      * now apply loads_pretty_dumps.
    + cbn. destruct Hx as [[Hq _] | [Hq _]]; [exact Hq | discriminate].
    + cbn. destruct Hx as [[_ Hq] | [Hq Hmsg]]; [now destruct (Hq c)|].
      cbn in Hq, Hmsg. injection Hq as ->. split; [reflexivity|]. now right.
  - cbn. split; [reflexivity|]. left. split; reflexivity.
Qed.

End Runs.

Lemma returned_text_witness :
  exists datafile decryptedEntries,
    (fun _ : string =>
       Some (Sample.personal [("folders_u1", JObj [("f1", Sample.folder_Work)])]))
      "data.json" = Some datafile
    /\ outcome (decryptBitwardenJSON Toy.primitives datafile Sample.password)
       = Ret decryptedEntries
    /\ loads (Pretty.dumps 0
                (entries_json
                   [("folders",
                     [JObj [("id", JStr "f1"); ("name", JStr "Work");
                            ("revisionDate", JStr "2021-01-01")]])]))
       = Some (entries_json decryptedEntries)
    /\ incl (map fst decryptedEntries) group_names.
Proof.
  apply (returned_text_loads_back
           Toy.primitives
           (fun _ : string =>
              Some (Sample.personal
                      [("folders_u1", JObj [("f1", Sample.folder_Work)])]))
           "data.json" Sample.password).
  vm_compute. reflexivity.
Defined.

(* ================================================================== *)
(** * The key chain, when it returns *)
(* ================================================================== *)

Lemma decryptMasterEncryptionKey_inv (P : Primitives) cs key mackey sym enc mac :
  outcome (decryptMasterEncryptionKey P cs key mackey) = Ret (sym, enc, mac) ->
  exists iv ct m d,
    outcome (parse_symmetric P cs) = Ret (iv, ct, m)
    /\ m = hmac_sha256 P mackey (iv ++ ct)%list
    /\ aes_cbc_decrypt P key iv ct = Some d
    /\ pkcs7_unpad P d = Some sym
    /\ enc = slice 0 32 sym
    /\ mac = slice 32 64 sym.
Proof.
  unfold decryptMasterEncryptionKey.
  destruct (parse_symmetric P cs) as [t0 [[[iv ct] m]|e|c]]; cbn -[slice];
    try discriminate.
  destruct (bytes_eqb m (hmac_sha256 P mackey (iv ++ ct)%list)) eqn:Hmac;
    cbn -[slice]; try discriminate.
  destruct (aes_cbc_decrypt P key iv ct) as [d|] eqn:Ha; cbn -[slice];
    try discriminate.
  destruct (pkcs7_unpad P d) as [p|] eqn:Hp; cbn -[slice]; try discriminate.
  intros [= <- <- <-]. exists iv, ct, m, d.
  apply bytes_eqb_eq in Hmac. now repeat split.
Qed.

(** X15.  When the key chain returns, what it returns has been
    verified: the master key is the PBKDF2 derivation from the e-mail
    address, the iteration count and the password, the stored hash is the
    base64 text of the PBKDF2 derivation of the master key with the
    password as salt and one iteration, the stretched keys are the two HKDF expansions of the master key, the MAC
    stored in the protected symmetric key equals the HMAC of its IV and
    ciphertext under the stretched MAC key, the symmetric key is the
    unpadded AES decryption under the stretched encryption key, the two
    content keys are its halves, and the RSA key is what the RSA-key
    routine gives under those content keys. *)
Theorem returned_secrets_are_verified
        (P : Primitives) (email : json) (password : bytes)
        (kdfIterations encKey encPrivateKey : json) (s : BitwardenSecrets) :
  outcome (getBitwardenSecrets P email password kdfIterations encKey encPrivateKey)
  = Ret s ->
  exists salt iterations hash iv ct mac d,
    bytes_utf8 P email = ret salt
    /\ iterations_of kdfIterations = ret iterations
    /\ pbkdf2_hmac_sha256 P salt iterations password = Some (MasterKey s)
    /\ pbkdf2_hmac_sha256 P password 1 (MasterKey s) = Some hash
    /\ MasterPasswordHash s = base64_b64encode hash
    /\ StretchedEncryptionKey s = stretched_enc P (MasterKey s)
    /\ StretchedMacKey s = stretched_mac P (MasterKey s)
    /\ outcome (parse_symmetric P encKey) = Ret (iv, ct, mac)
    /\ mac = hmac_sha256 P (StretchedMacKey s) (iv ++ ct)%list
    /\ aes_cbc_decrypt P (StretchedEncryptionKey s) iv ct = Some d
    /\ pkcs7_unpad P d = Some (GeneratedSymmetricKey s)
    /\ GeneratedEncryptionKey s = slice 0 32 (GeneratedSymmetricKey s)
    /\ GeneratedMACKey s = slice 32 64 (GeneratedSymmetricKey s)
    /\ outcome (decryptRSAPrivateKey P encPrivateKey (GeneratedEncryptionKey s)
                                     (GeneratedMACKey s))
       = Ret (RSAPrivateKey s).
Proof.
  unfold getBitwardenSecrets. intros H.
  apply outcome_bind_ret in H. destruct H as (salt & Hsalt & H).
  apply outcome_bind_ret in H. destruct H as (iterations & Hit & H).
  apply outcome_bind_ret in H. destruct H as (masterKey & Hmk & H).
  apply outcome_bind_ret in H. destruct H as (hash & Hhash & H).
  apply outcome_bind_ret in H. destruct H as ([[sym enc] mac] & Hsym & H).
  apply outcome_bind_ret in H. destruct H as (rsa & Hrsa & H).
  injection H as <-. cbn [MasterKey MasterPasswordHash StretchedEncryptionKey
                          StretchedMacKey GeneratedSymmetricKey
                          GeneratedEncryptionKey GeneratedMACKey RSAPrivateKey].
  apply decryptMasterEncryptionKey_inv in Hsym.
  destruct Hsym as (iv & ct & m & d & Hparse & Hmac & Haes & Hpad & -> & ->).
  exists salt, iterations, hash, iv, ct, m, d.
  assert (Es : bytes_utf8 P email = ret salt).
  { destruct email; try discriminate. now injection Hsalt as <-. }
  assert (Ei : iterations_of kdfIterations = ret iterations).
  { unfold iterations_of in *. destruct (as_index kdfIterations);
      [|discriminate]. now injection Hit as <-. }
  unfold PBKDF2 in Hmk, Hhash.
  destruct (pbkdf2_hmac_sha256 P salt iterations password) as [mk|] eqn:E1;
    [|discriminate].
  injection Hmk as ->.
  destruct (pbkdf2_hmac_sha256 P password 1 masterKey) as [hh|] eqn:E2;
    [|discriminate].
  injection Hhash as ->.
  repeat split; first [assumption | reflexivity].
Qed.

Lemma returned_secrets_witness :
  exists salt iterations hash iv ct mac d,
    bytes_utf8 Toy.primitives (JStr "a@b.c") = ret salt
    /\ iterations_of (JNum 5) = ret iterations
    /\ pbkdf2_hmac_sha256 Toy.primitives salt iterations Sample.password
       = Some (MasterKey Sample.secrets)
    /\ pbkdf2_hmac_sha256 Toy.primitives Sample.password 1 (MasterKey Sample.secrets)
       = Some hash
    /\ MasterPasswordHash Sample.secrets = base64_b64encode hash
    /\ StretchedEncryptionKey Sample.secrets
       = stretched_enc Toy.primitives (MasterKey Sample.secrets)
    /\ StretchedMacKey Sample.secrets
       = stretched_mac Toy.primitives (MasterKey Sample.secrets)
    /\ outcome (parse_symmetric Toy.primitives (JStr Sample.encKey))
       = Ret (iv, ct, mac)
    /\ mac = hmac_sha256 Toy.primitives (StretchedMacKey Sample.secrets)
                         (iv ++ ct)%list
    /\ aes_cbc_decrypt Toy.primitives (StretchedEncryptionKey Sample.secrets) iv ct
       = Some d
    /\ pkcs7_unpad Toy.primitives d = Some (GeneratedSymmetricKey Sample.secrets)
    /\ GeneratedEncryptionKey Sample.secrets
       = slice 0 32 (GeneratedSymmetricKey Sample.secrets)
    /\ GeneratedMACKey Sample.secrets
       = slice 32 64 (GeneratedSymmetricKey Sample.secrets)
    /\ outcome (decryptRSAPrivateKey Toy.primitives JNull
                  (GeneratedEncryptionKey Sample.secrets)
                  (GeneratedMACKey Sample.secrets))
       = Ret (RSAPrivateKey Sample.secrets).
Proof.
  apply (returned_secrets_are_verified
           Toy.primitives (JStr "a@b.c") Sample.password (JNum 5)
           (JStr Sample.encKey) JNull Sample.secrets).
  vm_compute. reflexivity.
Defined.

(* ================================================================== *)
(** * The RSA routine *)
(* ================================================================== *)

Lemma decryptRSA_of_parts (P : Primitives) (s h b : string) (t : list string)
      (z : Z) (key : pyobj) :
  Str.split "." s = h :: b :: t ->
  Str.int h = Some z ->
  decryptRSA P (JStr s) key
  = (ciphertext <- base64_b64decode P (hd EmptyString (Str.split "|" b)) ;;
     emit (LoadDerPrivateKey key) ;;;
     private_key <- match key with
                    | PyBytes der =>
                        lift (ValueError InvalidPrivateKey)
                             (load_der_private_key P der)
                    | _ => raise TypeError
                    end ;;
     emit (RsaOaepDecrypt ciphertext) ;;;
     lift (ValueError DecryptionFailed)
          (rsa_oaep_sha1_decrypt P private_key ciphertext)).
Proof.
  intros Hs Hz. unfold decryptRSA, encType_of, segment, split, item.
  rewrite !bind_ret_l, Hs. cbn [nth_error lift]. rewrite !bind_ret_l, Hz.
  cbn [lift]. rewrite bind_ret_l.
  pose proof (split_nonempty "|" b) as Hne.
  destruct (Str.split "|" b) as [|seg segs]; [contradiction|].
  cbn [nth_error lift hd]. now rewrite bind_ret_l.
Qed.

(** X16.  The RSA routine checks no MAC and reads one part only.  Its
    run never contains an HMAC computation, and of the text between the
    first and the second dot it decodes the part before the first bar and
    nothing else: two strings with an integer type that agree on that
    part are decrypted alike, whatever is appended to them. *)
Theorem decryptRSA_reads_one_part_and_checks_no_mac
        (P : Primitives) (s1 s2 h1 h2 b1 b2 : string) (t1 t2 : list string)
        (z1 z2 : Z) (key : pyobj) :
  Str.split "." s1 = h1 :: b1 :: t1 ->
  Str.split "." s2 = h2 :: b2 :: t2 ->
  Str.int h1 = Some z1 ->
  Str.int h2 = Some z2 ->
  hd EmptyString (Str.split "|" b1) = hd EmptyString (Str.split "|" b2) ->
  decryptRSA P (JStr s1) key = decryptRSA P (JStr s2) key
  /\ forall k msg, ~ In (HmacSha256 k msg) (trace (decryptRSA P (JStr s1) key)).
Proof.
  intros Hs1 Hs2 Hz1 Hz2 Hhd.
  rewrite (decryptRSA_of_parts P _ _ _ _ _ key Hs1 Hz1),
    (decryptRSA_of_parts P _ _ _ _ _ key Hs2 Hz2), Hhd.
  split; [reflexivity|]. intros k msg. unfold base64_b64decode.
  destruct (Str.all_chars is_ascii _); [|cbn; tauto].
  destruct (b64decode P _) as [ct|]; cbn; [|tauto].
  destruct key as [|s|der]; cbn; try (intros [H|[]]; discriminate).
  destruct (load_der_private_key P der) as [pk|]; cbn;
    [|intros [H|[]]; discriminate].
  destruct (rsa_oaep_sha1_decrypt P pk ct); cbn;
    intros [H|[H|[]]]; discriminate.
Qed.

Lemma decryptRSA_one_part_witness :
  decryptRSA Toy.primitives (JStr Sample.encOrgKey) (PyBytes Sample.der)
  = decryptRSA Toy.primitives (JStr ("6" ++ Str.drop 1 Sample.encOrgKey ++ "|AAAA.x"))
               (PyBytes Sample.der)
  /\ forall k msg,
      ~ In (HmacSha256 k msg)
           (trace (decryptRSA Toy.primitives (JStr Sample.encOrgKey)
                              (PyBytes Sample.der))).
Proof.
  eapply (decryptRSA_reads_one_part_and_checks_no_mac Toy.primitives);
    vm_compute; reflexivity.
Defined.

(* ================================================================== *)
(** * A field is decrypted in place *)
(* ================================================================== *)

(** ** [str.replace] when the text occurs once *)

Lemma has_prefix_append (m q : string) : Str.has_prefix m (m ++ q) = true.
Proof.
  induction m as [|c m IH]; [reflexivity|]. cbn. now rewrite Ascii.eqb_refl.
Qed.

Lemma find_cons (old : string) (c : ascii) (s : string) :
  Str.find old (String c s)
  = if Str.has_prefix old (String c s) then Some O
    else option_map S (Str.find old s).
Proof. reflexivity. Qed.

Lemma replace_from_skip (old new a q : string) :
  Str.replace_from old new (String.length a) (a ++ q)
  = Str.replace_from old new 0 q.
Proof.
  induction a as [|c a IH]; [reflexivity|]. exact IH.
Qed.

Lemma replace_from_absent (old new s : string) :
  Str.find old s = None -> Str.replace_from old new 0 s = s.
Proof.
  induction s as [|c s IH]; [reflexivity|]. rewrite find_cons.
  cbn [Str.replace_from].
  destruct (Str.has_prefix old (String c s)); [discriminate|].
  destruct (Str.find old s); [discriminate|]. intros _. now rewrite IH.
Qed.

Lemma replace_from_once (old new p q : string) :
  old <> EmptyString ->
  Str.find old (p ++ old ++ q) = Some (String.length p) ->
  Str.find old q = None ->
  Str.replace_from old new 0 (p ++ old ++ q) = p ++ new ++ q.
Proof.
  intros Hne Hfind Hq. induction p as [|c p IH].
  - destruct old as [|c o]; [contradiction|].
    change (EmptyString ++ String c o ++ q) with (String c (o ++ q)).
    cbn [Str.replace_from].
    change (String c (o ++ q)) with (String c o ++ q) at 1.
    rewrite has_prefix_append.
    replace (String.length (String c o) - 1)%nat with (String.length o)
      by (cbn [String.length]; lia).
    rewrite replace_from_skip, (replace_from_absent _ _ _ Hq).
    reflexivity.
  - change (String c p ++ String.append old q) with (String c (p ++ old ++ q)) in *.
    rewrite find_cons in Hfind. cbn [Str.replace_from String.length] in *.
    destruct (Str.has_prefix old (String c (p ++ old ++ q))); [discriminate|].
    destruct (Str.find old (p ++ old ++ q)) as [n|]; [|discriminate].
    injection Hfind as ->. now rewrite IH.
Qed.

Lemma replace_once (old new p q : string) :
  old <> EmptyString ->
  Str.find old (p ++ old ++ q) = Some (String.length p) ->
  Str.find old q = None ->
  Str.replace (p ++ old ++ q) old new = p ++ new ++ q.
Proof.
  intros Hne. unfold Str.replace. destruct old; [contradiction|].
  now apply replace_from_once.
Qed.

Lemma replace_absent (s old new : string) :
  old <> EmptyString -> Str.find old s = None -> Str.replace s old new = s.
Proof.
  intros Hne. unfold Str.replace. destruct old; [contradiction|].
  apply replace_from_absent.
Qed.

(** ** Where the value of a member stands in the text of its object *)

Lemma join_tail {A} (sep : string) (d : A -> string) (l : list A) (a tail : string) :
  join sep (a :: map d l) ++ tail
  = a ++ fold_right (fun y acc => sep ++ d y ++ acc) tail l.
Proof.
  revert a. induction l as [|y l IH]; intros a; [reflexivity|].
  cbn [map fold_right]. rewrite join_cons, !append_assoc. now rewrite IH.
Qed.

Lemma join_at {A} (sep : string) (d : A -> string) (l1 l2 : list A) (x : A)
      (tail : string) :
  join sep (map d (l1 ++ x :: l2)) ++ tail
  = fold_right (fun y acc => d y ++ sep ++ acc)
               (d x ++ fold_right (fun y acc => sep ++ d y ++ acc) tail l2) l1.
Proof.
  induction l1 as [|y l1 IH].
  - cbn [app map fold_right]. apply join_tail.
  - cbn [app map fold_right]. rewrite <- IH.
    destruct (map d (l1 ++ x :: l2)) as [|z zs] eqn:E.
    + apply map_eq_nil in E. now destruct l1.
    + now rewrite join_cons, !append_assoc.
Qed.

Lemma fold_right_append {A} (f : A -> string) (sep base t : string) (l : list A) :
  fold_right (fun y acc => f y ++ sep ++ acc) base l ++ t
  = fold_right (fun y acc => f y ++ sep ++ acc) (base ++ t) l.
Proof.
  induction l as [|y l IH]; [reflexivity|].
  cbn [fold_right]. now rewrite !append_assoc, IH.
Qed.

Lemma dumps_at (before after : list (string * json)) (key : string) (v : json) :
  dumps (JObj (before ++ (key, v) :: after))
  = before_value before key ++ dumps v ++ after_value after.
Proof.
  unfold before_value, after_value. cbn [dumps].
  change (fun kv : string * json => let (k, x) := kv in encode_str k ++ ": " ++ dumps x)
    with dumps_member.
  rewrite !append_assoc. f_equal.
  rewrite (join_at ", " dumps_member before after (key, v) "}").
  rewrite fold_right_append. unfold dumps_member at 2. now rewrite !append_assoc.
Qed.

Lemma wf_value_replaced (before after : list (string * json)) (key : string)
      (v v' : json) :
  wf (JObj (before ++ (key, v) :: after)) = true -> wf v' = true ->
  wf (JObj (before ++ (key, v') :: after)) = true.
Proof.
  cbn [wf]. rewrite !map_app, !forallb_app. cbn [map fst forallb].
  intros H Hv'. apply andb_true_iff in H as [Hd H].
  apply andb_true_iff in H as [Hb H]. apply andb_true_iff in H as [_ Ha].
  now rewrite Hd, Hb, Hv', Ha.
Qed.

Lemma match_not_empty (text m : string) :
  In m (Re.findall regexPattern text) -> m <> EmptyString.
Proof.
  intros Hin. apply findall_from_regexPattern in Hin.
  destruct Hin as (s' & n & Hm & ->).
  apply match_here_regexPattern in Hm.
  destruct Hm as (d & rest & k & -> & _ & ->). discriminate.
Qed.

(** X3.  A field is decrypted in place.  Take a record with one match of
    the pattern, which is the whole value of one of its members, is
    written in the record's text as it is, and occurs nowhere else in
    that text.  When the routine returns a clear text for it, the text
    that goes to [json.loads] is the text of the same record with the
    clear text as the value of that member, less the text of the user
    identifier where it occurs; when it does not occur, the record that
    is appended is the record with that member decrypted and every other
    member as it was. *)
Theorem field_is_decrypted_in_place
        (P : Primitives) (datafile : json) (secrets : BitwardenSecrets)
        (OrgSecrets : org_secrets) (vars vars' : key_vars) (l : list json)
        (before after : list (string * json)) (key m cleartext userId : string)
        (encKey macKey : bytes) :
  let c := JObj (before ++ (key, JStr m) :: after) in
  let c' := JObj (before ++ (key, JStr cleartext) :: after) in
  wf c = true ->
  getitem datafile "userId" = ret (JStr userId) ->
  select_keys secrets OrgSecrets c vars = ret vars' ->
  encKey_var vars' = Some encKey ->
  macKey_var vars' = Some macKey ->
  Re.findall regexPattern (dumps c) = [m] ->
  escape m = m ->
  Str.find m (dumps c) = Some (String.length (before_value before key) + 1) ->
  Str.find m (String dq (after_value after)) = None ->
  outcome (decryptCipherString P (JStr m) encKey macKey) = Ret (PyStr cleartext) ->
  outcome (walk_entry P datafile secrets OrgSecrets (vars, l) c)
  = match loads (Str.replace (dumps c') (userIdString userId) EmptyString) with
    | Some record => Ret (vars', (l ++ [record])%list)
    | None => Raise JSONDecodeError
    end
  /\ (Str.find (userIdString userId) (dumps c') = None ->
      outcome (walk_entry P datafile secrets OrgSecrets (vars, l) c)
      = Ret (vars', (l ++ [c'])%list)).
Proof.
  intros c c' Hwf Hu Hsel He Hm Hall Hesc Hfind Hafter Hdec. subst c c'.
  assert (Hne : m <> EmptyString).
  { apply (match_not_empty (dumps (JObj (before ++ (key, JStr m) :: after)))).
    rewrite Hall. now left. }
  assert (Hshape : forall x,
             dumps (JObj (before ++ (key, JStr x) :: after))
             = (before_value before key ++ String dq EmptyString)
                 ++ escape x ++ String dq (after_value after)).
  { intros x. rewrite dumps_at. cbn [dumps]. unfold encode_str.
    rewrite !append_assoc. f_equal. cbn [append]. now rewrite append_assoc. }
  assert (Hrun :
            outcome (walk_entry P datafile secrets OrgSecrets (vars, l)
                                (JObj (before ++ (key, JStr m) :: after)))
            = match loads (Str.replace
                             (dumps (JObj (before ++ (key, JStr cleartext) :: after)))
                             (userIdString userId) EmptyString) with
              | Some record => Ret (vars', (l ++ [record])%list)
              | None => Raise JSONDecodeError
              end).
  { rewrite (walk_entry_rewrites P datafile secrets OrgSecrets vars vars' l _
               userId encKey macKey (fun _ => cleartext) Hwf Hu Hsel He Hm).
    - rewrite Hall. cbn [rewritten fold_left].
      rewrite (Hshape cleartext). rewrite (Hshape m) in *. rewrite Hesc in *.
      rewrite replace_once; [reflexivity | exact Hne | | exact Hafter].
      rewrite Hfind, length_append. reflexivity.
    - rewrite Hall. intros m' [<- | []]. exact Hdec. }
  split; [exact Hrun|].
  intros Hnone. rewrite Hrun, replace_absent; [| discriminate | exact Hnone].
  rewrite loads_dumps; [reflexivity|].
  now apply (wf_value_replaced before after key (JStr m)).
Qed.

(** A folder with an encrypted name and no user identifier. *)
Lemma field_in_place_witness :
  let entry := walk_entry Toy.primitives (Sample.personal []) Sample.secrets [] in
  let start := ({| encKey_var := None; macKey_var := None |}, []) in
  let c := JObj [("id", JStr "f1"); ("name", JStr Sample.name_Work);
                 ("revisionDate", JStr "2021-01-01")] in
  let c' := JObj [("id", JStr "f1"); ("name", JStr "Work");
                  ("revisionDate", JStr "2021-01-01")] in
  outcome (entry start c)
  = match loads (Str.replace (dumps c') (userIdString "u1") EmptyString) with
    | Some record => Ret (Sample.user_keys, ([] ++ [record])%list)
    | None => Raise JSONDecodeError
    end
  /\ (Str.find (userIdString "u1") (dumps c') = None ->
      outcome (entry start c) = Ret (Sample.user_keys, ([] ++ [c'])%list)).
Proof.
  apply (field_is_decrypted_in_place
           Toy.primitives (Sample.personal []) Sample.secrets []
           {| encKey_var := None; macKey_var := None |} Sample.user_keys []
           [("id", JStr "f1")] [("revisionDate", JStr "2021-01-01")]
           "name" Sample.name_Work "Work" "u1" Sample.user_enc Sample.user_mac);
    vm_compute; reflexivity.
Defined.
